(** * Spanner driver: schema discovery, schema diff and parameter translation

    A shallow embedding of the pure core of [SpannerDriver]
    (parseTypeName, parseSchema, updateTableWithExtendSchema,
    compareDefaultValues, findChangedColumns, escapeQueryWithParameters)
    together with the properties its specification states about them.

    The driver is written around JavaScript regular expressions; they are
    embedded as values of an abstract syntax [regex] and run by a
    backtracking matcher [rmatch] that follows the ECMAScript matching
    order (leftmost start, alternatives left to right, greedy and lazy
    repetition, capture groups, lookahead, [\b], [^], [$]).

    Scope of the model: strings are sequences of 8-bit characters and the
    character classes, [toLowerCase] and [trim] are the ASCII ones; the
    numbers of column defaults are integers, and a column length is the
    double that [Number] gives for its digits.  The plain objects used as
    maps are finite maps by key: the order in which [for ... in] visits
    them and the key __proto__ are outside, and the properties that
    depend on either say so. *)

From Stdlib Require Import ZArith Lia List Ascii String DecimalString.
From stdpp Require Import base option list strings gmap.
Import ListNotations.

Open Scope string_scope.
Open Scope list_scope.

(* ===================================================================== *)
(** ** Characters and character classes *)

Module Chars.

Abbreviation str := (list ascii).

Definition code (c : ascii) : nat := nat_of_ascii c.

Definition between (lo hi : nat) (c : ascii) : bool :=
  (lo <=? code c)%nat && (code c <=? hi)%nat.

Definition is_digit (c : ascii) : bool := between 48 57 c.
Definition is_upper (c : ascii) : bool := between 65 90 c.
Definition is_lower (c : ascii) : bool := between 97 122 c.

(** [\w] : [A-Za-z0-9_] *)
Definition is_word (c : ascii) : bool :=
  is_upper c || is_lower c || is_digit c || (code c =? 95)%nat.

(** [\s] : tab, line feed, vertical tab, form feed, carriage return, space *)
Definition is_space (c : ascii) : bool :=
  between 9 13 c || (code c =? 32)%nat.

(** [.] : everything but the line terminators *)
Definition is_dot (c : ascii) : bool :=
  negb ((code c =? 10)%nat || (code c =? 13)%nat).

Definition is_char (x c : ascii) : bool := Ascii.eqb x c.
Definition not_char (x c : ascii) : bool := negb (Ascii.eqb x c).
Definition any_char (c : ascii) : bool := true.

Definition lower_char (c : ascii) : ascii :=
  if is_upper c then ascii_of_nat (code c + 32) else c.

(** [String.prototype.toLowerCase] *)
Definition toLowerCase (s : str) : str := map lower_char s.

Fixpoint drop_while (p : ascii -> bool) (s : str) : str :=
  match s with
  | c :: s' => if p c then drop_while p s' else s
  | [] => []
  end.

Fixpoint take_while (p : ascii -> bool) (s : str) : str :=
  match s with
  | c :: s' => if p c then c :: take_while p s' else []
  | [] => []
  end.

(** [String.prototype.trim] *)
Definition trim (s : str) : str :=
  rev (drop_while is_space (rev (drop_while is_space s))).

(** [s.startsWith(p)], returning what follows the prefix *)
Fixpoint strip_prefix (p s : str) : option str :=
  match p, s with
  | [], _ => Some s
  | x :: p', c :: s' => if Ascii.eqb x c then strip_prefix p' s' else None
  | _ :: _, [] => None
  end.

(** [String.prototype.indexOf], as an integer: -1 when absent *)
Fixpoint indexOf_from (needle hay : str) (i : Z) : Z :=
  match strip_prefix needle hay with
  | Some _ => i
  | None => match hay with
            | [] => (-1)%Z
            | _ :: hay' => indexOf_from needle hay' (i + 1)%Z
            end
  end.

Definition indexOf (hay needle : str) : Z := indexOf_from needle hay 0%Z.

(** [String.prototype.split(",")]: never empty, the empty string gives
    one empty fragment *)
Fixpoint split_on (sep : ascii) (s : str) : list str :=
  match s with
  | [] => [[]]
  | c :: s' =>
      if Ascii.eqb sep c then [] :: split_on sep s'
      else match split_on sep s' with
           | f :: fs => (c :: f) :: fs
           | [] => [[c]]
           end
  end.

(** [Array.prototype.join] *)
Fixpoint join (sep : str) (l : list str) : str :=
  match l with
  | [] => []
  | [x] => x
  | x :: l' => x ++ sep ++ join sep l'
  end.

End Chars.
Export Chars.

(* ===================================================================== *)
(** ** Regular expressions *)

Module Regex.

Inductive regex : Type :=
| Eps                                   (* empty pattern *)
| Chr (p : ascii -> bool)               (* one character of a class *)
| Seq (r1 r2 : regex)                   (* r1 r2 *)
| Alt (r1 r2 : regex)                   (* r1|r2 *)
| Star (r : regex)                      (* r*  (greedy) *)
| LazyStar (r : regex)                  (* r*? *)
| Group (n : nat) (r : regex)           (* n-th capturing group *)
| Ahead (r : regex)                     (* (?=r) *)
| WordB                                 (* \b *)
| Bos                                   (* ^ *)
| Eos.                                  (* $ *)

Definition Plus (r : regex) : regex := Seq r (Star r).          (* r+ *)
Definition LazyPlus (r : regex) : regex := Seq r (LazyStar r).  (* r+? *)
Definition Opt (r : regex) : regex := Alt r Eps.                (* r? *)

(** a literal string *)
Fixpoint lit (s : str) : regex :=
  match s with
  | [] => Eps
  | c :: s' => Seq (Chr (is_char c)) (lit s')
  end.

Definition Lit (s : string) : regex := lit (list_ascii_of_string s).

(** r1 r2 ... rn *)
Definition seqs (l : list regex) : regex := fold_right Seq Eps l.

(** The matcher state: the input already consumed (most recent character
    first), the input still ahead, and the captures made so far. *)
Record mstate : Type := MState {
  before : str;
  after : str;
  caps : list (nat * str)
}.

Definition advance (c : ascii) (rest : str) (st : mstate) : mstate :=
  MState (c :: before st) rest (caps st).

(** the text consumed between two states of one match *)
Definition consumed (st st' : mstate) : str :=
  rev (firstn (length (before st') - length (before st)) (before st')).

Definition set_cap (n : nat) (s : str) (st : mstate) : mstate :=
  MState (before st) (after st) ((n, s) :: caps st).

Definition get_cap (n : nat) (cs : list (nat * str)) : option str :=
  match find (fun e => Nat.eqb (fst e) n) cs with
  | Some e => Some (snd e)
  | None => None
  end.

Definition progressed (st st' : mstate) : bool :=
  (length (after st') <? length (after st))%nat.

Definition word_before (st : mstate) : bool :=
  match before st with c :: _ => is_word c | [] => false end.

Definition word_after (st : mstate) : bool :=
  match after st with c :: _ => is_word c | [] => false end.

Abbreviation cont := (mstate -> option mstate).

Definition orelse (a : option mstate) (b : option mstate) : option mstate :=
  match a with Some x => Some x | None => b end.

(** Greedy repetition: another round of the body first, the rest of the
    pattern second.  A round that consumes nothing is rejected, as in
    ECMAScript; [n] bounds the rounds by the input that is left. *)
Definition star_loop (body : mstate -> cont -> option mstate) (k : cont)
  : nat -> mstate -> option mstate :=
  fix loop (n : nat) (st : mstate) : option mstate :=
    match n with
    | O => k st
    | S n' =>
        orelse
          (body st (fun st' => if progressed st st' then loop n' st' else None))
          (k st)
    end.

(** Lazy repetition: the rest of the pattern first. *)
Definition lazy_loop (body : mstate -> cont -> option mstate) (k : cont)
  : nat -> mstate -> option mstate :=
  fix loop (n : nat) (st : mstate) : option mstate :=
    match n with
    | O => k st
    | S n' =>
        orelse
          (k st)
          (body st (fun st' => if progressed st st' then loop n' st' else None))
    end.

Fixpoint rmatch (r : regex) (st : mstate) (k : cont) : option mstate :=
  match r with
  | Eps => k st
  | Chr p =>
      match after st with
      | c :: rest => if p c then k (advance c rest st) else None
      | [] => None
      end
  | Seq r1 r2 => rmatch r1 st (fun st' => rmatch r2 st' k)
  | Alt r1 r2 => orelse (rmatch r1 st k) (rmatch r2 st k)
  | Star r1 => star_loop (rmatch r1) k (length (after st)) st
  | LazyStar r1 => lazy_loop (rmatch r1) k (length (after st)) st
  | Group n r1 =>
      rmatch r1 st (fun st' => k (set_cap n (consumed st st') st'))
  | Ahead r1 =>
      match rmatch r1 st Some with
      | Some st' => k (MState (before st) (after st) (caps st'))
      | None => None
      end
  | WordB => if xorb (word_before st) (word_after st) then k st else None
  | Bos => match before st with [] => k st | _ :: _ => None end
  | Eos => match after st with [] => k st | _ :: _ => None end
  end.

(** The result of a successful match: the matched text and the groups. *)
Record rmatched : Type := RMatched {
  m_text : str;
  m_caps : list (nat * str)
}.

Definition m_group (n : nat) (m : rmatched) : option str := get_cap n (m_caps m).

(** one attempt at the current position *)
Definition match_here (r : regex) (b a : str) : option rmatched :=
  match rmatch r (MState b a []) Some with
  | Some st' => Some (RMatched (consumed (MState b a []) st') (caps st'))
  | None => None
  end.

(** the leftmost match at or after the current position *)
Fixpoint search (r : regex) (b a : str) : option rmatched :=
  match match_here r b a with
  | Some m => Some m
  | None =>
      match a with
      | [] => None
      | c :: a' => search r (c :: b) a'
      end
  end.

(** [s.match(r)] for a regular expression without the [g] flag *)
Definition re_match (r : regex) (s : str) : option rmatched := search r [] s.

(** [s.match(r)] with the [g] flag: the texts of all matches, left to
    right; [skip] counts the characters of the last match that are still
    to be passed over. *)
Fixpoint match_all_from (r : regex) (skip : nat) (b a : str) : list str :=
  match skip with
  | S n =>
      match a with
      | [] => []
      | c :: a' => match_all_from r n (c :: b) a'
      end
  | O =>
      match match_here r b a with
      | Some m =>
          m_text m ::
          match a with
          | [] => []
          | c :: a' => match_all_from r (length (m_text m) - 1) (c :: b) a'
          end
      | None =>
          match a with
          | [] => []
          | c :: a' => match_all_from r 0 (c :: b) a'
          end
      end
  end.

Definition re_match_all (r : regex) (s : str) : list str :=
  match_all_from r 0 [] s.

(** [s.replace(r, f)] with the [g] flag and a callback: [f] gets the
    matched text and returns the replacement together with what it emits
    on the side (the callback of the driver pushes to an array). *)
Fixpoint replace_from {E : Type} (r : regex) (f : str -> str * list E)
    (skip : nat) (b a : str) : str * list E :=
  match skip with
  | S n =>
      match a with
      | [] => ([], [])
      | c :: a' => replace_from r f n (c :: b) a'
      end
  | O =>
      match match_here r b a with
      | Some m =>
          let '(t, w) := f (m_text m) in
          match a with
          | [] => (t, w)
          | c :: a' =>
              let '(o, w') :=
                replace_from r f (length (m_text m) - 1) (c :: b) a' in
              match m_text m with
              | [] => (t ++ c :: o, w ++ w')
              | _ :: _ => (t ++ o, w ++ w')
              end
          end
      | None =>
          match a with
          | [] => ([], [])
          | c :: a' =>
              let '(o, w') := replace_from r f 0 (c :: b) a' in (c :: o, w')
          end
      end
  end.

Definition re_replace_all {E : Type} (r : regex) (f : str -> str * list E)
    (s : str) : str * list E :=
  replace_from r f 0 [] s.

End Regex.
Export Regex.

Definition txt (s : string) : str := list_ascii_of_string s.

(** a group that took part in the match; the empty text otherwise *)
Definition grp (n : nat) (m : rmatched) : str :=
  match m_group n m with Some s => s | None => [] end.

(* ===================================================================== *)
(** ** Numbers and text *)

Module Num.

Definition digit_val (c : ascii) : N := N.of_nat (code c - 48).

(** the number a string of decimal digits denotes *)
Definition decimal (s : str) : N :=
  fold_left (fun acc c => (10 * acc + digit_val c)%N) s 0%N.

(** The Number values that [Number] gives for a string of decimal digits:
    a double that is a natural number, or Infinity. *)
Inductive number : Type :=
| Whole (n : N)
| PosInfinity.

(** below 2^53 every natural number is a double of its own *)
Definition safe_bound : N := 2 ^ 53.

(** The double nearest to a natural number, ties to the even significand:
    a significand of 53 bits is kept and the bits below it are rounded. *)
Definition nearest_double (n : N) : N :=
  if (n <? safe_bound)%N then n
  else
    let e := (N.log2 n - 52)%N in
    let q := N.shiftr n e in
    let r := N.land n (N.ones e) in
    let half := N.shiftl 1 (e - 1) in
    let q' := if (half <? r)%N || ((r =? half)%N && N.odd q) then (q + 1)%N else q in
    N.shiftl q' e.

(** [Number(s)] for a string of decimal digits: the value of the digits
    rounded to a double, Infinity from 2^1024 on.  The rounding is to the
    nearest double, which the standard requires up to 20 significant
    digits and leaves to the engine beyond. *)
Definition Number (s : str) : number :=
  let d := nearest_double (decimal s) in
  if (2 ^ 1024 <=? d)%N then PosInfinity else Whole d.

(** the decimal text of a natural number *)
Definition N_toString (n : N) : str :=
  txt (NilZero.string_of_uint (N.to_uint n)).

(** [i.toString()] for an array index *)
Definition nat_toString (i : nat) : str := N_toString (N.of_nat i).

(** One candidate for the digits of a double: [s] of [k] digits followed
    by [n - k] zeros, when that text denotes a number whose double is [x];
    with it, how far the number is from [x]. *)
Definition digits_candidate (x : N) (k n : nat) (s : N) : option (N * nat * N) :=
  let p := (10 ^ N.of_nat (n - k))%N in
  if (10 ^ N.of_nat (k - 1) <=? s)%N && (s <? 10 ^ N.of_nat k)%N
     && (nearest_double (s * p) =? x)%N
  then Some (s, n, if (s * p <? x)%N then (x - s * p)%N else (s * p - x)%N)
  else None.

(** the nearer of two candidates, the even digits on a tie *)
Definition nearer (a b : option (N * nat * N)) : option (N * nat * N) :=
  match a, b with
  | Some (s, n, d), Some (s', n', d') =>
      if (d <? d')%N then a
      else if (d' <? d)%N then b
      else if N.even s then a else b
  | Some _, None => a
  | None, _ => b
  end.

(** the digits of [k] places for the double [x]: the text has as many
    places as [x] or one more *)
Definition digits_of_length (x : N) (k : nat) : option (N * nat * N) :=
  let n := List.length (N_toString x) in
  let at_places n :=
    let lo := (x / 10 ^ N.of_nat (n - k))%N in
    nearer (digits_candidate x k n lo) (digits_candidate x k n (lo + 1)) in
  nearer (at_places n) (at_places (S n)).

(** the fewest digits that denote the double, tried from [k] places on *)
Fixpoint shortest_digits (fuel : nat) (x : N) (k : nat) : option (N * nat) :=
  match fuel with
  | O => None
  | S fuel' =>
      match digits_of_length x k with
      | Some (s, n, _) => Some (s, n)
      | None => shortest_digits fuel' x (S k)
      end
  end.

(** the text of [s] followed by zeros up to [n] places when [n] is at
    most 21, and the exponent form beyond *)
Definition digits_text (s : N) (n : nat) : str :=
  let ds := N_toString s in
  if (n <=? 21)%nat then ds ++ repeat "0"%char (n - List.length ds)
  else
    match ds with
    | [] => []
    | c :: rest =>
        c :: match rest with
             | [] => []
             | _ :: _ => "."%char :: rest
             end
        ++ txt "e+" ++ nat_toString (n - 1)
    end.

(** [x.toString()] for these Number values: the decimal text below 2^53,
    the fewest digits that denote the double from there on. *)
Definition toString (x : number) : str :=
  match x with
  | PosInfinity => txt "Infinity"
  | Whole n =>
      if (n <? safe_bound)%N then N_toString n
      else match shortest_digits 17 n 1 with
           | Some (s, places) => digits_text s places
           | None => N_toString n
           end
  end.

(** an integer appended to the empty string: its decimal text *)
Definition Z_toString (z : Z) : str :=
  txt (NilZero.string_of_int (Z.to_int z)).

End Num.
Export Num.

(* ===================================================================== *)
(** ** The regular expressions of the driver *)

Module Patterns.

(** The statement pattern of parseSchema, token by token:
    [\s* CREATE \s+ TABLE \s+ (\w+) \s? [^\(]* \( ([\s\S]*?) , (?= \s* \) ) \s* \) ( [\s\S]* )] *)
Definition create_table_re : regex :=
  seqs [ Star (Chr is_space); Lit "CREATE"; Plus (Chr is_space);
         Lit "TABLE"; Plus (Chr is_space);
         Group 1 (Plus (Chr is_word));
         Opt (Chr is_space); Star (Chr (not_char "(")); Lit "(";
         Group 2 (LazyStar (Chr any_char));
         Lit ","; Ahead (Seq (Star (Chr is_space)) (Lit ")"));
         Star (Chr is_space); Lit ")";
         Group 3 (Star (Chr any_char)) ].

Definition word_or_paren (c : ascii) : bool :=
  is_word c || is_char "(" c || is_char ")" c.

(** The column pattern: [(\w+) \s+ ([\w\(\)]+) \s* ( [^\n]* )] *)
Definition column_re : regex :=
  seqs [ Group 1 (Plus (Chr is_word)); Plus (Chr is_space);
         Group 2 (Plus (Chr word_or_paren)); Star (Chr is_space);
         Group 3 (Star (Chr (not_char "010"))) ].

(** [/([^\(]+)\((\d+)\)/] in parseTypeName *)
Definition sized_type_re : regex :=
  seqs [ Group 1 (Plus (Chr (not_char "("))); Lit "(";
         Group 2 (Plus (Chr is_digit)); Lit ")" ].

(** [/([^<]+)<(\w+)>/] in parseTypeName *)
Definition array_type_re : regex :=
  seqs [ Group 1 (Plus (Chr (not_char "<"))); Lit "<";
         Group 2 (Plus (Chr is_word)); Lit ">" ].

Definition word_or_space (c : ascii) : bool := is_word c || is_space c.

(** The clause pattern, with the g flag: [( \w+ [\w\s]+ \( [^)]+ \) [^,]* )] *)
Definition index_clause_re : regex :=
  Group 1 (seqs [ Plus (Chr is_word); Plus (Chr word_or_space); Lit "(";
                  Plus (Chr (not_char ")")); Lit ")";
                  Star (Chr (not_char ",")) ]).

(** [INTERLEAVE \s+ IN \s+ PARENT \s+ (\w+) \s* \( (\w+) \)] *)
Definition interleave_re : regex :=
  seqs [ Lit "INTERLEAVE"; Plus (Chr is_space); Lit "IN";
         Plus (Chr is_space); Lit "PARENT"; Plus (Chr is_space);
         Group 1 (Plus (Chr is_word)); Star (Chr is_space); Lit "(";
         Group 2 (Plus (Chr is_word)); Lit ")" ].

(** [PRIMARY \s+ KEY \s* \( ([^)]+) \)] *)
Definition primary_key_re : regex :=
  seqs [ Lit "PRIMARY"; Plus (Chr is_space); Lit "KEY";
         Star (Chr is_space); Lit "(";
         Group 1 (Plus (Chr (not_char ")"))); Lit ")" ].

(** [(\w[\w\s]+?) \s+ INDEX \s+ (\w+) \s+ ON \s+ (\w+) \s* \( ([^)]+) \) ( .* )] *)
Definition index_re : regex :=
  seqs [ Group 1 (Seq (Chr is_word) (LazyPlus (Chr word_or_space)));
         Plus (Chr is_space); Lit "INDEX"; Plus (Chr is_space);
         Group 2 (Plus (Chr is_word)); Plus (Chr is_space); Lit "ON";
         Plus (Chr is_space); Group 3 (Plus (Chr is_word));
         Star (Chr is_space); Lit "(";
         Group 4 (Plus (Chr (not_char ")"))); Lit ")";
         Group 5 (Star (Chr is_dot)) ].

(** [/^'+|'+$/g] *)
Definition quotes_re : regex :=
  Alt (Seq Bos (Plus (Chr (is_char "'"))))
      (Seq (Plus (Chr (is_char "'"))) Eos).

(** ["(:(\\.\\.\\.)?" + parameter + "\\b)"], the [i]-th alternative of the
    parameter pattern.  The parameter name is spliced into the pattern
    text as it is; the embedding takes it literally, which is what the
    pattern means for names without pattern operators. *)
Definition key_re (i : nat) (parameter : str) : regex :=
  Group (2 * i + 1)
    (seqs [ Lit ":"; Opt (Group (2 * i + 2) (Lit "...")); lit parameter; WordB ]).

(** the alternatives joined with ["|"], numbered from [i] *)
Fixpoint keys_re_from (i : nat) (parameters : list str) : regex :=
  match parameters with
  | [] => Eps
  | [p] => key_re i p
  | p :: ps => Alt (key_re i p) (keys_re_from (S i) ps)
  end.

Definition keys_re (parameters : list str) : regex := keys_re_from 0 parameters.

End Patterns.
Export Patterns.

(* ===================================================================== *)
(** ** Schema descriptors *)

(** What parseTypeName returns. *)
Module ParsedType.
Record t : Type := Make {
  typeName : str;
  isArray : bool;
  length : number
}.
End ParsedType.

(** The column options parseSchema pushes for each column clause;
    [None] is the undefined of the source. *)
Module TableColumnOptions.
Record t : Type := Make {
  name : str;
  type : str;
  isNullable : bool;
  isGenerated : bool;
  isPrimary : bool;
  isUnique : bool;
  isArray : bool;
  length : str;
  default : option str;
  generationStrategy : option str
}.

Definition set_isPrimary (v : bool) (c : t) : t :=
  Make (name c) (type c) (isNullable c) (isGenerated c) v (isUnique c)
       (isArray c) (length c) (default c) (generationStrategy c).

Definition set_isUnique (v : bool) (c : t) : t :=
  Make (name c) (type c) (isNullable c) (isGenerated c) (isPrimary c) v
       (isArray c) (length c) (default c) (generationStrategy c).
End TableColumnOptions.

Module TableIndexOptions.
Record t : Type := Make {
  name : str;
  columnNames : list str;
  isUnique : bool;
  isSpatial : bool
}.
End TableIndexOptions.

Module TableUniqueOptions.
Record t : Type := Make {
  name : str;
  columnNames : list str
}.
End TableUniqueOptions.

(** parseSchema never fills the foreign keys. *)
Module TableForeignKeyOptions.
Record t : Type := Make {
  name : str;
  columnNames : list str;
  referencedTableName : str;
  referencedColumnNames : list str
}.
End TableForeignKeyOptions.

Module TableOptions.
Record t : Type := Make {
  name : str;
  columns : list TableColumnOptions.t;
  indices : list TableIndexOptions.t;
  foreignKeys : list TableForeignKeyOptions.t;
  uniques : list TableUniqueOptions.t
}.
End TableOptions.

(* ===================================================================== *)
(** ** The DDL parser *)

Module Parser.

(** the two errors parseSchema throws *)
Inductive error : Type :=
| InvalidDdlColumnFormat (columnStmt : str)   (* "invalid ddl column format:" + columnStmt *)
| InterleavedIndexNYI.                        (* "NYI spanner: handle interleaved index" *)

Inductive result (A : Type) : Type :=
| Ok (a : A)
| Throw (e : error).
Arguments Ok {A} a.
Arguments Throw {A} e.

#[export] Instance result_bind : MBind result :=
  fun A B (f : A -> result B) (x : result A) =>
    match x with
    | Ok a => f a
    | Throw e => Throw e
    end.

(** a [for ... of] loop whose body may throw, threading the loop state *)
Fixpoint for_of {A S : Type} (l : list A) (body : A -> S -> result S)
    (s : S) : result S :=
  match l with
  | [] => Ok s
  | x :: l' => s' ← body x s; for_of l' body s'
  end.

Definition parseTypeName (typeName : str) : ParsedType.t :=
  match re_match sized_type_re typeName with
  | Some tm =>
      ParsedType.Make (toLowerCase (grp 1 tm)) false (Number (grp 2 tm))
  | None =>
      match re_match array_type_re typeName with
      | Some am => ParsedType.Make (toLowerCase typeName) true (Whole 1)
      | None => ParsedType.Make (toLowerCase typeName) false (Whole 1)
      end
  end.

(** the body of the loop over [columnStmts.split(',')] *)
Definition parseColumn (columnStmt : str)
    (columns : list TableColumnOptions.t) : result (list TableColumnOptions.t) :=
  match re_match column_re columnStmt with
  | None => Throw (InvalidDdlColumnFormat columnStmt)
  | Some cm =>
      let type := parseTypeName (grp 2 cm) in
      Ok (columns ++
          [ TableColumnOptions.Make
              (grp 1 cm)
              (ParsedType.typeName type)
              (indexOf (grp 3 cm) (txt "NOT NULL") <? 0)%Z
              false
              false
              false
              (ParsedType.isArray type)
              (toString (ParsedType.length type))
              None
              None ])
  end.

(** [columns.find(c => c.name == n)] followed by an assignment to a field
    of the column found *)
Fixpoint update_found (n : str) (f : TableColumnOptions.t -> TableColumnOptions.t)
    (columns : list TableColumnOptions.t) : list TableColumnOptions.t :=
  match columns with
  | [] => []
  | c :: cs =>
      if bool_decide (TableColumnOptions.name c = n) then f c :: cs
      else c :: update_found n f cs
  end.

(** the arrays a statement fills while its clauses are read *)
Record tableParts : Type := TableParts {
  columns : list TableColumnOptions.t;
  indices : list TableIndexOptions.t;
  uniques : list TableUniqueOptions.t
}.

(** the body of the loop over the clauses of the trailer *)
Definition parseIndexStmt (idxStmt : str) (p : tableParts) : result tableParts :=
  if (indexOf idxStmt (txt "INTERLEAVE") =? 0)%Z then
    match re_match interleave_re idxStmt with
    | Some im => Throw InterleavedIndexNYI
    | None => Ok p
    end
  else if (indexOf idxStmt (txt "PRIMARY") =? 0)%Z then
    match re_match primary_key_re idxStmt with
    | Some pm =>
        Ok (TableParts
              (fold_left
                 (fun cols primaryColumnName =>
                    update_found primaryColumnName
                      (TableColumnOptions.set_isPrimary true) cols)
                 (map trim (split_on "," (grp 1 pm)))
                 (columns p))
              (indices p) (uniques p))
    | None => Ok p
    end
  else
    match re_match index_re idxStmt with
    | Some im =>
        let tableIndexOptions :=
          TableIndexOptions.Make
            (grp 2 im)
            (map trim (split_on "," (grp 4 im)))
            (0 <=? indexOf (grp 1 im) (txt "UNIQUE"))%Z
            (0 <=? indexOf (grp 1 im) (txt "NULL_FILTERED"))%Z in
        if TableIndexOptions.isUnique tableIndexOptions then
          Ok (TableParts
                (fold_left
                   (fun cols uniqueColumnName =>
                      update_found uniqueColumnName
                        (TableColumnOptions.set_isUnique true) cols)
                   (TableIndexOptions.columnNames tableIndexOptions)
                   (columns p))
                (indices p ++ [tableIndexOptions])
                (uniques p ++
                 [ TableUniqueOptions.Make
                     (TableIndexOptions.name tableIndexOptions)
                     (TableIndexOptions.columnNames tableIndexOptions) ]))
        else
          Ok (TableParts (columns p) (indices p ++ [tableIndexOptions]) (uniques p))
    | None => Ok p
    end.

(** the body of the loop over the statements: a statement that is not of
    the CREATE TABLE shape leaves the map as it is.  The map stands for
    the plain object of the source, which keeps a table under its name
    for every name but __proto__ : an assignment to that name sets the
    prototype of the object instead.  What is said of the tables kept
    under a name is said of schemas that declare no table of that name. *)
Definition parseStatement (stmt : str)
    (tableOptionsMap : gmap str TableOptions.t) : result (gmap str TableOptions.t) :=
  match re_match create_table_re stmt with
  | None => Ok tableOptionsMap
  | Some m =>
      let tableName := grp 1 m in
      let columnStmts := grp 2 m in
      columns ← for_of (split_on "," columnStmts) parseColumn [];
      match m_group 3 m with
      | None => Ok tableOptionsMap
      | Some indexStmts =>
          p ← for_of (re_match_all index_clause_re indexStmts) parseIndexStmt
                (TableParts columns [] []);
          Ok (<[ tableName :=
                 TableOptions.Make tableName (Parser.columns p) (Parser.indices p)
                   [] (Parser.uniques p) ]> tableOptionsMap)
      end
  end.

(** parseSchema, up to the table options by table name: the source then
    wraps each entry in a Table object. *)
Definition parseSchema (ddlStatements : list str) : result (gmap str TableOptions.t) :=
  for_of ddlStatements parseStatement ∅.

End Parser.
Export Parser.

(* ===================================================================== *)
(** ** Live columns and desired columns *)

(** an optional number: undefined, null or an integer *)
Inductive optnum : Type :=
| NumUndefined
| NumNull
| Num (z : Z).

#[export] Instance optnum_eq_dec : EqDecision optnum.
Proof. solve_decision. Defined.

(** Modelled from the spec: the TableColumn class is not part of the
    sources; the record holds the fields of a live column that the driver
    reads or writes. *)
Module TableColumn.
Record t : Type := Make {
  name : str;
  type : str;
  length : str;
  width : optnum;
  precision : optnum;
  scale : optnum;
  zerofill : bool;
  unsigned : bool;
  asExpression : option str;
  generatedType : option str;
  default : option str;
  onUpdate : option str;
  isPrimary : bool;
  isNullable : bool;
  isUnique : bool;
  isGenerated : bool;
  generationStrategy : option str
}.

(** the three assignments of updateTableWithExtendSchema *)
Definition overlay (g : bool) (d : option str) (s : option str) (c : t) : t :=
  Make (name c) (type c) (length c) (width c) (precision c) (scale c)
       (zerofill c) (unsigned c) (asExpression c) (generatedType c)
       d (onUpdate c) (isPrimary c) (isNullable c) (isUnique c) g s.
End TableColumn.

(** a column type of the entity metadata: one of the constructors the
    driver tests for, or a type name *)
Inductive ColumnType : Type :=
| TNumber
| TString
| TDate
| TBuffer
| TBoolean
| TName (n : str).

(** the default of a desired column *)
Inductive DefaultValue : Type :=
| DUndefined
| DNumber (z : Z)
| DBoolean (b : bool)
| DFunction (returns : str)
| DString (s : str).

(** Modelled from the spec: the index metadata of an entity is not part
    of the sources; an index is unique or not and refers to its columns by
    identity. *)
Module IndexMetadata.
Record t : Type := Make {
  isUnique : bool;
  columns : list nat
}.
End IndexMetadata.

(** Modelled from the spec: the ColumnMetadata class is not part of the
    sources; the record holds the fields of a desired column that the
    driver reads, [ref] stands for the identity of the metadata object and
    [indices] for [entityMetadata.indices]. *)
Module ColumnMetadata.
Record t : Type := Make {
  ref : nat;
  indices : list IndexMetadata.t;
  databaseName : str;
  type : ColumnType;
  length : str;
  width : optnum;
  precision : optnum;
  scale : optnum;
  zerofill : bool;
  unsigned : bool;
  asExpression : option str;
  generatedType : option str;
  default : DefaultValue;
  isUpdateDate : bool;
  onUpdate : option str;
  isPrimary : bool;
  isNullable : bool;
  isGenerated : bool;
  generationStrategy : option str
}.
End ColumnMetadata.

(* ===================================================================== *)
(** ** The schema differ *)

Module Differ.

Definition SpannerColumnUpdateWithCommitTimestamp : str := txt "commit_timestamp".

Definition normalizeType (column : ColumnMetadata.t) : str :=
  match ColumnMetadata.type column with
  | TNumber => txt "int64"
  | TString => txt "string"
  | TDate => txt "timestamp"
  | TBuffer => txt "bytes"
  | TBoolean => txt "bool"
  | TName n =>
      if bool_decide (n = txt "integer") then txt "int64"
      else if bool_decide (n = txt "nvarchar") then txt "string"
      else if bool_decide (n = txt "simple-array") || bool_decide (n = txt "simple-json")
      then txt "string"
      else n
  end.

Definition normalizeDefault (columnMetadata : ColumnMetadata.t) : option str :=
  if ColumnMetadata.isUpdateDate columnMetadata then
    Some SpannerColumnUpdateWithCommitTimestamp
  else
    match ColumnMetadata.default columnMetadata with
    | DNumber z => Some (Z_toString z)
    | DBoolean b => Some (if b then txt "true" else txt "false")
    | DFunction returns => Some returns
    | DString s => Some (txt "'" ++ s ++ txt "'")
    | DUndefined => None
    end.

Definition normalizeIsUnique (column : ColumnMetadata.t) : bool :=
  existsb
    (fun idx =>
       IndexMetadata.isUnique idx
       && (List.length (IndexMetadata.columns idx) =? 1)%nat
       && match IndexMetadata.columns idx with
          | c :: _ => (c =? ColumnMetadata.ref column)%nat
          | [] => false
          end)
    (ColumnMetadata.indices column).

(** [s.replace(/^'+|'+$/g, empty)], with the empty string for the matches *)
Definition cutQuotes (s : str) : str :=
  fst (re_replace_all (E := unit) quotes_re (fun _ => ([], [])) s).

Definition compareDefaultValues (columnMetadataValue databaseValue : option str) : bool :=
  match columnMetadataValue, databaseValue with
  | Some m, Some d => bool_decide (cutQuotes m = cutQuotes d)
  | _, _ => bool_decide (columnMetadataValue = databaseValue)
  end.

(** [a !== b] *)
Definition differs {A : Type} `{EqDecision A} (a b : A) : bool :=
  negb (bool_decide (a = b)).

(** the body of the filter of findChangedColumns, once the live column is
    found *)
Definition columnChanged (tableColumn : TableColumn.t)
    (columnMetadata : ColumnMetadata.t) : bool :=
  differs (TableColumn.name tableColumn) (ColumnMetadata.databaseName columnMetadata)
  || differs (TableColumn.type tableColumn) (normalizeType columnMetadata)
  || differs (TableColumn.length tableColumn) (ColumnMetadata.length columnMetadata)
  || differs (TableColumn.width tableColumn) (ColumnMetadata.width columnMetadata)
  || differs (TableColumn.precision tableColumn) (ColumnMetadata.precision columnMetadata)
  || differs (TableColumn.scale tableColumn) (ColumnMetadata.scale columnMetadata)
  || differs (TableColumn.zerofill tableColumn) (ColumnMetadata.zerofill columnMetadata)
  || differs (TableColumn.unsigned tableColumn) (ColumnMetadata.unsigned columnMetadata)
  || differs (TableColumn.asExpression tableColumn) (ColumnMetadata.asExpression columnMetadata)
  || differs (TableColumn.generatedType tableColumn) (ColumnMetadata.generatedType columnMetadata)
  || negb (compareDefaultValues (normalizeDefault columnMetadata)
             (TableColumn.default tableColumn))
  || differs (TableColumn.onUpdate tableColumn) (ColumnMetadata.onUpdate columnMetadata)
  || differs (TableColumn.isPrimary tableColumn) (ColumnMetadata.isPrimary columnMetadata)
  || differs (TableColumn.isNullable tableColumn) (ColumnMetadata.isNullable columnMetadata)
  || differs (TableColumn.isUnique tableColumn) (normalizeIsUnique columnMetadata)
  || (differs (ColumnMetadata.generationStrategy columnMetadata) (Some (txt "uuid"))
      && differs (TableColumn.isGenerated tableColumn)
           (ColumnMetadata.isGenerated columnMetadata)).

(** [tableColumns.find(c => c.name === columnMetadata.databaseName)] *)
Definition findTableColumn (tableColumns : list TableColumn.t)
    (columnMetadata : ColumnMetadata.t) : option TableColumn.t :=
  find (fun c => bool_decide (TableColumn.name c = ColumnMetadata.databaseName columnMetadata))
       tableColumns.

Definition isChanged (tableColumns : list TableColumn.t)
    (columnMetadata : ColumnMetadata.t) : bool :=
  match findTableColumn tableColumns columnMetadata with
  | None => false
  | Some tableColumn => columnChanged tableColumn columnMetadata
  end.

Definition findChangedColumns (tableColumns : list TableColumn.t)
    (columnMetadatas : list ColumnMetadata.t) : list ColumnMetadata.t :=
  filter (fun columnMetadata => isChanged tableColumns columnMetadata) columnMetadatas.

End Differ.
Export Differ.

(* ===================================================================== *)
(** ** The extended schema merger *)

(** Modelled from the spec: the Table class is not part of the sources;
    a table descriptor carries its name and its ordered columns, and
    [findColumnByName] gives the column of the descriptor with that name,
    when it exists. *)
Module Table.
Record t : Type := Make {
  name : str;
  columns : list TableColumn.t
}.

Definition findColumnByName (n : str) (table : t) : option TableColumn.t :=
  find (fun c => bool_decide (TableColumn.name c = n)) (columns table).
End Table.

(** Modelled from the spec: the row shape of the extended schema store is
    not part of the sources; per column it holds a generator (present or
    not), a default expression and a generation strategy. *)
Inductive generatorFn : Type := GeneratorFn.

Module ExtendColumnSchema.
Record t : Type := Make {
  generator : option generatorFn;
  default : option str;
  generatorStorategy : option str
}.
End ExtendColumnSchema.

Module Merger.

(** [!!x] for an optional object *)
Definition truthy {A : Type} (x : option A) : bool :=
  match x with Some _ => true | None => false end.

(** the assignments to the column found by name: the first of that name *)
Fixpoint assignColumn (n : str) (f : TableColumn.t -> TableColumn.t)
    (columns : list TableColumn.t) : list TableColumn.t :=
  match columns with
  | [] => []
  | c :: cs =>
      if bool_decide (TableColumn.name c = n) then f c :: cs
      else c :: assignColumn n f cs
  end.

Definition missingColumnMessage (columnName : str) : str :=
  txt "extendSchema for column " ++ columnName
  ++ txt " exists but table does not have it".

(** the body of the loop over the columns of one extended schema; the
    state is the table and what was written to the console *)
Definition mergeColumn (columnName : str) (columnSchema : ExtendColumnSchema.t)
    (s : Table.t * list str) : Table.t * list str :=
  let '(table, log) := s in
  match Table.findColumnByName columnName table with
  | Some column =>
      (Table.Make (Table.name table)
         (assignColumn columnName
            (TableColumn.overlay
               (truthy (ExtendColumnSchema.generator columnSchema))
               (ExtendColumnSchema.default columnSchema)
               (ExtendColumnSchema.generatorStorategy columnSchema))
            (Table.columns table)),
       log)
  | None => (table, log ++ [missingColumnMessage columnName])
  end.

(** the body of the loop over the tables of the database.  The entries
    of a map are visited in the order of the map here and in the order
    of insertion in the source: the console lines come in another order,
    and the properties speak of them up to their order. *)
Definition mergeTable (extendSchemas : gmap str (gmap str ExtendColumnSchema.t))
    (tableName : str) (table : Table.t)
    (s : gmap str Table.t * list str) : gmap str Table.t * list str :=
  let '(tables, log) := s in
  match extendSchemas !! tableName with
  | Some extendSchema =>
      let '(table', log') := map_fold mergeColumn (table, log) extendSchema in
      (<[ tableName := table' ]> tables, log')
  | None => (tables, log)
  end.

(** updateTableWithExtendSchema: the tables after the loop, the console
    output, and the value returned *)
Definition updateTableWithExtendSchema (tables : gmap str Table.t)
    (extendSchemas : gmap str (gmap str ExtendColumnSchema.t))
  : gmap str Table.t * list str * gmap str (gmap str ExtendColumnSchema.t) :=
  let '(tables', log) := map_fold (mergeTable extendSchemas) (tables, []) tables in
  (tables', log, extendSchemas).

End Merger.
Export Merger.

(* ===================================================================== *)
(** ** The parameter translator *)

Module Translator.

(** the values a query parameter can hold *)
#[local] Unset Elimination Schemes.
Inductive value : Type :=
| VUndefined
| VNull
| VBool (b : bool)
| VNum (z : Z)
| VStr (s : str)
| VArray (elements : list value)
| VFunction (returns : str).
#[local] Set Elimination Schemes.

(** an object literal: its own keys in enumeration order *)
Abbreviation ObjectLiteral := (list (str * value)).

(** [o[k]] *)
Definition get (o : ObjectLiteral) (k : str) : value :=
  match find (fun e => bool_decide (fst e = k)) o with
  | Some e => snd e
  | None => VUndefined
  end.

(** [Object.keys(o)] *)
Definition keys (o : ObjectLiteral) : list str := map fst o.

(** the name of the native parameter of the [i]-th element *)
Definition elementKeyName (keyName : str) (i : nat) : str :=
  keyName ++ nat_toString i.

(** the callback given to [sql.replace]: the replacement text and the
    objects it pushes to escapedParameters *)
(** [key.substr(0, 4) === ":..." ? key.substr(4) : key.substr(1)] *)
Definition keyName (key : str) : str :=
  if bool_decide (firstn 4 key = txt ":...") then skipn 4 key else skipn 1 key.

(** the placeholders and the native parameters of an array value *)
Definition elementPlaceholders (keyName : str) (elements : list value) : str :=
  join (txt ", ") (imap (fun i v => txt "@" ++ elementKeyName keyName i) elements).

Definition elementParameters (keyName : str) (elements : list value)
  : list ObjectLiteral :=
  imap (fun i v => [(elementKeyName keyName i, v)]) elements.

Definition replaceKey (parameters : ObjectLiteral) (key : str)
  : str * list ObjectLiteral :=
  let keyName := keyName key in
  match get parameters keyName with
  | VFunction returns => (returns, [])
  | VArray elements =>
      (elementPlaceholders keyName elements, elementParameters keyName elements)
  | v => (txt "@" ++ keyName, [[(keyName, v)]])
  end.

(** the first value of escapedParameters: the native parameters, when
    there are some *)
Definition initialParameters (nativeParameters : ObjectLiteral) : list ObjectLiteral :=
  if (0 <? length (keys nativeParameters))%nat then [nativeParameters] else [].

Definition escapeQueryWithParameters (sql : str) (parameters : ObjectLiteral)
    (nativeParameters : ObjectLiteral) : str * list ObjectLiteral :=
  let escapedParameters := initialParameters nativeParameters in
  if (length (keys parameters) =? 0)%nat then (sql, escapedParameters)
  else
    let '(sqlReplaced, pushed) :=
      re_replace_all (keys_re (keys parameters)) (replaceKey parameters) sql in
    (sqlReplaced, escapedParameters ++ pushed).

End Translator.
Export Translator.

(* ===================================================================== *)
(** ** Column types as text, names and placeholders *)

Module FullType.

(** a string taken as a condition: true when it is not empty *)
Definition nonEmpty (s : str) : bool :=
  match s with [] => false | _ :: _ => true end.

(** a number taken as a condition: true when it is a number other than 0 *)
Definition numTruthy (n : optnum) : bool :=
  match n with Num z => negb (z =? 0)%Z | _ => false end.

(** [n !== null && n !== undefined] *)
Definition numPresent (n : optnum) : bool :=
  match n with Num _ => true | _ => false end.

(** a number inside a template literal *)
Definition numText (n : optnum) : str :=
  match n with
  | Num z => Z_toString z
  | NumNull => txt "null"
  | NumUndefined => txt "undefined"
  end.

(** getColumnLength, on the length and the type of the column it is given *)
Definition getColumnLength (length : str) (type : ColumnType) : str :=
  if nonEmpty length then length
  else match type with
       | TString => txt "255"
       | TName n =>
           if bool_decide (n = txt "string") then txt "255"
           else if bool_decide (n = txt "bytes") then txt "255"
           else []
       | _ => []
       end.

(** createFullType; [isArray] is the field of that name of the column,
    which the record of the live columns does not carry *)
Definition createFullType (column : TableColumn.t) (isArray : bool) : str :=
  let type := TableColumn.type column in
  let length :=
    getColumnLength (TableColumn.length column) (TName (TableColumn.type column)) in
  let type :=
    if nonEmpty length then type ++ txt "(" ++ length ++ txt ")"
    else if numTruthy (TableColumn.width column) then
      type ++ txt "(" ++ numText (TableColumn.width column) ++ txt ")"
    else if numPresent (TableColumn.precision column)
            && numPresent (TableColumn.scale column) then
      type ++ txt "(" ++ numText (TableColumn.precision column) ++ txt ","
      ++ numText (TableColumn.scale column) ++ txt ")"
    else if numPresent (TableColumn.precision column) then
      type ++ txt "(" ++ numText (TableColumn.precision column) ++ txt ")"
    else type in
  if isArray then txt "Array<" ++ type ++ txt ">" else type.

(** createParameter: the index is not used *)
Definition createParameter (parameterName : str) (index : nat) : str :=
  txt "@" ++ parameterName.

End FullType.
Export FullType.

(* ===================================================================== *)
(** ** Values written to and read from the database *)

Module Values.

(** a value transformer of a column *)
Record ValueTransformer : Type := MakeTransformer {
  to : value -> value;
  from : value -> value
}.

(** what the two functions give: a value, or the error
    DataTypeNotSupportedError with the type of the column *)
Inductive prepared : Type :=
| Prepared (v : value)
| DataTypeNotSupported (type : ColumnType).

(** [v === null || v === undefined] *)
Definition nullish (v : value) : bool :=
  match v with VNull | VUndefined => true | _ => false end.

(** the types whose values are dates: "timestamp", "date" and Date *)
Definition isDateType (type : ColumnType) : bool :=
  match type with
  | TDate => true
  | TName n => bool_decide (n = txt "timestamp") || bool_decide (n = txt "date")
  | _ => false
  end.

(** the types whose values are kept as they are: "int64", "float64",
    "bool", "string", the constructors named String and Number, "bytes" *)
Definition isPlainType (type : ColumnType) : bool :=
  match type with
  | TString | TNumber => true
  | TName n =>
      bool_decide (n = txt "int64") || bool_decide (n = txt "float64")
      || bool_decide (n = txt "bool") || bool_decide (n = txt "string")
      || bool_decide (n = txt "bytes")
  | _ => false
  end.

(** preparePersistentValue; [mixedDateToDate] stands for
    DateUtils.mixedDateToDate, which is not part of the sources *)
Definition preparePersistentValue (mixedDateToDate : value -> value)
    (value : value) (transformer : option ValueTransformer)
    (type : ColumnType) : prepared :=
  let value :=
    match transformer with
    | Some t => to t value
    | None => value
    end in
  if nullish value then Prepared value
  else if isDateType type then Prepared (mixedDateToDate value)
  else if isPlainType type then Prepared value
  else DataTypeNotSupported type.

(** prepareHydratedValue *)
Definition prepareHydratedValue (mixedDateToDate : value -> value)
    (value : value) (transformer : option ValueTransformer)
    (type : ColumnType) : prepared :=
  if nullish value then Prepared value
  else
    let converted :=
      if isDateType type then Prepared (mixedDateToDate value)
      else if isPlainType type then Prepared value
      else DataTypeNotSupported type in
    match converted with
    | Prepared value =>
        match transformer with
        | Some t => Prepared (from t value)
        | None => Prepared value
        end
    | DataTypeNotSupported t => DataTypeNotSupported t
    end.

End Values.
Export Values.

(* ===================================================================== *)
(** * The vocabulary of the properties *)

(** ** The schema differ *)

(** a live column, a desired column that agrees with it, and a desired
    column that is not in the table *)
Definition liveId : TableColumn.t :=
  TableColumn.Make (txt "id") (txt "int64") (txt "1") NumUndefined NumUndefined
    NumUndefined false false None None (Some (txt "x")) None true false false
    false None.

Definition desiredId : ColumnMetadata.t :=
  ColumnMetadata.Make 0 [] (txt "id") TNumber (txt "1") NumUndefined NumUndefined
    NumUndefined false false None None (DString (txt "x")) false None true false
    false None.

Definition desiredNew : ColumnMetadata.t :=
  ColumnMetadata.Make 1 [] (txt "created") TDate [] NumUndefined NumUndefined
    NumUndefined false false None None DUndefined false None false true
    false None.

(** ** The DDL parser *)

(** the statement of the scenario and its two columns *)
Definition scenarioDdl : str :=
  txt "CREATE TABLE t (id INT64 NOT NULL, name STRING(255),) PRIMARY KEY(id)".

Definition scenarioId : TableColumnOptions.t :=
  TableColumnOptions.Make (txt "id") (txt "int64") false false true false false
    (txt "1") None None.

Definition scenarioName : TableColumnOptions.t :=
  TableColumnOptions.Make (txt "name") (txt "string") true false false false false
    (txt "255") None None.

(** the statement in the comment of parseSchema, on its five lines *)
Definition migrationsDdl : str :=
  txt "CREATE TABLE migrations (" ++ ["010"%char]
  ++ txt "  id INT64 NOT NULL," ++ ["010"%char]
  ++ txt "  timestamp TIMESTAMP NOT NULL," ++ ["010"%char]
  ++ txt "  name STRING(255) NOT NULL," ++ ["010"%char]
  ++ txt ") PRIMARY KEY(id)".

(** ** The matcher *)

(** [st'] is [st] after some more input has been read *)
Definition extends (st st' : mstate) : Prop :=
  exists x, after st = x ++ after st' /\ before st' = rev x ++ before st.

(** greedy repetition of one character class, as a recursion over the
    input *)
Fixpoint star_chr (p : ascii -> bool) (k : cont) (b a : str)
    (cs : list (nat * str)) : option mstate :=
  match a with
  | c :: a' =>
      if p c then orelse (star_chr p k (c :: b) a' cs) (k (MState b a cs))
      else k (MState b a cs)
  | [] => k (MState b a cs)
  end.

(** ** parseTypeName and parseSchema *)

(** a type token without an opening parenthesis *)
Definition no_paren (typeName : str) : Prop :=
  Forall (fun c => c <> "("%char) typeName.

(** a column fragment that is not of the shape name, type, rest *)
Definition malformedColumn (columnStmt : str) : Prop :=
  re_match column_re columnStmt = None.

(** a clause of the trailer that begins with INTERLEAVE and has the
    interleave form *)
Definition interleaveClause (idxStmt : str) : Prop :=
  indexOf idxStmt (txt "INTERLEAVE") = 0%Z
  /\ is_Some (re_match interleave_re idxStmt).

(** a CREATE TABLE statement with a malformed column fragment or with an
    interleave clause *)
Definition fatalStatement (stmt : str) : Prop :=
  exists m,
    re_match create_table_re stmt = Some m
    /\ (Exists malformedColumn (split_on "," (grp 2 m))
        \/ exists indexStmts,
             m_group 3 m = Some indexStmts
             /\ Exists interleaveClause (re_match_all index_clause_re indexStmts)).

(** the call throws *)
Definition throws {A : Type} (r : result A) : Prop := exists e, r = Throw e.

(** a statement with an interleave construct after the primary key, no
    comma between them *)
Definition unnoticedInterleaveDdl : str :=
  txt "CREATE TABLE t (id INT64 NOT NULL,) PRIMARY KEY(id) INTERLEAVE IN PARENT p(id)".

(** a statement with an interleave clause after a comma *)
Definition interleavedDdl : str :=
  txt "CREATE TABLE c (id INT64 NOT NULL,) PRIMARY KEY(id), INTERLEAVE IN PARENT parent(id)".

(** a statement that is not a CREATE TABLE statement *)
Definition indexOnlyDdl : str := txt "CREATE UNIQUE INDEX byName ON t(name)".

(** ** compareDefaultValues *)

Definition is_quote : ascii -> bool := is_char "'".

(** cut the run of quotes at the end *)
Fixpoint strip_trailing (s : str) : str :=
  match s with
  | [] => []
  | c :: s' => if forallb is_quote s then [] else c :: strip_trailing s'
  end.

(** cut the run of quotes at the start and the run at the end *)
Definition strip_quotes (s : str) : str :=
  strip_trailing (drop_while is_quote s).

(** one layer of quotes, in the words of the specification: one quote at
    the start and one at the end, where present *)
Definition strip_leading_one (s : str) : str :=
  match s with
  | c :: s' => if is_quote c then s' else s
  | [] => []
  end.

Definition strip_trailing_one (s : str) : str :=
  rev (strip_leading_one (rev s)).

Definition strip_one_layer (s : str) : str :=
  strip_trailing_one (strip_leading_one s).

(** two defaults, equal up to the quotes around them *)
Definition sameDefault (wanted live : option str) : Prop :=
  match wanted, live with
  | Some m, Some v => strip_quotes m = strip_quotes v
  | None, None => True
  | _, _ => False
  end.

(** the attributes findChangedColumns compares, all equal, the default up
    to its quotes *)
Definition sameColumn (c : TableColumn.t) (d : ColumnMetadata.t) : Prop :=
  TableColumn.type c = normalizeType d
  /\ TableColumn.length c = ColumnMetadata.length d
  /\ TableColumn.width c = ColumnMetadata.width d
  /\ TableColumn.precision c = ColumnMetadata.precision d
  /\ TableColumn.scale c = ColumnMetadata.scale d
  /\ TableColumn.zerofill c = ColumnMetadata.zerofill d
  /\ TableColumn.unsigned c = ColumnMetadata.unsigned d
  /\ TableColumn.asExpression c = ColumnMetadata.asExpression d
  /\ TableColumn.generatedType c = ColumnMetadata.generatedType d
  /\ sameDefault (normalizeDefault d) (TableColumn.default c)
  /\ TableColumn.onUpdate c = ColumnMetadata.onUpdate d
  /\ TableColumn.isPrimary c = ColumnMetadata.isPrimary d
  /\ TableColumn.isNullable c = ColumnMetadata.isNullable d
  /\ TableColumn.isUnique c = normalizeIsUnique d
  /\ TableColumn.isGenerated c = ColumnMetadata.isGenerated d.

(** the end of the input, as the rest of a pattern *)
Definition eos_cont : cont := fun st => rmatch Eos st Some.

(** the replacement by the empty string *)
Definition cut : str -> str * list unit := fun _ => ([], []).

(** ** escapeQueryWithParameters *)

(** the text starts with a word character *)
Definition head_word (s : str) : bool :=
  match s with c :: _ => is_word c | [] => false end.

(** the text [q], then no word character *)
Definition then_boundary (q u : str) : bool :=
  match strip_prefix q u with
  | Some rest => negb (head_word rest)
  | None => false
  end.

(** what the alternative of the parameter [p] matches at the head of the
    text: the spread form before the plain form *)
Definition key_here (p a : str) : option str :=
  match a with
  | c :: a1 =>
      if is_char ":" c then
        if then_boundary (txt "..." ++ p) a1 then Some (txt ":..." ++ p)
        else if then_boundary p a1 then Some (txt ":" ++ p)
        else None
      else None
  | [] => None
  end.

(** the alternatives in the order of the parameters *)
Fixpoint keys_here (ps : list str) (a : str) : option str :=
  match ps with
  | [] => None
  | p :: ps' =>
      match key_here p a with
      | Some t => Some t
      | None => keys_here ps' a
      end
  end.

(** a parameter name made of word characters *)
Definition identifier (p : str) : Prop :=
  p <> [] /\ Forall (fun c => is_word c = true) p.

(** [replace_from] for a pattern whose match at a position is given by
    [g] on the text ahead *)
Fixpoint scan_replace {E : Type} (g : str -> option str)
    (f : str -> str * list E) (skip : nat) (a : str) : str * list E :=
  match skip with
  | S n =>
      match a with
      | [] => ([], [])
      | c :: a' => scan_replace g f n a'
      end
  | O =>
      match g a with
      | Some t =>
          let '(r, w) := f t in
          match a with
          | [] => (r, w)
          | c :: a' =>
              let '(o, w') := scan_replace g f (length t - 1) a' in
              match t with
              | [] => (r ++ c :: o, w ++ w')
              | _ :: _ => (r ++ o, w ++ w')
              end
          end
      | None =>
          match a with
          | [] => ([], [])
          | c :: a' => let '(o, w') := scan_replace g f 0 a' in (c :: o, w')
          end
      end
  end.

(** a word character or a dot: what a parameter token is made of after
    its colon *)
Definition word_or_dot (c : ascii) : bool := is_word c || is_char "." c.

(** the spread mark of a token, or none *)
Definition is_dots (dots : str) : Prop := dots = [] \/ dots = txt "...".

(** the occurrences of parameter tokens in a text, left to right: what
    the pattern of the declared names matches, and nothing when no name
    is declared *)
Definition parameterTokens (names : list str) (sql : str) : list str :=
  match names with
  | [] => []
  | _ :: _ => re_match_all (keys_re names) sql
  end.

(** a value that is pushed as it is: neither an array nor a function *)
Definition scalar (v : value) : Prop :=
  match v with
  | VArray _ | VFunction _ => False
  | _ => True
  end.

(** ** updateTableWithExtendSchema *)

(** a column with an entry of the extended schema laid over it, field
    by field: generated exactly when the entry has a generator, the
    default and the generation strategy of the entry, the rest of the
    column *)
Definition overlaySchema (columnSchema : ExtendColumnSchema.t) (c : TableColumn.t)
  : TableColumn.t :=
  TableColumn.Make
    (TableColumn.name c) (TableColumn.type c) (TableColumn.length c)
    (TableColumn.width c) (TableColumn.precision c) (TableColumn.scale c)
    (TableColumn.zerofill c) (TableColumn.unsigned c)
    (TableColumn.asExpression c) (TableColumn.generatedType c)
    (ExtendColumnSchema.default columnSchema)
    (TableColumn.onUpdate c) (TableColumn.isPrimary c)
    (TableColumn.isNullable c) (TableColumn.isUnique c)
    (match ExtendColumnSchema.generator columnSchema with
     | Some _ => true
     | None => false
     end)
    (ExtendColumnSchema.generatorStorategy columnSchema).

(** two columns that agree on every attribute but isGenerated, default
    and generationStrategy *)
Definition sameOtherwise (c c' : TableColumn.t) : Prop :=
  TableColumn.name c = TableColumn.name c'
  /\ TableColumn.type c = TableColumn.type c'
  /\ TableColumn.length c = TableColumn.length c'
  /\ TableColumn.width c = TableColumn.width c'
  /\ TableColumn.precision c = TableColumn.precision c'
  /\ TableColumn.scale c = TableColumn.scale c'
  /\ TableColumn.zerofill c = TableColumn.zerofill c'
  /\ TableColumn.unsigned c = TableColumn.unsigned c'
  /\ TableColumn.asExpression c = TableColumn.asExpression c'
  /\ TableColumn.generatedType c = TableColumn.generatedType c'
  /\ TableColumn.onUpdate c = TableColumn.onUpdate c'
  /\ TableColumn.isPrimary c = TableColumn.isPrimary c'
  /\ TableColumn.isNullable c = TableColumn.isNullable c'
  /\ TableColumn.isUnique c = TableColumn.isUnique c'.

(** the columns after the merge: the first column of each name takes the
    entry of its name, when there is one; [seen] holds the names of the
    columns before *)
Fixpoint mergedColumns (extendSchema : gmap str ExtendColumnSchema.t)
    (seen : list str) (columns : list TableColumn.t) : list TableColumn.t :=
  match columns with
  | [] => []
  | c :: cs =>
      (if bool_decide (TableColumn.name c ∈ seen) then c
       else match extendSchema !! TableColumn.name c with
            | Some columnSchema => overlaySchema columnSchema c
            | None => c
            end)
      :: mergedColumns extendSchema (TableColumn.name c :: seen) cs
  end.

(** a table after the merge *)
Definition mergedTable (extendSchemas : gmap str (gmap str ExtendColumnSchema.t))
    (tableName : str) (table : Table.t) : Table.t :=
  match extendSchemas !! tableName with
  | Some extendSchema =>
      Table.Make (Table.name table)
        (mergedColumns extendSchema [] (Table.columns table))
  | None => table
  end.

(** an entry of the extended schema without its column in the table *)
Definition missingEntry (tables : gmap str Table.t)
    (extendSchemas : gmap str (gmap str ExtendColumnSchema.t))
    (columnName : str) : Prop :=
  exists tableName table extendSchema columnSchema,
    tables !! tableName = Some table
    /\ extendSchemas !! tableName = Some extendSchema
    /\ extendSchema !! columnName = Some columnSchema
    /\ Table.findColumnByName columnName table = None.

(** the messages for the entries of an extended schema without their
    column in the table, and for all tables: one message for each such
    entry, in the order the maps list their entries *)
Definition missingIn (table : Table.t)
    (extendSchema : gmap str ExtendColumnSchema.t) : list str :=
  map_to_list extendSchema ≫= fun entry =>
    match Table.findColumnByName (fst entry) table with
    | Some _ => []
    | None => [missingColumnMessage (fst entry)]
    end.

Definition missingOf (extendSchemas : gmap str (gmap str ExtendColumnSchema.t))
    (tableName : str) (table : Table.t) : list str :=
  match extendSchemas !! tableName with
  | Some extendSchema => missingIn table extendSchema
  | None => []
  end.

Definition missingMessages (tables : gmap str Table.t)
    (extendSchemas : gmap str (gmap str ExtendColumnSchema.t)) : list str :=
  map_to_list tables ≫= fun entry => missingOf extendSchemas (fst entry) (snd entry).

(** the first column of a name *)
Definition findByName (n : str) (columns : list TableColumn.t) : option TableColumn.t :=
  find (fun c => bool_decide (TableColumn.name c = n)) columns.

(** a table with one column, and an extended schema with an entry for
    that column and an entry for a column the table does not have *)
Definition usersTable : Table.t :=
  Table.Make (txt "users")
    [ TableColumn.Make (txt "id") (txt "string") (txt "36") NumUndefined
        NumUndefined NumUndefined false false None None None None true false
        false false None ].

Definition usersExtendSchema : gmap str ExtendColumnSchema.t :=
  {[ txt "id" := ExtendColumnSchema.Make (Some GeneratorFn) None (Some (txt "uuid"));
     txt "gone" := ExtendColumnSchema.Make None (Some (txt "0")) None ]}.

(** ** The schema differ, in full *)

(** the attributes findChangedColumns compares, equal, the generated flag
    left aside when the desired strategy is uuid *)
Definition unchangedColumn (c : TableColumn.t) (d : ColumnMetadata.t) : Prop :=
  TableColumn.type c = normalizeType d
  /\ TableColumn.length c = ColumnMetadata.length d
  /\ TableColumn.width c = ColumnMetadata.width d
  /\ TableColumn.precision c = ColumnMetadata.precision d
  /\ TableColumn.scale c = ColumnMetadata.scale d
  /\ TableColumn.zerofill c = ColumnMetadata.zerofill d
  /\ TableColumn.unsigned c = ColumnMetadata.unsigned d
  /\ TableColumn.asExpression c = ColumnMetadata.asExpression d
  /\ TableColumn.generatedType c = ColumnMetadata.generatedType d
  /\ sameDefault (normalizeDefault d) (TableColumn.default c)
  /\ TableColumn.onUpdate c = ColumnMetadata.onUpdate d
  /\ TableColumn.isPrimary c = ColumnMetadata.isPrimary d
  /\ TableColumn.isNullable c = ColumnMetadata.isNullable d
  /\ TableColumn.isUnique c = normalizeIsUnique d
  /\ (ColumnMetadata.generationStrategy d = Some (txt "uuid")
      \/ TableColumn.isGenerated c = ColumnMetadata.isGenerated d).

(** the type names that normalizeType resolves to another name *)
Definition typeAliases : list str :=
  [txt "integer"; txt "nvarchar"; txt "simple-array"; txt "simple-json"].

(** a desired column of a type and nothing else *)
Definition columnOfType (type : ColumnType) : ColumnMetadata.t :=
  ColumnMetadata.Make 0 [] [] type [] NumUndefined NumUndefined NumUndefined
    false false None None DUndefined false None false false false None.

(** a desired column with a default and the update-date flag *)
Definition columnWithDefault (default : DefaultValue) (isUpdateDate : bool)
  : ColumnMetadata.t :=
  ColumnMetadata.Make 0 [] [] TString [] NumUndefined NumUndefined NumUndefined
    false false None None default isUpdateDate None false false false None.

(** ** Full types *)

(** a live column of a type and a length and nothing else *)
Definition typedColumn (type length : str) : TableColumn.t :=
  TableColumn.Make [] type length NumUndefined NumUndefined NumUndefined
    false false None None None None false false false false None.

(** a text of decimal digits *)
Definition digits_only (s : str) : Prop := Forall (fun c => is_digit c = true) s.

(** a text of word characters *)
Definition word_only (s : str) : Prop := Forall (fun c => is_word c = true) s.

(** the two patterns of parseTypeName have one shape: a run of a class,
    an opening character, a run of a second class, a closing character *)
Definition bracketed_re (p1 p2 : ascii -> bool) (o c : ascii) : regex :=
  seqs [ Group 1 (Plus (Chr p1)); lit [o]; Group 2 (Plus (Chr p2)); lit [c] ].

(** ** Values *)

(** the declared types that normalizeType resolves to a name
    preparePersistentValue and prepareHydratedValue accept, and that the
    two do not accept themselves *)
Definition unnormalizedTypes : list ColumnType :=
  [ TBoolean; TBuffer; TName (txt "integer"); TName (txt "nvarchar");
    TName (txt "simple-array"); TName (txt "simple-json") ].

(** a type the two functions convert *)
Definition supportedType (type : ColumnType) : bool :=
  isDateType type || isPlainType type.

(** a value after the to, and after the from, of the transformer of its
    column, when the column has one *)
Definition afterTo (transformer : option ValueTransformer) (v : value) : value :=
  match transformer with Some t => to t v | None => v end.

Definition afterFrom (transformer : option ValueTransformer) (v : value) : value :=
  match transformer with Some t => from t v | None => v end.

(** a transformer that stores a value in a one-element array *)
Definition boxing : ValueTransformer :=
  MakeTransformer
    (fun v => VArray [v])
    (fun v => match v with VArray [x] => x | _ => v end).

(** a transformer that stores null whatever the value *)
Definition nulling : ValueTransformer :=
  MakeTransformer (fun _ => VNull) (fun _ => VStr (txt "restored")).

(** ** The translator, further *)

(** a text without colon *)
Definition no_colon (sql : str) : Prop := Forall (fun c => is_char ":" c = false) sql.

(** the parameters of the examples: a number, a function and a list *)
Definition sampleParameters : ObjectLiteral :=
  [ (txt "id", VNum 7); (txt "now", VFunction (txt "CURRENT_TIMESTAMP()"));
    (txt "tags", VArray [VStr (txt "a"); VStr (txt "b")]) ].

(** parameters that are all scalars *)
Definition scalarParameters : ObjectLiteral :=
  [ (txt "id", VNum 7); (txt "name", VStr (txt "x")) ].

(** ** The merger, further *)

(** the tables and the console output of updateTableWithExtendSchema *)
Definition mergedTables (tables : gmap str Table.t)
    (extendSchemas : gmap str (gmap str ExtendColumnSchema.t)) : gmap str Table.t :=
  fst (fst (updateTableWithExtendSchema tables extendSchemas)).

Definition mergeLog (tables : gmap str Table.t)
    (extendSchemas : gmap str (gmap str ExtendColumnSchema.t)) : list str :=
  snd (fst (updateTableWithExtendSchema tables extendSchemas)).

(** ** The parser, statement by statement *)

(** what a statement adds to the table options: nothing, or a table
    under its name *)
Definition statementTable (stmt : str) : result (option (str * TableOptions.t)) :=
  match re_match create_table_re stmt with
  | None => Ok None
  | Some m =>
      cols ← for_of (split_on "," (grp 2 m)) parseColumn [];
      match m_group 3 m with
      | None => Ok None
      | Some indexStmts =>
          p ← for_of (re_match_all index_clause_re indexStmts) parseIndexStmt
                (TableParts cols [] []);
          Ok (Some (grp 1 m,
                    TableOptions.Make (grp 1 m) (Parser.columns p) (Parser.indices p)
                      [] (Parser.uniques p)))
      end
  end.

Definition contribute (r : option (str * TableOptions.t))
    (tableOptionsMap : gmap str TableOptions.t) : gmap str TableOptions.t :=
  match r with
  | Some (tableName, options) => <[ tableName := options ]> tableOptionsMap
  | None => tableOptionsMap
  end.

(** a statement that gives a table of this name *)
Definition declares (tableName : str) (stmt : str) : Prop :=
  exists options, statementTable stmt = Ok (Some (tableName, options)).

(** a schema without a table named __proto__, the one name under which
    the plain object of the source keeps no table *)
Definition protoFree (ddlStatements : list str) : Prop :=
  Forall (fun s => ~ declares (txt "__proto__") s) ddlStatements.

(** what parseSchema leaves to updateTableWithExtendSchema, and the type
    name in lower case *)
Definition parsedColumn (c : TableColumnOptions.t) : Prop :=
  TableColumnOptions.isGenerated c = false
  /\ TableColumnOptions.default c = None
  /\ TableColumnOptions.generationStrategy c = None
  /\ toLowerCase (TableColumnOptions.type c) = TableColumnOptions.type c.

(** a column without the marks of the index clauses *)
Definition unflagged (c : TableColumnOptions.t) : TableColumnOptions.t :=
  TableColumnOptions.set_isPrimary false (TableColumnOptions.set_isUnique false c).

(** the unique constraint of an index *)
Definition uniqueOf (i : TableIndexOptions.t) : TableUniqueOptions.t :=
  TableUniqueOptions.Make (TableIndexOptions.name i) (TableIndexOptions.columnNames i).

(** the parts of a table while its clauses are read *)
Definition goodParts (p : tableParts) : Prop :=
  Forall parsedColumn (columns p)
  /\ uniques p
     = map uniqueOf (filter (fun i => TableIndexOptions.isUnique i = true) (indices p)).

(** a text without comma, a text without white space *)
Definition no_comma (s : str) : Prop := Forall (fun c => c <> ","%char) s.
Definition no_space (s : str) : Prop := Forall (fun c => is_space c = false) s.

(** a single-column table without any comma, and a table declared
    twice *)
Definition commalessDdl : str := txt "CREATE TABLE t (id INT64 NOT NULL) PRIMARY KEY(id)".
Definition firstDdl : str := txt "CREATE TABLE t (a INT64,) PRIMARY KEY(a)".
Definition secondDdl : str := txt "CREATE TABLE t (b STRING(10),) PRIMARY KEY(b)".
Definition secondTable : TableOptions.t :=
  TableOptions.Make (txt "t")
    [ TableColumnOptions.Make (txt "b") (txt "string") true false true false false
        (txt "10") None None ] [] [] [].

(** a column after a clause of the trailer: the same apart from the
    marks, and no mark taken away *)
Definition raised (c c' : TableColumnOptions.t) : Prop :=
  unflagged c = unflagged c'
  /\ (TableColumnOptions.isPrimary c = true -> TableColumnOptions.isPrimary c' = true)
  /\ (TableColumnOptions.isUnique c = true -> TableColumnOptions.isUnique c' = true).

(** the parts of a table with one column, for the examples *)
Definition sampleParts : tableParts :=
  TableParts
    [ TableColumnOptions.Make (txt "id") (txt "int64") false false false false false
        (txt "1") None None ] [] [].

(* ===================================================================== *)
(** * Properties *)

(** ** The DDL parser: the scenario of the specification *)

Section ParserScenario.

(** C1: the statement of the scenario parses to one table, keyed "t",
    with the column id (int64, not nullable, primary) and the column name
    (string, length 255, nullable, not primary). *)
Theorem parseSchema_scenario :
  parseSchema [scenarioDdl]
  = Ok {[ txt "t" :=
          TableOptions.Make (txt "t") [scenarioId; scenarioName] [] [] [] ]}.
Proof. vm_compute. reflexivity. Qed.

(** the example in the comment of parseSchema *)
Example parseSchema_migrations :
  parseSchema [migrationsDdl]
  = Ok {[ txt "migrations" :=
          TableOptions.Make (txt "migrations")
            [ TableColumnOptions.Make (txt "id") (txt "int64") false false true
                false false (txt "1") None None;
              TableColumnOptions.Make (txt "timestamp") (txt "timestamp") false
                false false false false (txt "1") None None;
              TableColumnOptions.Make (txt "name") (txt "string") false false
                false false false (txt "255") None None ]
            [] [] [] ]}.
Proof. vm_compute. reflexivity. Qed.

End ParserScenario.

(* ===================================================================== *)
(** ** The matcher: general facts *)

Section MatcherFacts.

Lemma extends_refl st : extends st st.
Proof. by exists []. Qed.

Lemma extends_trans st1 st2 st3 :
  extends st1 st2 -> extends st2 st3 -> extends st1 st3.
Proof.
  intros (x & Ha & Hb) (y & Ha' & Hb'). exists (x ++ y). split.
  - by rewrite Ha, Ha', app_assoc.
  - by rewrite Hb', Hb, rev_app_distr, app_assoc.
Qed.

Lemma extends_advance c rest st :
  after st = c :: rest -> extends st (advance c rest st).
Proof. intros Ha. exists [c]. by rewrite Ha. Qed.

Lemma extends_set_cap st st' n s :
  extends st st' -> extends st (set_cap n s st').
Proof. intros (x & Ha & Hb). by exists x. Qed.

Lemma orelse_Some a b res :
  orelse a b = Some res -> a = Some res \/ (a = None /\ b = Some res).
Proof. destruct a; simpl; [left|right]; auto. Qed.

(** a repetition succeeds only through its continuation, at a state
    further on, when that holds of its body *)
Lemma star_loop_inv body k :
  (forall st k' res, body st k' = Some res ->
     exists st', extends st st' /\ k' st' = Some res) ->
  forall n st res, star_loop body k n st = Some res ->
    exists st', extends st st' /\ k st' = Some res.
Proof.
  intros Hbody. induction n as [|n IH]; intros st res; simpl.
  - intros Hk. exists st. split; [apply extends_refl|done].
  - intros Ho. apply orelse_Some in Ho as [Hb|[_ Hk]].
    + apply Hbody in Hb as (st1 & He1 & Hk1).
      destruct (progressed st st1); [|done].
      apply IH in Hk1 as (st2 & He2 & Hk2).
      exists st2. split; [by eapply extends_trans|done].
    + exists st. split; [apply extends_refl|done].
Qed.

Lemma lazy_loop_inv body k :
  (forall st k' res, body st k' = Some res ->
     exists st', extends st st' /\ k' st' = Some res) ->
  forall n st res, lazy_loop body k n st = Some res ->
    exists st', extends st st' /\ k st' = Some res.
Proof.
  intros Hbody. induction n as [|n IH]; intros st res; simpl.
  - intros Hk. exists st. split; [apply extends_refl|done].
  - intros Ho. apply orelse_Some in Ho as [Hk|[_ Hb]].
    + exists st. split; [apply extends_refl|done].
    + apply Hbody in Hb as (st1 & He1 & Hk1).
      destruct (progressed st st1); [|done].
      apply IH in Hk1 as (st2 & He2 & Hk2).
      exists st2. split; [by eapply extends_trans|done].
Qed.

(** Every successful match ends in its continuation, called at a state
    further on in the input. *)
Lemma rmatch_inv r :
  forall st k res, rmatch r st k = Some res ->
    exists st', extends st st' /\ k st' = Some res.
Proof.
  induction r as [|p|r1 IH1 r2 IH2|r1 IH1 r2 IH2|r1 IH1|r1 IH1|n r1 IH1|r1 IH1| | |];
    intros st k res; simpl.
  - intros Hk. exists st. split; [apply extends_refl|done].
  - destruct (after st) as [|c rest] eqn:Ha; [done|].
    destruct (p c); [|done]. intros Hk.
    exists (advance c rest st). split; [by apply extends_advance|done].
  - intros H1. apply IH1 in H1 as (st1 & He1 & H2).
    apply IH2 in H2 as (st2 & He2 & Hk).
    exists st2. split; [by eapply extends_trans|done].
  - intros Ho. apply orelse_Some in Ho as [H|[_ H]]; [by apply IH1|by apply IH2].
  - apply star_loop_inv. exact IH1.
  - apply lazy_loop_inv. exact IH1.
  - intros H1. apply IH1 in H1 as (st1 & He1 & Hk).
    eexists. split; [|exact Hk]. by apply extends_set_cap.
  - destruct (rmatch r1 st Some) as [st1|]; [|done]. intros Hk.
    eexists. split; [|exact Hk]. by exists [].
  - destruct (xorb _ _); [|done]. intros Hk.
    exists st. split; [apply extends_refl|done].
  - destruct (before st); [|done]. intros Hk.
    exists st. split; [apply extends_refl|done].
  - destruct (after st); [|done]. intros Hk.
    exists st. split; [apply extends_refl|done].
Qed.

(** a literal is matched exactly when it is a prefix of the input *)
Lemma rmatch_lit s : forall st k,
  rmatch (lit s) st k =
  match strip_prefix s (after st) with
  | Some rest => k (MState (rev s ++ before st) rest (caps st))
  | None => None
  end.
Proof.
  induction s as [|x s IH]; intros [b a cs] k; simpl.
  - done.
  - destruct a as [|c a]; [done|]. unfold is_char.
    destruct (Ascii.eqb x c) eqn:Hx; [|done].
    apply Ascii.eqb_eq in Hx. subst c.
    rewrite IH. simpl. by rewrite <- app_assoc.
Qed.

Lemma star_loop_chr p k : forall a n b cs,
  length a <= n ->
  star_loop (rmatch (Chr p)) k n (MState b a cs) = star_chr p k b a cs.
Proof.
  induction a as [|c a IH]; intros n b cs Hn.
  - destruct n; done.
  - destruct n as [|n]; [simpl in Hn; lia|]. simpl.
    destruct (p c); [|done].
    unfold progressed. simpl.
    destruct (Nat.ltb_spec (length a) (S (length a))); [|lia].
    unfold advance. simpl. rewrite IH by (simpl in Hn; lia). done.
Qed.

(** the repetition takes the whole run when the rest of the pattern
    accepts that *)
Lemma star_chr_all p k x : forall b a cs res,
  Forall (fun c => p c = true) x ->
  match a with c :: _ => p c = false | [] => True end ->
  k (MState (rev x ++ b) a cs) = Some res ->
  star_chr p k b (x ++ a) cs = Some res.
Proof.
  induction x as [|c x IH]; intros b a cs res Hall Hstop Hk; simpl.
  - destruct a as [|c a]; simpl; [done|]. by rewrite Hstop.
  - inversion Hall as [|? ? Hc Hx]; subst. rewrite Hc.
    rewrite (IH (c :: b) a cs res); [done|done|done|].
    simpl in Hk. by rewrite <- app_assoc in Hk.
Qed.

(** the text between two states *)
Lemma consumed_extends b a cs x st' :
  before st' = rev x ++ b -> consumed (MState b a cs) st' = x.
Proof.
  intros Hb. unfold consumed. simpl. rewrite Hb.
  rewrite length_app, length_rev.
  replace (length x + length b - length b) with (length (rev x)) by (rewrite length_rev; lia).
  rewrite firstn_app, Nat.sub_diag, firstn_all. simpl.
  rewrite app_nil_r. apply rev_involutive.
Qed.

End MatcherFacts.

(* ===================================================================== *)
(** ** parseTypeName: which type tokens carry a length *)

Section TypeNameFacts.

Lemma search_None_suffix (P : str -> Prop) r :
  (forall c a, P (c :: a) -> P a) ->
  (forall b a, P a -> match_here r b a = None) ->
  forall a b, P a -> search r b a = None.
Proof.
  intros Htl Hno. induction a as [|c a IH]; intros b HP; simpl.
  - by rewrite Hno.
  - rewrite Hno by done. apply IH. by eapply Htl.
Qed.

Lemma rmatch_plus_chr p b c a cs k :
  p c = true ->
  rmatch (Plus (Chr p)) (MState b (c :: a) cs) k = star_chr p k (c :: b) a cs.
Proof.
  intros Hc. unfold Plus. cbn [rmatch after]. rewrite Hc.
  unfold advance. cbn [before caps]. apply star_loop_chr. done.
Qed.

(** without an opening parenthesis the length pattern finds nothing *)
Lemma sized_type_no_paren typeName :
  no_paren typeName -> re_match sized_type_re typeName = None.
Proof.
  unfold re_match. apply (search_None_suffix no_paren).
  - intros c a H. by inversion H.
  - intros b a Hnp. unfold match_here.
    destruct (rmatch sized_type_re (MState b a []) Some) as [res|] eqn:Hm; [|done].
    exfalso. unfold sized_type_re in Hm. cbn [seqs fold_right rmatch] in Hm.
    apply rmatch_inv in Hm as (st1 & (x & Hx & _) & Hlit).
    unfold Lit in Hlit. rewrite rmatch_lit in Hlit.
    unfold set_cap in Hlit. cbn [after] in Hlit.
    destruct (after st1) as [|c rest] eqn:Ha; [done|].
    cbn [list_ascii_of_string strip_prefix] in Hlit.
    destruct (Ascii.eqb "(" c) eqn:Hc; [|done].
    apply Ascii.eqb_eq in Hc. subst c.
    cbn in Hx. subst a. unfold no_paren in Hnp.
    apply Forall_app in Hnp as [_ Hnp]. by inversion Hnp.
Qed.

Lemma not_char_true x c : c <> x -> not_char x c = true.
Proof.
  intros Hne. unfold not_char. apply negb_true_iff.
  apply Ascii.eqb_neq. congruence.
Qed.

(** the shape [type(length)]: a name without parenthesis, then digits
    between parentheses *)
Lemma sized_type_shape name digits :
  name <> [] -> no_paren name ->
  digits <> [] -> Forall (fun c => is_digit c = true) digits ->
  match_here sized_type_re [] (name ++ txt "(" ++ digits ++ txt ")")
  = Some (RMatched (name ++ txt "(" ++ digits ++ txt ")") [(2, digits); (1, name)]).
Proof.
  intros Hname Hnp Hdigits Hdig.
  destruct name as [|n0 name]; [done|]. destruct digits as [|d0 digits]; [done|].
  inversion Hnp as [|? ? Hn0 Hnp']; subst.
  inversion Hdig as [|? ? Hd0 Hdig']; subst.
  unfold match_here, sized_type_re.
  cbn [seqs fold_right rmatch app].
  rewrite rmatch_plus_chr by (by apply not_char_true).
  set (whole := n0 :: name ++ txt "(" ++ d0 :: digits ++ txt ")").
  set (final := MState (rev whole) [] [(2, d0 :: digits); (1, n0 :: name)]).
  rewrite (star_chr_all _ _ name [n0] _ [] final).
  - f_equal. f_equal. apply consumed_extends. simpl. by rewrite app_nil_r.
  - eapply Forall_impl; [exact Hnp'|]. intros c Hc. by apply not_char_true.
  - reflexivity.
  - rewrite (consumed_extends [] _ [] (n0 :: name)) by (simpl; by rewrite app_nil_r).
    unfold set_cap. cbn [before after caps].
    unfold Lit. rewrite rmatch_lit. cbn [after txt list_ascii_of_string strip_prefix app].
    rewrite Ascii.eqb_refl. cbn [before caps rev app].
    rewrite rmatch_plus_chr by done.
    rewrite (star_chr_all _ _ digits _ (txt ")") _ final).
    + done.
    + done.
    + reflexivity.
    + rewrite (consumed_extends _ _ _ (d0 :: digits)) by (simpl; by rewrite <- !app_assoc).
      unfold set_cap. cbn [before after caps].
      rewrite rmatch_lit. cbn. unfold final, whole. f_equal. f_equal.
      change (n0 :: name ++ txt "(" ++ d0 :: digits ++ txt ")")
        with ((n0 :: name) ++ ("("%char :: d0 :: digits) ++ [")"%char]).
      rewrite !rev_app_distr. simpl. by rewrite <- !app_assoc.
Qed.

Lemma parseColumn_length columnStmt cm columns :
  re_match column_re columnStmt = Some cm ->
  exists column,
    parseColumn columnStmt columns = Ok (columns ++ [column])
    /\ TableColumnOptions.length column
       = toString (ParsedType.length (parseTypeName (grp 2 cm))).
Proof.
  intros Hcm. unfold parseColumn. rewrite Hcm. eexists. split; reflexivity.
Qed.

(** the digits of a number below 2^53 are read exactly, and written
    back as its decimal text *)
Lemma Number_safe digits :
  (decimal digits < safe_bound)%N -> Number digits = Whole (decimal digits).
Proof.
  intros Hsafe. unfold Number, nearest_double.
  rewrite (proj2 (N.ltb_lt _ _) Hsafe).
  rewrite (proj2 (N.leb_gt _ _)); [done|].
  eapply N.lt_trans; [exact Hsafe|]. unfold safe_bound.
  apply N.pow_lt_mono_r; lia.
Qed.

Lemma toString_safe n :
  (n < safe_bound)%N -> toString (Whole n) = N_toString n.
Proof. intros Hsafe. unfold toString. by rewrite (proj2 (N.ltb_lt _ _) Hsafe). Qed.

(** the token [name(digits)] *)
Lemma parseTypeName_sized name digits :
  name <> [] -> no_paren name ->
  digits <> [] -> Forall (fun c => is_digit c = true) digits ->
  parseTypeName (name ++ txt "(" ++ digits ++ txt ")")
  = ParsedType.Make (toLowerCase name) false (Number digits).
Proof.
  intros Hname Hnp Hdigits Hdig.
  unfold parseTypeName, re_match.
  destruct name as [|n0 name]; [done|].
  cbn [search app].
  change (n0 :: name ++ txt "(" ++ digits ++ txt ")")
    with ((n0 :: name) ++ txt "(" ++ digits ++ txt ")").
  rewrite (sized_type_shape (n0 :: name) digits) by done.
  reflexivity.
Qed.

(** C10, as the code has it: a type token on which the length pattern
    finds nothing, as the bare and the array shapes without digits
    between parentheses, gets the length 1, never a default of its type,
    and so does the column parsed from it; a token of the shape
    type(length) gets the declared length when that length is below 2^53,
    and the column parsed from it has the lower-case type name and the
    decimal text of the declared length. *)
Theorem parseTypeName_length :
  (forall typeName,
     re_match sized_type_re typeName = None ->
     parseTypeName typeName
     = ParsedType.Make (toLowerCase typeName)
         (match re_match array_type_re typeName with
          | Some _ => true
          | None => false
          end) (Whole 1))
  /\ (forall typeName, no_paren typeName -> re_match sized_type_re typeName = None)
  /\ (forall columnStmt cm columns,
        re_match column_re columnStmt = Some cm ->
        re_match sized_type_re (grp 2 cm) = None ->
        exists column,
          parseColumn columnStmt columns = Ok (columns ++ [column])
          /\ TableColumnOptions.length column = txt "1")
  /\ (forall name digits,
        name <> [] -> no_paren name ->
        digits <> [] -> Forall (fun c => is_digit c = true) digits ->
        (decimal digits < safe_bound)%N ->
        parseTypeName (name ++ txt "(" ++ digits ++ txt ")")
        = ParsedType.Make (toLowerCase name) false (Whole (decimal digits)))
  /\ (forall columnStmt cm columns name digits,
        re_match column_re columnStmt = Some cm ->
        grp 2 cm = name ++ txt "(" ++ digits ++ txt ")" ->
        name <> [] -> no_paren name ->
        digits <> [] -> Forall (fun c => is_digit c = true) digits ->
        (decimal digits < safe_bound)%N ->
        exists column,
          parseColumn columnStmt columns = Ok (columns ++ [column])
          /\ TableColumnOptions.type column = toLowerCase name
          /\ TableColumnOptions.isArray column = false
          /\ TableColumnOptions.length column = N_toString (decimal digits))
  /\ ParsedType.length (parseTypeName (txt "STRING")) = Whole 1.
Proof.
  split; [|split; [|split; [|split; [|split]]]].
  - intros typeName Hno. unfold parseTypeName. rewrite Hno.
    by destruct (re_match array_type_re typeName).
  - apply sized_type_no_paren.
  - intros columnStmt cm columns Hcm Hno.
    destruct (parseColumn_length columnStmt cm columns Hcm) as (column & Hp & Hl).
    exists column. split; [done|]. rewrite Hl.
    unfold parseTypeName. rewrite Hno.
    by destruct (re_match array_type_re (grp 2 cm)).
  - intros name digits Hname Hnp Hdigits Hdig Hsafe.
    rewrite parseTypeName_sized by done. by rewrite Number_safe.
  - intros columnStmt cm columns name digits Hcm Hg Hname Hnp Hdigits Hdig Hsafe.
    unfold parseColumn. rewrite Hcm, Hg. cbv zeta.
    rewrite parseTypeName_sized by done. rewrite Number_safe by done.
    eexists. split; [reflexivity|].
    cbn [TableColumnOptions.type TableColumnOptions.isArray
         TableColumnOptions.length ParsedType.typeName ParsedType.isArray
         ParsedType.length].
    split; [done|]. split; [done|]. by apply toString_safe.
  - vm_compute. reflexivity.
Qed.

Lemma parseTypeName_length_witness :
  parseTypeName (txt "ARRAY<INT64>")
  = ParsedType.Make (txt "array<int64>") true (Whole 1)
  /\ re_match sized_type_re (txt "STRING") = None
  /\ (exists column,
        parseColumn (txt "id INT64 NOT NULL") [] = Ok ([] ++ [column])
        /\ TableColumnOptions.length column = txt "1")
  /\ parseTypeName (txt "STRING" ++ txt "(" ++ txt "255" ++ txt ")")
     = ParsedType.Make (txt "string") false (Whole 255)
  /\ (exists column,
        parseColumn (txt "name STRING(255)") [] = Ok ([] ++ [column])
        /\ TableColumnOptions.type column = txt "string"
        /\ TableColumnOptions.isArray column = false
        /\ TableColumnOptions.length column = txt "255").
Proof.
  destruct parseTypeName_length as (Hone & Hbare & Hcol & Hsized & Hdesc & _).
  split; [|split; [|split; [|split]]].
  - apply (Hone (txt "ARRAY<INT64>")). vm_compute. reflexivity.
  - apply (Hbare (txt "STRING")). unfold no_paren.
    repeat constructor; vm_compute; discriminate.
  - eapply (Hcol (txt "id INT64 NOT NULL")); vm_compute; reflexivity.
  - apply (Hsized (txt "STRING") (txt "255")).
    + vm_compute. discriminate.
    + unfold no_paren. repeat constructor; vm_compute; discriminate.
    + vm_compute. discriminate.
    + repeat constructor.
    + vm_compute. reflexivity.
  - eapply (Hdesc (txt "name STRING(255)") _ [] (txt "STRING") (txt "255")).
    + vm_compute. reflexivity.
    + vm_compute. reflexivity.
    + vm_compute. discriminate.
    + unfold no_paren. repeat constructor; vm_compute; discriminate.
    + vm_compute. discriminate.
    + repeat constructor.
    + vm_compute. reflexivity.
Defined.

(** A declared length from 2^53 on is not what the column gets: Number
    rounds the digits to a double. *)
Lemma parseTypeName_length_rounded :
  decimal (txt "9007199254740993") = 9007199254740993%N
  /\ parseTypeName (txt "STRING(9007199254740993)")
     = ParsedType.Make (txt "string") false (Whole 9007199254740992)
  /\ parseColumn (txt "big STRING(9007199254740993)") []
     = Ok [ TableColumnOptions.Make (txt "big") (txt "string") true false false false
              false (txt "9007199254740992") None None ].
Proof. split; [|split]; vm_compute; reflexivity. Qed.

End TypeNameFacts.

(* ===================================================================== *)
(** ** parseSchema: what is skipped and what is fatal *)

Section ParserFacts.

Lemma throws_Ok {A : Type} (a : A) : ~ throws (Ok a).
Proof. by intros [e He]. Qed.

Lemma throws_Throw {A : Type} (e : error) : throws (@Throw A e).
Proof. by exists e. Qed.

(** a loop whose body throws on some elements, whatever the state: the
    loop throws when it meets one of them *)
Lemma for_of_throws {A S : Type} (P : A -> Prop) (body : A -> S -> result S) l :
  (forall x s, throws (body x s) <-> P x) ->
  forall s, throws (for_of l body s) <-> Exists P l.
Proof.
  intros Hbody. induction l as [|x l IH]; intros s; simpl.
  - split; [by intros [e He]|by intros H; inversion H].
  - destruct (body x s) as [s'|e] eqn:Hb; simpl.
    + rewrite IH. split; [by right|].
      intros H. inversion H as [? ? Hx|]; subst; [|done].
      apply Hbody with (s := s) in Hx. rewrite Hb in Hx.
      by apply throws_Ok in Hx.
    + split; [|intros; apply throws_Throw].
      intros _. left. apply (Hbody x s). rewrite Hb. apply throws_Throw.
Qed.

Lemma for_of_app {A S : Type} (body : A -> S -> result S) l1 l2 s :
  for_of (l1 ++ l2) body s = (s' ← for_of l1 body s; for_of l2 body s').
Proof.
  revert s. induction l1 as [|x l1 IH]; intros s; simpl.
  - done.
  - destruct (body x s) as [s'|e]; simpl; [apply IH|done].
Qed.

Lemma parseColumn_throws columnStmt columns :
  throws (parseColumn columnStmt columns) <-> malformedColumn columnStmt.
Proof.
  unfold parseColumn, malformedColumn.
  destruct (re_match column_re columnStmt).
  - split; [intros H; by apply throws_Ok in H|done].
  - split; [done|intros; apply throws_Throw].
Qed.

Lemma parseIndexStmt_throws idxStmt p :
  throws (parseIndexStmt idxStmt p) <-> interleaveClause idxStmt.
Proof.
  unfold parseIndexStmt, interleaveClause.
  destruct (Z.eqb_spec (indexOf idxStmt (txt "INTERLEAVE")) 0) as [Hi|Hi].
  - destruct (re_match interleave_re idxStmt).
    + split; [by eauto|intros; apply throws_Throw].
    + split; [intros H; by apply throws_Ok in H|].
      intros [_ [x Hx]]. done.
  - split; [|by intros [? _]]. intros Ht. exfalso.
    destruct (indexOf idxStmt (txt "PRIMARY") =? 0)%Z.
    + destruct (re_match primary_key_re idxStmt); by apply throws_Ok in Ht.
    + destruct (re_match index_re idxStmt) as [im|]; [|by apply throws_Ok in Ht].
      cbv zeta in Ht.
      destruct (TableIndexOptions.isUnique _); by apply throws_Ok in Ht.
Qed.

Lemma parseStatement_throws stmt tableOptionsMap :
  throws (parseStatement stmt tableOptionsMap) <-> fatalStatement stmt.
Proof.
  unfold parseStatement, fatalStatement.
  destruct (re_match create_table_re stmt) as [m|].
  2:{ split; [intros H; by apply throws_Ok in H|by intros (m & ? & _)]. }
  cbv zeta.
  pose proof (for_of_throws malformedColumn parseColumn (split_on "," (grp 2 m))
                parseColumn_throws []) as Hcols.
  destruct (for_of (split_on "," (grp 2 m)) parseColumn []) as [columns|e]; simpl.
  - assert (~ Exists malformedColumn (split_on "," (grp 2 m))) as Hnc.
    { intros H. apply Hcols in H. by apply throws_Ok in H. }
    destruct (m_group 3 m) as [indexStmts|] eqn:Hg3.
    + pose proof (for_of_throws interleaveClause parseIndexStmt
                    (re_match_all index_clause_re indexStmts)
                    parseIndexStmt_throws (TableParts columns [] [])) as Hidx.
      destruct (for_of (re_match_all index_clause_re indexStmts) parseIndexStmt _)
        as [p|e]; simpl.
      * split; [intros H; by apply throws_Ok in H|].
        intros (m' & [= <-] & [H|(i & Hi & H)]); [done|].
        rewrite Hg3 in Hi. injection Hi as <-.
        apply Hidx in H. by apply throws_Ok in H.
      * split; [|intros; apply throws_Throw]. intros _.
        exists m. split; [done|]. right. exists indexStmts. split; [done|].
        apply Hidx. apply throws_Throw.
    + split; [intros H; by apply throws_Ok in H|].
      intros (m' & [= <-] & [H|(i & Hi & _)]); [done|congruence].
  - split; [|intros; apply throws_Throw]. intros _.
    exists m. split; [done|]. left. apply Hcols. apply throws_Throw.
Qed.

Lemma parseStatement_skip stmt tableOptionsMap :
  re_match create_table_re stmt = None ->
  parseStatement stmt tableOptionsMap = Ok tableOptionsMap.
Proof. intros Hno. unfold parseStatement. by rewrite Hno. Qed.

(** C2, as the code has it: a statement that is not of the CREATE TABLE
    shape is passed over without an error, and parseSchema throws exactly
    when one of the statements is a CREATE TABLE statement with a column
    fragment that is not of the shape name, type, rest, or with a trailer
    clause that begins with INTERLEAVE and has the interleave form. *)
Theorem parseSchema_fatal ddlStatements :
  (forall before stmt after,
     ddlStatements = before ++ stmt :: after ->
     re_match create_table_re stmt = None ->
     ~ fatalStatement stmt
     /\ parseSchema ddlStatements = parseSchema (before ++ after))
  /\ (throws (parseSchema ddlStatements) <-> Exists fatalStatement ddlStatements).
Proof.
  split.
  - intros pre stmt post -> Hno. split.
    + intros (m & Hm & _). congruence.
    + unfold parseSchema. rewrite !for_of_app. simpl.
      destruct (for_of pre parseStatement ∅) as [tables|e]; simpl; [|done].
      by rewrite (parseStatement_skip stmt tables Hno).
  - unfold parseSchema. apply for_of_throws. apply parseStatement_throws.
Qed.

(** The trailer of this statement contains an interleave construct, yet
    parseSchema returns the table: the construct is not at the start of a
    clause. *)
Lemma parseSchema_interleave_unnoticed :
  (exists m indexStmts,
     re_match create_table_re unnoticedInterleaveDdl = Some m
     /\ m_group 3 m = Some indexStmts
     /\ is_Some (re_match interleave_re indexStmts))
  /\ parseSchema [unnoticedInterleaveDdl]
     = Ok {[ txt "t" :=
             TableOptions.Make (txt "t")
               [ TableColumnOptions.Make (txt "id") (txt "int64") false false
                   true false false (txt "1") None None ] [] [] [] ]}.
Proof.
  split.
  - eexists. eexists. split; [vm_compute; reflexivity|].
    split; [vm_compute; reflexivity|]. vm_compute. eexists. reflexivity.
  - vm_compute. reflexivity.
Qed.

Lemma parseSchema_fatal_witness :
  (~ fatalStatement indexOnlyDdl
   /\ parseSchema ([scenarioDdl] ++ indexOnlyDdl :: [])
      = parseSchema ([scenarioDdl] ++ []))
  /\ throws (parseSchema [txt "CREATE TABLE t (id,) PRIMARY KEY(id)"])
  /\ throws (parseSchema [interleavedDdl]).
Proof.
  split; [|split].
  - apply (proj1 (parseSchema_fatal ([scenarioDdl] ++ indexOnlyDdl :: []))
             [scenarioDdl] indexOnlyDdl []).
    + reflexivity.
    + vm_compute. reflexivity.
  - apply (proj2 (parseSchema_fatal [txt "CREATE TABLE t (id,) PRIMARY KEY(id)"])).
    left. eexists. split; [vm_compute; reflexivity|].
    left. left. vm_compute. reflexivity.
  - apply (proj2 (parseSchema_fatal [interleavedDdl])).
    left. eexists. split; [vm_compute; reflexivity|].
    right. eexists. split; [vm_compute; reflexivity|].
    apply Exists_exists. exists (txt "INTERLEAVE IN PARENT parent(id)"). split.
    + vm_compute. right. left.
    + split; [vm_compute; reflexivity|]. vm_compute. eexists. reflexivity.
Defined.

End ParserFacts.

(* ===================================================================== *)
(** ** compareDefaultValues: which quotes are cut *)

Section QuoteFacts.

(** a run of quotes up to the end of the input *)
Lemma star_chr_eos : forall a b cs,
  star_chr is_quote eos_cont b a cs
  = if forallb is_quote a then Some (MState (rev a ++ b) [] cs) else None.
Proof.
  induction a as [|c a IH]; intros b cs; simpl.
  - done.
  - destruct (is_quote c); simpl; [|done].
    rewrite IH. destruct (forallb is_quote a); simpl; [|done].
    by rewrite <- app_assoc.
Qed.

(** a run of quotes, as long as it goes *)
Lemma star_chr_run : forall a b cs,
  star_chr is_quote Some b a cs
  = Some (MState (rev (take_while is_quote a) ++ b) (drop_while is_quote a) cs).
Proof.
  induction a as [|c a IH]; intros b cs; simpl.
  - done.
  - destruct (is_quote c); simpl; [|done].
    rewrite IH. simpl. by rewrite <- app_assoc.
Qed.

(** the pattern inside the text: only a run of quotes that reaches the
    end matches *)
Lemma quotes_inside b0 b a :
  match_here quotes_re (b0 :: b) a
  = match a with
    | _ :: _ => if forallb is_quote a then Some (RMatched a []) else None
    | [] => None
    end.
Proof.
  unfold match_here, quotes_re. cbn [rmatch before orelse].
  destruct a as [|c a]; [done|].
  cbn [forallb]. fold is_quote.
  destruct (is_quote c) eqn:Hc.
  - rewrite rmatch_plus_chr by done.
    change (fun st' : mstate => rmatch Eos st' (fun st'0 => Some st'0)) with eos_cont.
    rewrite star_chr_eos. simpl.
    destruct (forallb is_quote a); [|done].
    f_equal. f_equal. apply consumed_extends. simpl. by rewrite <- app_assoc.
  - unfold Plus. cbn [rmatch after]. fold is_quote. by rewrite Hc.
Qed.

(** the pattern at the start of the text: the leading run of quotes *)
Lemma quotes_at_start a :
  match_here quotes_re [] a
  = match a with
    | c :: a' =>
        if is_quote c then Some (RMatched (c :: take_while is_quote a') [])
        else None
    | [] => None
    end.
Proof.
  unfold match_here, quotes_re. cbn [rmatch before orelse].
  destruct a as [|c a]; [done|].
  destruct (is_quote c) eqn:Hc.
  - rewrite rmatch_plus_chr by done. fold is_quote.
    rewrite star_chr_run. simpl. f_equal. f_equal.
    apply consumed_extends. simpl. by rewrite <- app_assoc, app_nil_r.
  - unfold Plus. cbn [rmatch after]. fold is_quote. by rewrite Hc.
Qed.

(** passing over the rest of a match *)
Lemma replace_from_skip {E : Type} r (f : str -> str * list E) x : forall b a,
  replace_from r f (length x) b (x ++ a) = replace_from r f 0 (rev x ++ b) a.
Proof.
  induction x as [|c x IH]; intros b a; simpl.
  - done.
  - rewrite IH. by rewrite <- app_assoc.
Qed.

Lemma cut_inside : forall a b0 b,
  replace_from quotes_re cut 0 (b0 :: b) a = (strip_trailing a, []).
Proof.
  induction a as [|c a IH]; intros b0 b.
  - cbn [replace_from]. by rewrite quotes_inside.
  - cbn [replace_from]. rewrite quotes_inside.
    cbn [strip_trailing].
    destruct (forallb is_quote (c :: a)).
    + cbn [cut m_text length].
      replace (S (length a) - 1) with (length a) by lia.
      rewrite <- (app_nil_r a) at 2. rewrite replace_from_skip.
      cbn [replace_from].
      destruct (rev a ++ c :: b0 :: b) as [|y ys] eqn:Hy.
      { apply app_eq_nil in Hy as [_ Hy]. done. }
      by rewrite quotes_inside.
    + by rewrite IH.
Qed.

Lemma take_drop_while p (s : str) : take_while p s ++ drop_while p s = s.
Proof.
  induction s as [|c s IH]; simpl; [done|].
  destruct (p c); simpl; [by rewrite IH|done].
Qed.

Lemma strip_trailing_head c s :
  is_quote c = false -> strip_trailing (c :: s) = c :: strip_trailing s.
Proof. intros Hc. simpl. by rewrite Hc. Qed.

(** cutQuotes removes the two runs *)
Lemma cutQuotes_strip s : cutQuotes s = strip_quotes s.
Proof.
  unfold cutQuotes, re_replace_all, strip_quotes. fold cut.
  destruct s as [|c s]; cbn [replace_from].
  - by rewrite quotes_at_start.
  - rewrite quotes_at_start. cbn [drop_while].
    destruct (is_quote c) eqn:Hc.
    + cbn [cut m_text length].
      replace (S (length (take_while is_quote s)) - 1)
        with (length (take_while is_quote s)) by lia.
      rewrite <- (take_drop_while is_quote s) at 2.
      rewrite replace_from_skip.
      destruct (rev (take_while is_quote s) ++ [c]) as [|y ys] eqn:Hy.
      { apply app_eq_nil in Hy as [_ Hy]. done. }
      by rewrite cut_inside.
    + rewrite cut_inside. by rewrite strip_trailing_head.
Qed.

Lemma drop_while_leading_one s :
  drop_while is_quote (strip_leading_one s) = drop_while is_quote s.
Proof.
  destruct s as [|c s]; simpl; [done|].
  destruct (is_quote c) eqn:Hc; simpl; [done|]. by rewrite Hc.
Qed.

Lemma forallb_snoc (s : str) c :
  forallb is_quote (s ++ [c]) = forallb is_quote s && is_quote c.
Proof. rewrite forallb_app. simpl. by rewrite andb_true_r. Qed.

Lemma strip_trailing_snoc s c :
  is_quote c = true -> strip_trailing (s ++ [c]) = strip_trailing s.
Proof.
  intros Hc. induction s as [|x s IH].
  - simpl. by rewrite Hc.
  - change ((x :: s) ++ [c]) with (x :: (s ++ [c])).
    cbn [strip_trailing]. rewrite IH.
    change (x :: s ++ [c]) with ((x :: s) ++ [c]).
    rewrite forallb_snoc, Hc, andb_true_r. done.
Qed.

Lemma drop_while_all s : forallb is_quote s = true -> drop_while is_quote s = [].
Proof.
  induction s as [|c s IH]; simpl; [done|].
  destruct (is_quote c); simpl; [exact IH|done].
Qed.

Lemma drop_while_snoc s c :
  drop_while is_quote (s ++ [c])
  = if forallb is_quote s then drop_while is_quote [c]
    else drop_while is_quote s ++ [c].
Proof.
  induction s as [|x s IH]; [done|].
  simpl. destruct (is_quote x); simpl; [exact IH|done].
Qed.

Lemma strip_trailing_one_snoc s c :
  strip_trailing_one (s ++ [c]) = if is_quote c then s else s ++ [c].
Proof.
  unfold strip_trailing_one. rewrite rev_app_distr. simpl.
  destruct (is_quote c).
  - apply rev_involutive.
  - simpl. by rewrite rev_involutive.
Qed.

Lemma strip_quotes_trailing_one s :
  strip_quotes (strip_trailing_one s) = strip_quotes s.
Proof.
  induction s as [|c s' _] using rev_ind; [done|].
  rewrite strip_trailing_one_snoc.
  destruct (is_quote c) eqn:Hc; [|done].
  unfold strip_quotes. rewrite drop_while_snoc.
  destruct (forallb is_quote s') eqn:Hall.
  - rewrite (drop_while_all s' Hall). simpl. by rewrite Hc.
  - by rewrite strip_trailing_snoc.
Qed.

Lemma strip_quotes_one_layer s : strip_quotes (strip_one_layer s) = strip_quotes s.
Proof.
  unfold strip_one_layer. rewrite strip_quotes_trailing_one.
  unfold strip_quotes. by rewrite drop_while_leading_one.
Qed.

(** C6, as the code has it: compareDefaultValues cuts the whole run of
    quotes at the start and at the end of both strings and compares what
    is left; two strings that agree after one layer of quotes is removed
    are therefore equal for it, whatever their quoting. *)
Theorem compareDefaultValues_quotes (a b : str) :
  compareDefaultValues (Some a) (Some b)
  = bool_decide (strip_quotes a = strip_quotes b)
  /\ (strip_one_layer a = strip_one_layer b ->
      compareDefaultValues (Some a) (Some b) = true).
Proof.
  assert (compareDefaultValues (Some a) (Some b)
          = bool_decide (strip_quotes a = strip_quotes b)) as Heq.
  { unfold compareDefaultValues. by rewrite !cutQuotes_strip. }
  split; [exact Heq|].
  intros Hone. rewrite Heq. apply bool_decide_eq_true.
  rewrite <- (strip_quotes_one_layer a), <- (strip_quotes_one_layer b).
  by rewrite Hone.
Qed.

Lemma compareDefaultValues_quotes_witness :
  compareDefaultValues (Some (txt "'now()'")) (Some (txt "now()"))
  = bool_decide (strip_quotes (txt "'now()'") = strip_quotes (txt "now()"))
  /\ compareDefaultValues (Some (txt "'now()'")) (Some (txt "now()")) = true.
Proof.
  destruct (compareDefaultValues_quotes (txt "'now()'") (txt "now()")) as [Heq Hone].
  split; [exact Heq|]. apply Hone. vm_compute. reflexivity.
Defined.

(** Two defaults that differ after one layer of quotes is removed, and
    that compareDefaultValues takes for equal: it cuts both layers of the
    first. *)
Lemma compareDefaultValues_two_layers :
  strip_one_layer (txt "''x''") <> strip_one_layer (txt "'x'")
  /\ cutQuotes (txt "''x''") <> strip_one_layer (txt "''x''")
  /\ compareDefaultValues (Some (txt "''x''")) (Some (txt "'x'")) = true.
Proof.
  split; [|split].
  - vm_compute. discriminate.
  - vm_compute. discriminate.
  - vm_compute. reflexivity.
Qed.

End QuoteFacts.

(* ===================================================================== *)
(** ** The schema differ: what is reported *)

Section DifferFacts.

Implicit Types (tableColumns : list TableColumn.t)
               (columnMetadatas : list ColumnMetadata.t)
               (c : TableColumn.t) (d : ColumnMetadata.t).

Lemma findTableColumn_None tableColumns d :
  (forall c, c ∈ tableColumns ->
             TableColumn.name c <> ColumnMetadata.databaseName d) ->
  findTableColumn tableColumns d = None.
Proof.
  unfold findTableColumn.
  induction tableColumns as [|c cs IH]; intros Hno; simpl; [done|].
  rewrite bool_decide_eq_false_2.
  - apply IH. intros c' Hc'. apply Hno. by right.
  - apply Hno. by left.
Qed.

Lemma findTableColumn_Some tableColumns d c :
  findTableColumn tableColumns d = Some c ->
  c ∈ tableColumns /\ TableColumn.name c = ColumnMetadata.databaseName d.
Proof.
  unfold findTableColumn.
  induction tableColumns as [|c' cs IH]; simpl; [done|].
  case_bool_decide as Hn.
  - intros [= <-]. split; [by left|done].
  - intros Hf. destruct (IH Hf) as [Hin Heq]. split; [by right|done].
Qed.

Lemma differs_false {A : Type} `{EqDecision A} (a b : A) :
  differs a b = false <-> a = b.
Proof.
  unfold differs. rewrite negb_false_iff. apply bool_decide_eq_true.
Qed.

Lemma compareDefaultValues_sameDefault (wanted live : option str) :
  compareDefaultValues wanted live = true <-> sameDefault wanted live.
Proof.
  unfold compareDefaultValues, sameDefault.
  destruct wanted as [m|], live as [v|].
  - rewrite !cutQuotes_strip. apply bool_decide_eq_true.
  - rewrite bool_decide_eq_false_2 by done. split; [done|intros []].
  - rewrite bool_decide_eq_false_2 by done. split; [done|intros []].
  - rewrite bool_decide_eq_true_2 by done. done.
Qed.

Lemma columnChanged_same c d :
  TableColumn.name c = ColumnMetadata.databaseName d ->
  sameColumn c d -> columnChanged c d = false.
Proof.
  intros Hname (Ht & Hl & Hw & Hp & Hs & Hz & Hu & Ha & Hg & Hd & Ho & Hpk & Hn & Hq & Hgen).
  apply compareDefaultValues_sameDefault in Hd.
  unfold columnChanged.
  rewrite (proj2 (differs_false _ _) Hname), (proj2 (differs_false _ _) Ht),
    (proj2 (differs_false _ _) Hl), (proj2 (differs_false _ _) Hw),
    (proj2 (differs_false _ _) Hp), (proj2 (differs_false _ _) Hs),
    (proj2 (differs_false _ _) Hz), (proj2 (differs_false _ _) Hu),
    (proj2 (differs_false _ _) Ha), (proj2 (differs_false _ _) Hg),
    (proj2 (differs_false _ _) Ho), (proj2 (differs_false _ _) Hpk),
    (proj2 (differs_false _ _) Hn), (proj2 (differs_false _ _) Hq),
    (proj2 (differs_false _ _) Hgen), Hd.
  simpl. apply andb_false_r.
Qed.

(** C5: when every desired column equals, on each compared attribute, the
    live columns of its database name (the default up to the removal of
    surrounding quotes), findChangedColumns returns the empty sequence. *)
Theorem findChangedColumns_unchanged tableColumns columnMetadatas :
  (forall d c, d ∈ columnMetadatas -> c ∈ tableColumns ->
               TableColumn.name c = ColumnMetadata.databaseName d ->
               sameColumn c d) ->
  findChangedColumns tableColumns columnMetadatas = [].
Proof.
  intros Hsame. unfold findChangedColumns.
  induction columnMetadatas as [|d ds IH]; [done|].
  rewrite filter_cons_False.
  - apply IH. intros d' c Hd' Hc. apply Hsame; [by right|done].
  - unfold isChanged.
    destruct (findTableColumn tableColumns d) as [c|] eqn:Hf; [|by intros []].
    destruct (findTableColumn_Some _ _ _ Hf) as [Hin Hname].
    rewrite columnChanged_same; [by intros []|done|].
    apply Hsame; [by left|done|done].
Qed.

(** C7: a desired column without a live column of its database name is
    not in the result, and the result is a subsequence of the desired
    columns, in their order. *)
Theorem findChangedColumns_only_existing tableColumns columnMetadatas :
  findChangedColumns tableColumns columnMetadatas `sublist_of` columnMetadatas
  /\ forall d,
       (forall c, c ∈ tableColumns ->
                  TableColumn.name c <> ColumnMetadata.databaseName d) ->
       d ∉ findChangedColumns tableColumns columnMetadatas.
Proof.
  split.
  - apply sublist_filter.
  - intros d Hno Hin. unfold findChangedColumns in Hin.
    apply list_elem_of_filter in Hin as [Hch _].
    unfold isChanged in Hch.
    by rewrite (findTableColumn_None _ _ Hno) in Hch.
Qed.

End DifferFacts.

Section DifferExamples.

Lemma findChangedColumns_unchanged_witness :
  findChangedColumns [liveId] [desiredId] = [].
Proof.
  apply (findChangedColumns_unchanged [liveId] [desiredId]).
  intros d c Hd Hc _.
  apply list_elem_of_singleton in Hd. apply list_elem_of_singleton in Hc.
  subst d c. repeat split; vm_compute; reflexivity.
Defined.

Lemma findChangedColumns_only_existing_witness :
  findChangedColumns [liveId] [desiredId; desiredNew] `sublist_of` [desiredId; desiredNew]
  /\ desiredNew ∉ findChangedColumns [liveId] [desiredId; desiredNew].
Proof.
  destruct (findChangedColumns_only_existing [liveId] [desiredId; desiredNew])
    as [Hsub Hout].
  split; [exact Hsub|].
  apply (Hout desiredNew).
  intros c Hc. apply list_elem_of_singleton in Hc. subst c.
  vm_compute. discriminate.
Defined.

End DifferExamples.

(* ===================================================================== *)
(** ** The parameter pattern, read directly on the text *)

Section KeyFacts.

Lemma strip_prefix_app q : forall u v,
  strip_prefix (q ++ u) v
  = match strip_prefix q v with
    | Some rest => strip_prefix u rest
    | None => None
    end.
Proof.
  induction q as [|x q IH]; intros u v; simpl; [done|].
  destruct v as [|c v]; [by destruct u|].
  destruct (Ascii.eqb x c); [apply IH|done].
Qed.

Lemma strip_prefix_Some q : forall u rest,
  strip_prefix q u = Some rest <-> u = q ++ rest.
Proof.
  induction q as [|x q IH]; intros u rest; simpl.
  - split; [by intros [= ->]|by intros ->].
  - destruct u as [|c u]; [done|].
    destruct (Ascii.eqb_spec x c) as [->|Hne].
    + rewrite IH. split; [by intros ->|by intros [= ->]].
    + split; [done|]. intros [= -> _]. done.
Qed.

Lemma then_boundary_spec q u :
  then_boundary q u = true <-> exists rest, u = q ++ rest /\ head_word rest = false.
Proof.
  unfold then_boundary. destruct (strip_prefix q u) as [rest|] eqn:Hs.
  - apply strip_prefix_Some in Hs. rewrite negb_true_iff. split.
    + intros H. by exists rest.
    + intros (rest' & Hu & H). rewrite Hs in Hu.
      apply app_inv_head in Hu. by subst.
  - split; [done|]. intros (rest & Hu & _).
    apply strip_prefix_Some in Hu. congruence.
Qed.

Lemma head_word_rev_app (p : str) c b :
  is_word c = false ->
  head_word (rev p ++ c :: b) = head_word (rev p).
Proof.
  intros Hc. destruct (rev p) as [|y ys]; simpl; [exact Hc|done].
Qed.

Lemma identifier_last p : identifier p -> head_word (rev p) = true.
Proof.
  intros [Hne Hall]. induction p as [|c p _] using rev_ind; [done|].
  rewrite rev_app_distr. simpl.
  apply Forall_app in Hall as [_ Hc]. by inversion Hc.
Qed.

(** the name and the word boundary after it, once the colon and the dots
    are read *)
Lemma rmatch_name_boundary p b0 b a cs (k : cont) :
  identifier p -> is_word b0 = false ->
  rmatch (Seq (lit p) (Seq WordB Eps)) (MState (b0 :: b) a cs) k
  = match strip_prefix p a with
    | Some rest =>
        if negb (head_word rest) then k (MState (rev p ++ b0 :: b) rest cs)
        else None
    | None => None
    end.
Proof.
  intros Hp Hb0. cbn [rmatch]. rewrite rmatch_lit. cbn [after before caps].
  destruct (strip_prefix p a) as [rest|]; [|done].
  cbn [rmatch]. unfold word_before, word_after. cbn [before after].
  change (match rev p ++ b0 :: b with c :: _ => is_word c | [] => false end)
    with (head_word (rev p ++ b0 :: b)).
  change (match rest with c :: _ => is_word c | [] => false end)
    with (head_word rest).
  rewrite head_word_rev_app by done. rewrite (identifier_last p Hp).
  simpl. done.
Qed.

Lemma fmap_orelse (a b : option mstate) (h : mstate -> rmatched) :
  m_text <$> (h <$> orelse a b)
  = match m_text <$> (h <$> a) with Some t => Some t | None => m_text <$> (h <$> b) end.
Proof. by destruct a. Qed.

Lemma match_here_fmap r b a :
  match_here r b a
  = (fun st' => RMatched (consumed (MState b a []) st') (caps st'))
      <$> rmatch r (MState b a []) Some.
Proof. unfold match_here. by destruct (rmatch r _ Some). Qed.

(** the rest of an alternative, after the colon and the dots [pre] *)
Lemma tail_text p n b a0 pre b0 b1 a cs :
  identifier p -> is_word b0 = false ->
  b0 :: b1 = rev pre ++ b ->
  m_text <$>
    ((fun st' => RMatched (consumed (MState b a0 []) st') (caps st')) <$>
       rmatch (Seq (lit p) (Seq WordB Eps)) (MState (b0 :: b1) a cs)
         (fun st' => Some (set_cap n (consumed (MState b a0 []) st') st')))
  = if then_boundary p a then Some (pre ++ p) else None.
Proof.
  intros Hp Hb0 Hpre. rewrite rmatch_name_boundary by done.
  unfold then_boundary. destruct (strip_prefix p a) as [rest|]; [|done].
  destruct (negb (head_word rest)); [|done].
  cbn [fmap option_fmap option_map m_text]. f_equal.
  apply consumed_extends. cbn [set_cap before].
  by rewrite Hpre, rev_app_distr, <- app_assoc.
Qed.

(** the alternative of [p], run by the matcher, finds what [key_here]
    reads *)
Lemma key_re_here i p b a :
  identifier p ->
  m_text <$> match_here (key_re i p) b a = key_here p a.
Proof.
  intros Hp. rewrite match_here_fmap. unfold key_re.
  cbn [seqs fold_right]. set (tl := Seq (lit p) (Seq WordB Eps)).
  cbn [rmatch Opt]. unfold Lit at 1. rewrite rmatch_lit.
  destruct a as [|c a1]; [done|].
  cbn [after list_ascii_of_string strip_prefix key_here]. unfold is_char.
  destruct (Ascii.eqb ":" c) eqn:Hc; [|done].
  apply Ascii.eqb_eq in Hc. subst c.
  cbn [before caps rev app].
  rewrite fmap_orelse.
  unfold Lit. rewrite rmatch_lit. cbn [after before caps].
  unfold then_boundary at 1. rewrite strip_prefix_app.
  destruct (strip_prefix (txt "...") a1) as [a2|] eqn:Hdots.
  - unfold txt in Hdots. rewrite Hdots.
    unfold set_cap at 1. cbn [before after caps].
    rewrite (tail_text p _ b _ (txt ":...") "."%char (txt "..:" ++ b)) by done.
    unfold then_boundary at 1.
    destruct (match strip_prefix p a2 with
              | Some rest => negb (head_word rest) | None => false end);
      [done|].
    rewrite (tail_text p _ b _ (txt ":") ":"%char b) by done. done.
  - unfold txt in Hdots. rewrite Hdots.
    rewrite (tail_text p _ b _ (txt ":") ":"%char b) by done. done.
Qed.

Lemma match_here_alt r1 r2 b a :
  match_here (Alt r1 r2) b a
  = match match_here r1 b a with
    | Some m => Some m
    | None => match_here r2 b a
    end.
Proof.
  unfold match_here. cbn [rmatch].
  by destruct (rmatch r1 (MState b a []) Some).
Qed.

Lemma keys_re_here ps : forall i b a,
  ps <> [] -> Forall identifier ps ->
  m_text <$> match_here (keys_re_from i ps) b a = keys_here ps a.
Proof.
  induction ps as [|p ps IH]; intros i b a Hne Hall; [done|].
  inversion Hall as [|? ? Hp Hps]; subst.
  destruct ps as [|p2 ps].
  - cbn [keys_re_from keys_here]. rewrite key_re_here by done.
    by destruct (key_here p a).
  - cbn [keys_re_from]. rewrite match_here_alt.
    pose proof (key_re_here i p b a Hp) as Hk.
    cbn [keys_here]. fold (keys_here (p2 :: ps) a).
    destruct (match_here (key_re i p) b a) as [m|]; simpl in Hk; rewrite <- Hk.
    + done.
    + by apply IH.
Qed.

End KeyFacts.

(* ===================================================================== *)
(** ** The replacement loop, read directly on the text *)

Section ScanFacts.

Context {E : Type}.
Implicit Types (g : str -> option str) (f : str -> str * list E).

Lemma replace_from_scan r g f :
  (forall b a, m_text <$> match_here r b a = g a) ->
  forall a skip b, replace_from r f skip b a = scan_replace g f skip a.
Proof.
  intros Hg. induction a as [|c a IH]; intros skip b.
  - destruct skip as [|n]; [|done]. cbn [replace_from scan_replace].
    rewrite <- (Hg b []). by destruct (match_here r b []).
  - destruct skip as [|n]; cbn [replace_from scan_replace]; [|apply IH].
    rewrite <- (Hg b (c :: a)).
    destruct (match_here r b (c :: a)) as [m|]; simpl.
    + destruct (f (m_text m)) as [t w]. by rewrite IH.
    + by rewrite IH.
Qed.

(** the callback is run once for each match, in the order of the matches *)
Lemma replace_from_pushes r f : forall a skip b,
  snd (replace_from r f skip b a)
  = concat (map (fun t => snd (f t)) (match_all_from r skip b a)).
Proof.
  induction a as [|c a IH]; intros skip b.
  - destruct skip as [|n]; [|done]. cbn [replace_from match_all_from].
    destruct (match_here r b []) as [m|]; [|done].
    destruct (f (m_text m)) as [t w] eqn:Hf. simpl. by rewrite Hf, app_nil_r.
  - destruct skip as [|n]; cbn [replace_from match_all_from]; [|apply IH].
    destruct (match_here r b (c :: a)) as [m|].
    + destruct (f (m_text m)) as [t w] eqn:Hf.
      specialize (IH (length (m_text m) - 1) (c :: b)).
      destruct (replace_from r f (length (m_text m) - 1) (c :: b) a) as [o w'].
      simpl in IH. simpl. rewrite Hf. simpl. rewrite <- IH.
      by destruct (m_text m).
    + specialize (IH 0 (c :: b)).
      destruct (replace_from r f 0 (c :: b) a) as [o w']. exact IH.
Qed.

Lemma scan_skip g f x : forall a,
  scan_replace g f (length x) (x ++ a) = scan_replace g f 0 a.
Proof. induction x as [|c x IH]; intros a; simpl; [done|apply IH]. Qed.

Lemma scan_match g f t rest :
  g (t ++ rest) = Some t -> t <> [] ->
  scan_replace g f 0 (t ++ rest)
  = (fst (f t) ++ fst (scan_replace g f 0 rest),
     snd (f t) ++ snd (scan_replace g f 0 rest)).
Proof.
  intros Hg Hne. destruct t as [|c t]; [done|].
  cbn [app scan_replace]. change (c :: t ++ rest) with ((c :: t) ++ rest).
  rewrite Hg. destruct (f (c :: t)) as [r w].
  cbn [length]. replace (S (length t) - 1) with (length t) by lia.
  rewrite scan_skip. by destruct (scan_replace g f 0 rest).
Qed.

Lemma scan_no_match g f c a :
  g (c :: a) = None ->
  scan_replace g f 0 (c :: a)
  = (c :: fst (scan_replace g f 0 a), snd (scan_replace g f 0 a)).
Proof.
  intros Hg. cbn [scan_replace]. rewrite Hg.
  by destruct (scan_replace g f 0 a).
Qed.

Lemma scan_nil g f : g [] = None -> scan_replace g f 0 [] = ([], []).
Proof. intros Hg. cbn [scan_replace]. by rewrite Hg. Qed.

End ScanFacts.

Section KeyShape.

Lemma identifier_word_or_dot p : identifier p -> Forall (fun c => word_or_dot c = true) p.
Proof.
  intros [_ Hall]. eapply Forall_impl; [exact Hall|].
  intros c Hc. unfold word_or_dot. by rewrite Hc.
Qed.

Lemma identifier_no_dots p rest u : identifier p -> p ++ rest <> txt "..." ++ u.
Proof.
  intros [Hne Hall] Heq. destruct p as [|c p]; [done|].
  inversion Hall as [|? ? Hc _]; subst.
  cbn in Heq. injection Heq as -> _. by vm_compute in Hc.
Qed.

Lemma take_while_word (p rest : str) :
  Forall (fun c => is_word c = true) p -> head_word rest = false ->
  take_while is_word (p ++ rest) = p.
Proof.
  intros Hall Hrest. induction p as [|c p IH]; simpl.
  - destruct rest as [|c rest]; simpl in *; [done|]. by rewrite Hrest.
  - inversion Hall as [|? ? Hc Hp]; subst. rewrite Hc. by rewrite IH.
Qed.

(** a text is one token in one way only *)
Lemma token_unique dots p rest dots' p' rest' :
  is_dots dots -> is_dots dots' -> identifier p -> identifier p' ->
  head_word rest = false -> head_word rest' = false ->
  dots ++ p ++ rest = dots' ++ p' ++ rest' ->
  dots = dots' /\ p = p'.
Proof.
  intros Hd Hd' Hp Hp' Hr Hr' Heq.
  assert (p ++ rest = p' ++ rest' -> p = p') as Hsame.
  { intros H. rewrite <- (take_while_word p rest), <- (take_while_word p' rest');
      [by rewrite H|apply Hp'|done|apply Hp|done]. }
  destruct Hd as [->| ->], Hd' as [->| ->].
  - split; [done|]. by apply Hsame.
  - exfalso. by eapply (identifier_no_dots p).
  - exfalso. symmetry in Heq. by eapply (identifier_no_dots p').
  - split; [done|]. apply Hsame. by apply app_inv_head in Heq.
Qed.

Lemma key_here_Some p a t :
  key_here p a = Some t ->
  exists dots rest,
    is_dots dots /\ t = txt ":" ++ dots ++ p /\ a = t ++ rest
    /\ head_word rest = false.
Proof.
  unfold key_here. destruct a as [|c a1]; [done|]. unfold is_char.
  destruct (Ascii.eqb_spec ":" c) as [<-|]; [|done].
  destruct (then_boundary (txt "..." ++ p) a1) eqn:Hb.
  - intros [= <-]. apply then_boundary_spec in Hb as (rest & -> & Hrest).
    exists (txt "..."), rest. split; [by right|]. split; [done|].
    split; [|done]. reflexivity.
  - destruct (then_boundary p a1) eqn:Hb'; [|done].
    intros [= <-]. apply then_boundary_spec in Hb' as (rest & -> & Hrest).
    exists [], rest. split; [by left|]. done.
Qed.

Lemma key_here_token p dots rest :
  identifier p -> is_dots dots -> head_word rest = false ->
  key_here p (txt ":" ++ dots ++ p ++ rest) = Some (txt ":" ++ dots ++ p).
Proof.
  intros Hp Hd Hrest.
  change (txt ":" ++ dots ++ p ++ rest) with (":"%char :: dots ++ p ++ rest).
  cbn [key_here]. unfold is_char. rewrite Ascii.eqb_refl.
  destruct Hd as [->| ->].
  - destruct (then_boundary (txt "..." ++ p) ([] ++ p ++ rest)) eqn:Hb.
    + apply then_boundary_spec in Hb as (rest' & Heq & _).
      exfalso. rewrite <- app_assoc in Heq. by eapply (identifier_no_dots p).
    + replace (then_boundary p ([] ++ p ++ rest)) with true; [done|].
      symmetry. apply then_boundary_spec. by exists rest.
  - replace (then_boundary (txt "..." ++ p) (txt "..." ++ p ++ rest)) with true;
      [done|].
    symmetry. apply then_boundary_spec. exists rest. by rewrite <- app_assoc.
Qed.

Lemma keys_here_Some ps a t :
  keys_here ps a = Some t -> exists p, p ∈ ps /\ key_here p a = Some t.
Proof.
  induction ps as [|p ps IH]; simpl; [done|].
  destruct (key_here p a) as [t'|] eqn:Hk.
  - intros [= <-]. exists p. split; [by left|done].
  - intros H. destruct (IH H) as (p' & Hin & Hk'). exists p'. split; [by right|done].
Qed.

Lemma keys_here_None ps a :
  keys_here ps a = None <-> forall p, p ∈ ps -> key_here p a = None.
Proof.
  induction ps as [|p ps IH]; simpl.
  - split; [intros _ p Hp; by inversion Hp|done].
  - destruct (key_here p a) as [t|] eqn:Hk.
    + split; [done|]. intros H. rewrite <- Hk. apply H. by left.
    + rewrite IH. split.
      * intros H p' Hp'. inversion Hp'; subst; [done|by apply H].
      * intros H p' Hp'. apply H. by right.
Qed.

(** a token of a declared parameter is what the pattern matches there *)
Lemma keys_here_token ps p dots rest :
  Forall identifier ps -> p ∈ ps -> is_dots dots -> head_word rest = false ->
  keys_here ps (txt ":" ++ dots ++ p ++ rest) = Some (txt ":" ++ dots ++ p).
Proof.
  intros Hall Hin Hd Hrest.
  induction ps as [|p' ps IH]; [by inversion Hin|].
  inversion Hall as [|? ? Hp' Hps]; subst.
  assert (identifier p) as Hp.
  { rewrite Forall_forall in Hall. by apply Hall. }
  cbn [keys_here].
  destruct (key_here p' (txt ":" ++ dots ++ p ++ rest)) as [t|] eqn:Hk.
  - apply key_here_Some in Hk as (dots' & rest' & Hd' & -> & Heq & Hrest').
    cbn in Heq. injection Heq as Heq. rewrite <- !app_assoc in Heq.
    destruct (token_unique dots p rest dots' p' rest') as [-> ->]; done.
  - apply IH; [done|].
    inversion Hin; subst; [|done].
    by rewrite key_here_token in Hk.
Qed.

Lemma then_boundary_take_while q : forall u,
  Forall (fun c => word_or_dot c = true) q ->
  then_boundary q u = then_boundary q (take_while word_or_dot u).
Proof.
  unfold then_boundary.
  induction q as [|x q IH]; intros u Hq.
  - destruct u as [|c u]; [done|]. cbn [strip_prefix take_while].
    destruct (word_or_dot c) eqn:Hc; [done|]. cbn [head_word].
    unfold word_or_dot in Hc. apply orb_false_iff in Hc as [-> _]. done.
  - inversion Hq as [|? ? Hx Hq']; subst.
    destruct u as [|c u]; [done|]. cbn [strip_prefix take_while].
    destruct (Ascii.eqb_spec x c) as [<-|Hne].
    + rewrite Hx. cbn [strip_prefix]. rewrite Ascii.eqb_refl. by apply IH.
    + destruct (word_or_dot c); cbn [strip_prefix]; [|done].
      destruct (Ascii.eqb_spec x c); done.
Qed.

(** whether a colon starts a token depends on the run of word characters
    and dots after it only *)
Lemma key_here_take_while p c u u' :
  identifier p ->
  take_while word_or_dot u = take_while word_or_dot u' ->
  key_here p (c :: u) = key_here p (c :: u').
Proof.
  intros Hp Htw. cbn [key_here].
  assert (Forall (fun c => word_or_dot c = true) (txt "..." ++ p)) as Hq.
  { apply Forall_app. split; [by repeat constructor|by apply identifier_word_or_dot]. }
  rewrite (then_boundary_take_while _ u Hq), (then_boundary_take_while _ u' Hq).
  rewrite (then_boundary_take_while p u), (then_boundary_take_while p u')
    by (by apply identifier_word_or_dot).
  by rewrite Htw.
Qed.

Lemma keys_here_take_while ps c u u' :
  Forall identifier ps ->
  take_while word_or_dot u = take_while word_or_dot u' ->
  keys_here ps (c :: u) = keys_here ps (c :: u').
Proof.
  intros Hall Htw. induction ps as [|p ps IH]; [done|].
  inversion Hall; subst. cbn [keys_here].
  rewrite (key_here_take_while p c u u') by done.
  destruct (key_here p (c :: u')); [done|]. by apply IH.
Qed.

Lemma take_while_stop (x : str) c w :
  word_or_dot c = false ->
  take_while word_or_dot (x ++ c :: w) = take_while word_or_dot x.
Proof.
  intros Hc. induction x as [|y x IH]; simpl; [by rewrite Hc|].
  destruct (word_or_dot y); [by rewrite IH|done].
Qed.

End KeyShape.

(* ===================================================================== *)
(** ** escapeQueryWithParameters *)

Section TranslatorFacts.

Variable parameters : ObjectLiteral.
Hypothesis parameters_identifiers : Forall identifier (keys parameters).

Lemma keys_here_nil ps : keys_here ps [] = None.
Proof. induction ps as [|p ps IH]; [done|]. simpl. exact IH. Qed.

Lemma keys_here_not_colon ps c u :
  is_char ":" c = false -> keys_here ps (c :: u) = None.
Proof.
  intros Hc. induction ps as [|p ps IH]; [done|].
  cbn [keys_here key_here]. rewrite Hc. exact IH.
Qed.

Lemma scan_none {E : Type} (f : str -> str * list E) : forall a,
  scan_replace (fun _ => None) f 0 a = (a, []).
Proof. induction a as [|c a IH]; simpl; [done|]. by rewrite IH. Qed.

(** the translation, as a scan of the text *)
Lemma escape_scan sql nativeParameters :
  escapeQueryWithParameters sql parameters nativeParameters
  = (fst (scan_replace (keys_here (keys parameters)) (replaceKey parameters) 0 sql),
     initialParameters nativeParameters
     ++ snd (scan_replace (keys_here (keys parameters)) (replaceKey parameters) 0 sql)).
Proof.
  unfold escapeQueryWithParameters.
  destruct parameters as [|e ps] eqn:Hps.
  - cbn [keys map length Nat.eqb keys_here].
    change (fun a : str => keys_here [] a) with (fun _ : str => @None str).
    rewrite scan_none. simpl. by rewrite app_nil_r.
  - cbn [keys map length Nat.eqb]. unfold re_replace_all.
    rewrite (replace_from_scan _ (keys_here (keys (e :: ps)))).
    + by destruct (scan_replace _ _ 0 sql).
    + intros b a. apply keys_re_here; [done|]. exact parameters_identifiers.
Qed.

Lemma colon_stops : word_or_dot ":" = false.
Proof. reflexivity. Qed.

Lemma length_app_le (t rest : str) n :
  t <> [] -> length (t ++ rest) <= S n -> length rest <= n.
Proof.
  intros Ht. rewrite length_app. destruct t; [done|]. simpl. lia.
Qed.

(** the scan of a text up to a colon, and from that colon on *)
Lemma scan_colon w : forall n pre,
  length pre <= n ->
  scan_replace (keys_here (keys parameters)) (replaceKey parameters) 0
    (pre ++ ":"%char :: w)
  = (fst (scan_replace (keys_here (keys parameters)) (replaceKey parameters) 0 pre)
     ++ fst (scan_replace (keys_here (keys parameters)) (replaceKey parameters) 0
               (":"%char :: w)),
     snd (scan_replace (keys_here (keys parameters)) (replaceKey parameters) 0 pre)
     ++ snd (scan_replace (keys_here (keys parameters)) (replaceKey parameters) 0
               (":"%char :: w))).
Proof.
  set (g := keys_here (keys parameters)). set (f := replaceKey parameters).
  induction n as [|n IH]; intros pre Hlen.
  - destruct pre; [|simpl in Hlen; lia].
    rewrite (scan_nil g f) by apply keys_here_nil.
    cbn [app fst snd]. by destruct (scan_replace g f 0 (":"%char :: w)).
  - destruct pre as [|c pre].
    { rewrite (scan_nil g f) by apply keys_here_nil.
      cbn [app fst snd]. by destruct (scan_replace g f 0 (":"%char :: w)). }
    assert (g ((c :: pre) ++ ":"%char :: w) = g (c :: pre)) as Hsame.
    { apply keys_here_take_while; [done|].
      apply take_while_stop. apply colon_stops. }
    destruct (g (c :: pre)) as [t|] eqn:Hg.
    + apply keys_here_Some in Hg as Hp. destruct Hp as (p & _ & Hk).
      apply key_here_Some in Hk as (dots & rest & _ & Ht & Hpre & _).
      assert (t <> []) as Hne by (by rewrite Ht).
      rewrite Hpre in *. rewrite <- app_assoc in *.
      rewrite (scan_match g f t (rest ++ ":"%char :: w)) by done.
      rewrite (scan_match g f t rest) by done.
      rewrite (IH rest) by (by eapply length_app_le).
      cbn [fst snd]. by rewrite <- !app_assoc.
    + cbn [app] in *. rewrite (scan_no_match g f c (pre ++ ":"%char :: w)) by done.
      rewrite (scan_no_match g f c pre) by done.
      rewrite (IH pre) by (simpl in Hlen; lia). done.
Qed.

(** the translation of a text around a token of a declared parameter *)
Lemma escape_token nativeParameters name dots pre post :
  name ∈ keys parameters -> is_dots dots -> head_word post = false ->
  escapeQueryWithParameters (pre ++ txt ":" ++ dots ++ name ++ post)
    parameters nativeParameters
  = (fst (escapeQueryWithParameters pre parameters nativeParameters)
     ++ fst (replaceKey parameters (txt ":" ++ dots ++ name))
     ++ fst (escapeQueryWithParameters post parameters nativeParameters),
     snd (escapeQueryWithParameters pre parameters nativeParameters)
     ++ snd (replaceKey parameters (txt ":" ++ dots ++ name))
     ++ snd (escapeQueryWithParameters post parameters [])).
Proof.
  intros Hin Hd Hpost. rewrite !escape_scan. cbn [fst snd].
  change (txt ":" ++ dots ++ name ++ post) with (":"%char :: dots ++ name ++ post).
  rewrite (scan_colon _ (length pre) pre) by done. cbn [fst snd].
  change (":"%char :: dots ++ name ++ post) with (txt ":" ++ dots ++ name ++ post).
  replace (txt ":" ++ dots ++ name ++ post)
    with ((txt ":" ++ dots ++ name) ++ post) by (by rewrite <- !app_assoc).
  rewrite scan_match.
  - cbn [fst snd initialParameters keys map length Nat.ltb Nat.leb app].
    by rewrite <- !app_assoc.
  - rewrite <- !app_assoc. by apply keys_here_token.
  - done.
Qed.

Lemma keyName_token p dots :
  identifier p -> is_dots dots -> keyName (txt ":" ++ dots ++ p) = p.
Proof.
  intros [Hne Hall] [->| ->]; unfold keyName.
  - destruct p as [|c p]; [done|]. inversion Hall as [|? ? Hc _]; subst.
    rewrite bool_decide_eq_false_2; [done|].
    cbn. intros [= -> _]. by vm_compute in Hc.
  - rewrite bool_decide_eq_true_2; done.
Qed.

Lemma get_keys name :
  get parameters name <> VUndefined -> name ∈ keys parameters.
Proof.
  clear parameters_identifiers. unfold get, keys.
  induction parameters as [|[k v] ps IH]; simpl; [done|].
  case_bool_decide as Hk.
  - intros _. simpl in Hk. subst. by left.
  - intros H. right. by apply IH.
Qed.

Lemma identifier_key name : name ∈ keys parameters -> identifier name.
Proof.
  intros Hin. rewrite Forall_forall in parameters_identifiers.
  by apply parameters_identifiers.
Qed.

Lemma replaceKey_array name dots elements :
  get parameters name = VArray elements -> is_dots dots ->
  replaceKey parameters (txt ":" ++ dots ++ name)
  = (elementPlaceholders name elements, elementParameters name elements).
Proof.
  intros Hget Hd. unfold replaceKey.
  rewrite keyName_token; [by rewrite Hget| |done].
  apply identifier_key, get_keys. by rewrite Hget.
Qed.

Lemma replaceKey_scalar key :
  scalar (get parameters (keyName key)) ->
  replaceKey parameters key
  = (txt "@" ++ keyName key, [[(keyName key, get parameters (keyName key))]]).
Proof.
  unfold replaceKey. by destruct (get parameters (keyName key)).
Qed.

End TranslatorFacts.

Section TranslatorTheorems.

Lemma suffix_head_in (t : str) c x y :
  (c :: t) `suffix_of` (x ++ y) -> (c :: t) `suffix_of` y \/ c ∈ x.
Proof.
  induction x as [|x0 x IH]; intros Hs; [by left|].
  apply suffix_cons_inv in Hs as [[= -> _]|Hs]; [right; by left|].
  destruct (IH Hs) as [?|?]; [by left|right; by right].
Qed.

Lemma identifier_not_colon p c : identifier p -> c ∈ p -> is_char ":" c = false.
Proof.
  intros [_ Hall] Hin. rewrite Forall_forall in Hall.
  specialize (Hall c Hin). unfold is_char.
  destruct (Ascii.eqb_spec ":" c) as [<-|]; [|done]. by vm_compute in Hall.
Qed.

(** after the translation of scalar parameters no suffix of the text
    starts with a token, and the leading run of word characters and dots
    is as before *)
Lemma scan_no_key parameters :
  Forall identifier (keys parameters) ->
  (forall k, scalar (get parameters k)) ->
  forall n a, length a <= n ->
    (forall t,
       t `suffix_of` fst (scan_replace (keys_here (keys parameters))
                            (replaceKey parameters) 0 a) ->
       keys_here (keys parameters) t = None)
    /\ take_while word_or_dot
         (fst (scan_replace (keys_here (keys parameters)) (replaceKey parameters) 0 a))
       = take_while word_or_dot a.
Proof.
  intros Hids Hscalar.
  set (g := keys_here (keys parameters)). set (f := replaceKey parameters).
  induction n as [|n IH]; intros a Hlen.
  { destruct a; [|simpl in Hlen; lia].
    rewrite (scan_nil g f) by apply keys_here_nil. split; [|done].
    intros t Ht. apply suffix_nil_inv in Ht as ->. apply keys_here_nil. }
  destruct a as [|c a].
  { rewrite (scan_nil g f) by apply keys_here_nil. split; [|done].
    intros t Ht. apply suffix_nil_inv in Ht as ->. apply keys_here_nil. }
  destruct (g (c :: a)) as [key|] eqn:Hg.
  - apply keys_here_Some in Hg as Hp. destruct Hp as (p & Hin & Hk).
    apply key_here_Some in Hk as (dots & rest & Hd & Hkey & Ha & _).
    assert (identifier p) as Hp by (by eapply identifier_key).
    assert (key <> []) as Hne by (by rewrite Hkey).
    rewrite Ha in *. rewrite (scan_match g f key rest) by done.
    unfold f. rewrite !replaceKey_scalar by apply Hscalar.
    subst key. rewrite !keyName_token by done.
    cbn [fst]. destruct (IH rest) as [IHs IHt]; [by eapply length_app_le|].
    split.
    + intros [|c' t] Ht; [apply keys_here_nil|].
      apply suffix_head_in in Ht as [Ht|Hc]; [by apply IHs|].
      apply keys_here_not_colon.
      change (txt "@" ++ p) with ("@"%char :: p) in Hc.
      inversion Hc; subst; [done|]. by eapply identifier_not_colon.
    + done.
  - rewrite (scan_no_match g f c a) by done. cbn [fst].
    destruct (IH a) as [IHs IHt]; [simpl in Hlen; lia|].
    split.
    + intros [|c' t] Ht; [apply keys_here_nil|].
      apply suffix_cons_inv in Ht as [[= -> ->]|Ht]; [|by apply IHs].
      fold g. rewrite <- Hg. by apply keys_here_take_while.
    + cbn [take_while]. by rewrite IHt.
Qed.

(** what a global match returns was matched somewhere *)
Lemma match_all_from_matched r : forall a skip b t,
  t ∈ match_all_from r skip b a ->
  exists b' a', m_text <$> match_here r b' a' = Some t.
Proof.
  induction a as [|c a IH]; intros skip b t.
  - destruct skip as [|n]; cbn [match_all_from]; [|by intros H; inversion H].
    destruct (match_here r b []) as [m|] eqn:Hm; [|by intros H; inversion H].
    intros Hin. apply list_elem_of_singleton in Hin as ->.
    exists b, []. by rewrite Hm.
  - destruct skip as [|n]; cbn [match_all_from]; [|apply IH].
    destruct (match_here r b (c :: a)) as [m|] eqn:Hm; [|apply IH].
    intros Hin. inversion Hin; subst; [|by eapply IH].
    exists b, (c :: a). by rewrite Hm.
Qed.

(** C3, as the code has it: with parameter names made of word characters
    and no array or function among the values, the translation pushes one
    native parameter entry for each occurrence of a parameter token in the
    SQL, in the order of the occurrences, each for a declared name with
    the value of that name, and the rewritten SQL has no token of a
    declared name left; with no parameter at all nothing is pushed. *)
Theorem escapeQuery_scalars sql parameters nativeParameters :
  Forall identifier (keys parameters) ->
  (forall k, scalar (get parameters k)) ->
  snd (escapeQueryWithParameters sql parameters nativeParameters)
  = initialParameters nativeParameters
    ++ map (fun key => [(keyName key, get parameters (keyName key))])
         (parameterTokens (keys parameters) sql)
  /\ Forall (fun key => keyName key ∈ keys parameters)
       (parameterTokens (keys parameters) sql)
  /\ forall name i,
       name ∈ keys parameters ->
       re_match (key_re i name)
         (fst (escapeQueryWithParameters sql parameters nativeParameters)) = None.
Proof.
  intros Hids Hscalar. split; [|split].
  - unfold escapeQueryWithParameters.
    destruct parameters as [|e ps]; [by rewrite app_nil_r|].
    change ((length (keys (e :: ps)) =? 0)%nat) with false. cbv iota.
    change (parameterTokens (keys (e :: ps)) sql)
      with (re_match_all (keys_re (keys (e :: ps))) sql).
    unfold re_replace_all.
    pose proof (replace_from_pushes (keys_re (keys (e :: ps)))
                  (replaceKey (e :: ps)) sql 0 []) as Hpush.
    destruct (replace_from _ _ 0 [] sql) as [o w]. cbn [snd] in *.
    rewrite Hpush. clear Hpush. f_equal. unfold re_match_all.
    induction (match_all_from (keys_re (keys (e :: ps))) 0 [] sql) as [|t l IHl];
      [done|].
    cbn [map concat]. rewrite IHl.
    rewrite replaceKey_scalar by apply Hscalar. done.
  - destruct parameters as [|e ps]; [constructor|].
    change (parameterTokens (keys (e :: ps)) sql)
      with (re_match_all (keys_re (keys (e :: ps))) sql).
    apply Forall_forall. intros key Hin.
    apply match_all_from_matched in Hin as (b & a & Hm).
    unfold keys_re in Hm. rewrite keys_re_here in Hm; [|done|done].
    apply keys_here_Some in Hm as (p & Hp & Hk).
    apply key_here_Some in Hk as (dots & rest & Hd & -> & _).
    rewrite keyName_token; [done| |done]. by eapply identifier_key.
  - intros name i Hin. rewrite escape_scan by done. cbn [fst].
    destruct (scan_no_key parameters Hids Hscalar (length sql) sql) as [Hs _]; [done|].
    unfold re_match.
    apply (search_None_suffix
             (fun t => t `suffix_of`
                fst (scan_replace (keys_here (keys parameters))
                       (replaceKey parameters) 0 sql))).
    + intros c a Hsuf. by eapply suffix_cons_l.
    + intros b a Hsuf. apply Hs in Hsuf.
      pose proof (key_re_here i name b a (identifier_key _ Hids _ Hin)) as Hk.
      rewrite (proj1 (keys_here_None _ _) Hsuf name Hin) in Hk.
      by destruct (match_here (key_re i name) b a).
    + done.
Qed.

Lemma escapeQuery_scalars_witness :
  snd (escapeQueryWithParameters (txt "a = :a OR b = :b OR c = :a")
         [(txt "a", VNum 1); (txt "b", VStr (txt "x"))] [])
  = initialParameters []
    ++ map (fun key => [(keyName key,
                         get [(txt "a", VNum 1); (txt "b", VStr (txt "x"))] (keyName key))])
         (parameterTokens (keys [(txt "a", VNum 1); (txt "b", VStr (txt "x"))])
            (txt "a = :a OR b = :b OR c = :a"))
  /\ re_match (key_re 0 (txt "a"))
       (fst (escapeQueryWithParameters (txt "a = :a OR b = :b OR c = :a")
               [(txt "a", VNum 1); (txt "b", VStr (txt "x"))] [])) = None.
Proof.
  destruct (escapeQuery_scalars (txt "a = :a OR b = :b OR c = :a")
              [(txt "a", VNum 1); (txt "b", VStr (txt "x"))] [])
    as (Hentries & _ & Hclean).
  - repeat constructor; vm_compute; discriminate.
  - intros k. unfold get. cbn [find].
    repeat (case_bool_decide; [exact I|]). exact I.
  - split; [exact Hentries|]. apply Hclean. by left.
Defined.

(** One parameter name that occurs twice: two native parameter entries
    for the one name.  And a name that does not end in a word character:
    its token stays in the text and nothing is pushed for it. *)
Lemma escapeQuery_repeated_name :
  remove_dups (map keyName (re_match_all (keys_re [txt "a"]) (txt "a = :a OR b = :a")))
  = [txt "a"]
  /\ escapeQueryWithParameters (txt "a = :a OR b = :a") [(txt "a", VNum 1)] []
     = (txt "a = @a OR b = @a", [[(txt "a", VNum 1)]; [(txt "a", VNum 1)]])
  /\ escapeQueryWithParameters (txt "x = :a- AND 1") [(txt "a-", VNum 1)] []
     = (txt "x = :a- AND 1", []).
Proof. split; [|split]; vm_compute; reflexivity. Qed.

(** C4, as the code has it: with parameter names made of word characters,
    a token, spread or plain, of a parameter whose value is an array
    of N elements is replaced by the placeholders of name0 to nameN-1,
    joined by a comma and a space, and N native parameters of these names
    are pushed for it, in the order of the elements, between what the
    text before and the text after the token give; so for the scenario of
    the specification. *)
Theorem escapeQuery_array :
  (forall parameters nativeParameters name elements dots pre post,
     Forall identifier (keys parameters) ->
     get parameters name = VArray elements ->
     is_dots dots -> head_word post = false ->
     escapeQueryWithParameters (pre ++ txt ":" ++ dots ++ name ++ post)
       parameters nativeParameters
     = (fst (escapeQueryWithParameters pre parameters nativeParameters)
        ++ join (txt ", ")
             (imap (fun i _ => txt "@" ++ name ++ nat_toString i) elements)
        ++ fst (escapeQueryWithParameters post parameters nativeParameters),
        snd (escapeQueryWithParameters pre parameters nativeParameters)
        ++ imap (fun i v => [(name ++ nat_toString i, v)]) elements
        ++ snd (escapeQueryWithParameters post parameters []))
     /\ length (imap (fun i v => [(name ++ nat_toString i, v)]) elements)
        = length elements)
  /\ escapeQueryWithParameters (txt "SELECT * FROM t WHERE id IN (:...ids)")
       [(txt "ids", VArray [VNum 1; VNum 2; VNum 3])] []
     = (txt "SELECT * FROM t WHERE id IN (@ids0, @ids1, @ids2)",
        [ [(txt "ids0", VNum 1)]; [(txt "ids1", VNum 2)]; [(txt "ids2", VNum 3)] ]).
Proof.
  split; [|vm_compute; reflexivity].
  intros parameters nativeParameters name elements dots pre post Hids Hget Hd Hpost.
  split; [|apply length_imap].
  rewrite escape_token; [|done| |done|done].
  - by rewrite (replaceKey_array parameters Hids name dots elements).
  - apply get_keys. by rewrite Hget.
Qed.

Lemma escapeQuery_array_witness :
  escapeQueryWithParameters
    (txt "SELECT * FROM t WHERE id IN (" ++ txt ":" ++ txt "..." ++ txt "ids" ++ txt ")")
    [(txt "ids", VArray [VNum 1; VNum 2; VNum 3])] []
  = (txt "SELECT * FROM t WHERE id IN (@ids0, @ids1, @ids2)",
     [ [(txt "ids0", VNum 1)]; [(txt "ids1", VNum 2)]; [(txt "ids2", VNum 3)] ]).
Proof.
  destruct (proj1 escapeQuery_array
              [(txt "ids", VArray [VNum 1; VNum 2; VNum 3])] [] (txt "ids")
              [VNum 1; VNum 2; VNum 3] (txt "...")
              (txt "SELECT * FROM t WHERE id IN (") (txt ")")) as [Heq _].
  - repeat constructor; vm_compute; discriminate.
  - vm_compute. reflexivity.
  - right. reflexivity.
  - reflexivity.
  - rewrite Heq. vm_compute. reflexivity.
Defined.

(** A parameter name that does not end in a word character: the token of
    its array is left in the text and nothing is pushed.  A second name
    that is not made of word characters and begins like the name of the
    array: the token of the array is taken for a token of that name. *)
Lemma escapeQuery_array_unworded :
  escapeQueryWithParameters (txt "id IN (:...a-)")
    [(txt "a-", VArray [VNum 1; VNum 2])] []
  = (txt "id IN (:...a-)", [])
  /\ escapeQueryWithParameters (txt "WHERE :ids-x")
       [(txt "ids-x", VNum 7); (txt "ids", VArray [VNum 1; VNum 2])] []
     = (txt "WHERE @ids-x", [[(txt "ids-x", VNum 7)]]).
Proof. split; vm_compute; reflexivity. Qed.

(** C9, as the code has it: with parameter names made of word characters,
    a token of a parameter whose value is the empty array is replaced
    by the empty string and no native parameter is pushed for it: the
    text before and the text after the token are joined, as in the IN
    clause that becomes IN (). *)
Theorem escapeQuery_empty_array :
  (forall parameters nativeParameters name dots pre post,
     Forall identifier (keys parameters) ->
     get parameters name = VArray [] ->
     is_dots dots -> head_word post = false ->
     replaceKey parameters (txt ":" ++ dots ++ name) = ([], [])
     /\ escapeQueryWithParameters (pre ++ txt ":" ++ dots ++ name ++ post)
          parameters nativeParameters
        = (fst (escapeQueryWithParameters pre parameters nativeParameters)
           ++ fst (escapeQueryWithParameters post parameters nativeParameters),
           snd (escapeQueryWithParameters pre parameters nativeParameters)
           ++ snd (escapeQueryWithParameters post parameters [])))
  /\ escapeQueryWithParameters (txt "SELECT * FROM t WHERE id IN (:...xs)")
       [(txt "xs", VArray [])] []
     = (txt "SELECT * FROM t WHERE id IN ()", []).
Proof.
  split; [|vm_compute; reflexivity].
  intros parameters nativeParameters name dots pre post Hids Hget Hd Hpost.
  pose proof (replaceKey_array parameters Hids name dots [] Hget Hd) as Hkey.
  split; [exact Hkey|].
  rewrite escape_token; [|done| |done|done].
  - by rewrite Hkey.
  - apply get_keys. by rewrite Hget.
Qed.

Lemma escapeQuery_empty_array_witness :
  escapeQueryWithParameters
    (txt "SELECT * FROM t WHERE id IN (" ++ txt ":" ++ txt "..." ++ txt "xs" ++ txt ")")
    [(txt "xs", VArray [])] []
  = (txt "SELECT * FROM t WHERE id IN ()", []).
Proof.
  destruct (proj1 escapeQuery_empty_array
              [(txt "xs", VArray [])] [] (txt "xs") (txt "...")
              (txt "SELECT * FROM t WHERE id IN (") (txt ")")) as [_ Heq].
  - repeat constructor; vm_compute; discriminate.
  - vm_compute. reflexivity.
  - right. reflexivity.
  - reflexivity.
  - rewrite Heq. vm_compute. reflexivity.
Defined.

(** A parameter name that does not end in a word character: the token of
    its empty array is left in the text.  A second name that is not made
    of word characters and begins like the name of the array: the token
    of the array is taken for a token of that name. *)
Lemma escapeQuery_empty_array_unworded :
  escapeQueryWithParameters (txt "id IN (:...a-)") [(txt "a-", VArray [])] []
  = (txt "id IN (:...a-)", [])
  /\ escapeQueryWithParameters (txt "id IN (:xs-y)")
       [(txt "xs-y", VNum 7); (txt "xs", VArray [])] []
     = (txt "id IN (@xs-y)", [[(txt "xs-y", VNum 7)]]).
Proof. split; vm_compute; reflexivity. Qed.

End TranslatorTheorems.

(* ===================================================================== *)
(** ** updateTableWithExtendSchema: what is overlaid and what is logged *)

Section MergerFacts.

Implicit Types (e extendSchema : gmap str ExtendColumnSchema.t)
               (seen : list str) (cols : list TableColumn.t)
               (c : TableColumn.t) (n : str).

Lemma merged_head_name e seen c :
  TableColumn.name
    (if bool_decide (TableColumn.name c ∈ seen) then c
     else match e !! TableColumn.name c with
          | Some columnSchema => overlaySchema columnSchema c
          | None => c
          end)
  = TableColumn.name c.
Proof.
  case_bool_decide; [done|]. by destruct (e !! TableColumn.name c).
Qed.

Lemma mergedColumns_insert_seen e n s : forall cols seen,
  n ∈ seen ->
  mergedColumns (<[n:=s]> e) seen cols = mergedColumns e seen cols.
Proof.
  induction cols as [|c cs IH]; intros seen Hin; [done|].
  cbn [mergedColumns]. rewrite IH by (by right). f_equal.
  case_bool_decide as Hc; [done|].
  rewrite lookup_insert_ne; [done|]. intros ->. done.
Qed.

Lemma mergedColumns_insert_absent e n s : forall cols seen,
  findByName n cols = None ->
  mergedColumns (<[n:=s]> e) seen cols = mergedColumns e seen cols.
Proof.
  induction cols as [|c cs IH]; intros seen Hno; [done|].
  cbn [mergedColumns]. unfold findByName in Hno. cbn [find] in Hno.
  case_bool_decide as Hn; [done|].
  rewrite IH by done. f_equal.
  case_bool_decide; [done|]. rewrite lookup_insert_ne; [done|]. congruence.
Qed.

(** one assignment, on columns already merged for the entries [e] *)
Lemma assignColumn_merged e n s : forall cols seen,
  e !! n = None -> n ∉ seen ->
  assignColumn n (overlaySchema s) (mergedColumns e seen cols)
  = mergedColumns (<[n:=s]> e) seen cols.
Proof.
  induction cols as [|c cs IH]; intros seen He Hseen; [done|].
  cbn [mergedColumns assignColumn]. rewrite merged_head_name.
  case_bool_decide as Hn.
  - subst n. rewrite bool_decide_eq_false_2 by done.
    rewrite He, lookup_insert_eq.
    rewrite mergedColumns_insert_seen by (by left). done.
  - rewrite IH; [|done|].
    + f_equal. case_bool_decide; [done|].
      rewrite lookup_insert_ne; [done|]. congruence.
    + intros Hin. inversion Hin; subst; done.
Qed.

Lemma findByName_merged e n : forall cols seen,
  n ∉ seen ->
  findByName n (mergedColumns e seen cols)
  = match e !! n with
    | Some columnSchema => overlaySchema columnSchema <$> findByName n cols
    | None => findByName n cols
    end.
Proof.
  unfold findByName.
  induction cols as [|c cs IH]; intros seen Hseen.
  - by destruct (e !! n).
  - cbn [mergedColumns find]. rewrite merged_head_name.
    case_bool_decide as Hn.
    + subst n. rewrite bool_decide_eq_false_2 by done.
      by destruct (e !! TableColumn.name c).
    + apply IH. intros Hin. inversion Hin; subst; done.
Qed.

Lemma mergedColumns_empty : forall cols seen,
  mergedColumns ∅ seen cols = cols.
Proof.
  induction cols as [|c cs IH]; intros seen; [done|].
  cbn [mergedColumns]. rewrite IH, lookup_empty. by case_bool_decide.
Qed.

(** the loop over the entries of one table *)
Lemma mergeColumns_fold (table : Table.t) (log0 : list str)
    (extendSchema : gmap str ExtendColumnSchema.t) :
  let r := map_fold mergeColumn (table, log0) extendSchema in
  fst r = Table.Make (Table.name table)
            (mergedColumns extendSchema [] (Table.columns table))
  /\ forall msg,
       msg ∈ snd r <->
       msg ∈ log0
       \/ exists columnName columnSchema,
            extendSchema !! columnName = Some columnSchema
            /\ Table.findColumnByName columnName table = None
            /\ msg = missingColumnMessage columnName.
Proof.
  apply (map_fold_weak_ind
    (fun (r : Table.t * list str) (e : gmap str ExtendColumnSchema.t) =>
       fst r = Table.Make (Table.name table) (mergedColumns e [] (Table.columns table))
       /\ forall msg,
            msg ∈ snd r <->
            msg ∈ log0
            \/ exists columnName columnSchema,
                 e !! columnName = Some columnSchema
                 /\ Table.findColumnByName columnName table = None
                 /\ msg = missingColumnMessage columnName)).
  - split.
    + cbn [fst]. destruct table as [tn cols]. cbn [Table.name Table.columns].
      by rewrite mergedColumns_empty.
    + intros msg. cbn [snd]. split; [by left|].
      intros [?|(n & s & Hl & _)]; [done|]. by rewrite lookup_empty in Hl.
  - intros n s e [table' log'] He [Htable Hlog]. cbn [fst snd] in Htable, Hlog.
    subst table'.
    assert (Table.findColumnByName n
              (Table.Make (Table.name table)
                 (mergedColumns e [] (Table.columns table)))
            = Table.findColumnByName n table) as Hf.
    { unfold Table.findColumnByName. cbn [Table.columns].
      fold (findByName n (mergedColumns e [] (Table.columns table))).
      rewrite findByName_merged by (by intros H; inversion H). by rewrite He. }
    unfold mergeColumn. rewrite Hf. cbn [Table.columns Table.name].
    change (TableColumn.overlay _ _ _) with (overlaySchema s).
    destruct (Table.findColumnByName n table) as [column|] eqn:Hfind.
    + cbn [fst snd]. split.
      * by rewrite assignColumn_merged by (done || by intros H; inversion H).
      * intros msg. rewrite Hlog. split.
        -- intros [?|(n' & s' & Hl & Hno & ->)]; [by left|right].
           exists n', s'. split; [|done].
           rewrite lookup_insert_ne; [done|]. intros ->. congruence.
        -- intros [?|(n' & s' & Hl & Hno & ->)]; [by left|right].
           exists n', s'. split; [|done].
           rewrite lookup_insert_ne in Hl; [done|]. intros ->. congruence.
    + cbn [fst snd]. split.
      * by rewrite mergedColumns_insert_absent.
      * intros msg. rewrite elem_of_app, Hlog, list_elem_of_singleton. split.
        -- intros [[?|(n' & s' & Hl & Hno & ->)]| ->]; [by left|right|right].
           ++ exists n', s'. split; [|done].
              rewrite lookup_insert_ne; [done|]. intros ->. congruence.
           ++ exists n, s. split; [apply lookup_insert_eq|done].
        -- intros [?|(n' & s' & Hl & Hno & ->)]; [left; by left|].
           destruct (decide (n = n')) as [->|Hne]; [by right|].
           left. right. exists n', s'. split; [|done].
           by rewrite lookup_insert_ne in Hl.
Qed.

End MergerFacts.

Section MergerTheorems.

Implicit Types (tables : gmap str Table.t)
               (extendSchemas : gmap str (gmap str ExtendColumnSchema.t)).

(** the loop over the tables *)
Lemma mergeTables_fold extendSchemas (tables0 tables : gmap str Table.t) :
  let r := map_fold (mergeTable extendSchemas) (tables0, []) tables in
  (forall k,
     fst r !! k
     = match tables !! k, extendSchemas !! k with
       | Some table, Some _ => Some (mergedTable extendSchemas k table)
       | _, _ => tables0 !! k
       end)
  /\ forall msg,
       msg ∈ snd r <->
       exists columnName,
         missingEntry tables extendSchemas columnName
         /\ msg = missingColumnMessage columnName.
Proof.
  apply (map_fold_weak_ind
    (fun (r : gmap str Table.t * list str) (m : gmap str Table.t) =>
       (forall k,
          fst r !! k
          = match m !! k, extendSchemas !! k with
            | Some table, Some _ => Some (mergedTable extendSchemas k table)
            | _, _ => tables0 !! k
            end)
       /\ forall msg,
            msg ∈ snd r <->
            exists columnName,
              missingEntry m extendSchemas columnName
              /\ msg = missingColumnMessage columnName)).
  - split.
    + intros k. cbn [fst]. by rewrite lookup_empty.
    + intros msg. cbn [snd]. split; [by intros H; inversion H|].
      intros (n & (k & t & e & s & Hk & _) & _). by rewrite lookup_empty in Hk.
  - intros i x m [tabs log] Hi [Htabs Hlog]. cbn [fst snd] in Htabs, Hlog.
    unfold mergeTable.
    destruct (extendSchemas !! i) as [e|] eqn:He.
    + destruct (mergeColumns_fold x log e) as [Htable Hlog'].
      destruct (map_fold mergeColumn (x, log) e) as [table' log'].
      cbn [fst snd] in *. subst table'. split.
      * intros k. destruct (decide (i = k)) as [<-|Hne].
        -- rewrite !lookup_insert_eq, He. unfold mergedTable. by rewrite He.
        -- rewrite !lookup_insert_ne by done. apply Htabs.
      * intros msg. rewrite Hlog', Hlog. split.
        -- intros [(n & (k & t & e' & s & Hk & Hrest) & ->)|(n & s & Hn & Hno & ->)].
           ++ exists n. split; [|done]. exists k, t, e', s. split; [|done].
              rewrite lookup_insert_ne; [done|]. intros ->. congruence.
           ++ exists n. split; [|done]. exists i, x, e, s.
              split; [apply lookup_insert_eq|done].
        -- intros (n & (k & t & e' & s & Hk & He' & Hn & Hno) & ->).
           destruct (decide (i = k)) as [<-|Hne].
           ++ rewrite lookup_insert_eq in Hk. injection Hk as <-.
              rewrite He in He'. injection He' as <-.
              right. by exists n, s.
           ++ rewrite lookup_insert_ne in Hk by done.
              left. exists n. split; [|done]. by exists k, t, e', s.
    + cbn [fst snd]. split.
      * intros k. destruct (decide (i = k)) as [<-|Hne].
        -- rewrite lookup_insert_eq, He, Htabs, Hi. done.
        -- rewrite lookup_insert_ne by done. apply Htabs.
      * intros msg. rewrite Hlog. split.
        -- intros (n & (k & t & e' & s & Hk & Hrest) & ->).
           exists n. split; [|done]. exists k, t, e', s. split; [|done].
           rewrite lookup_insert_ne; [done|]. intros ->. congruence.
        -- intros (n & (k & t & e' & s & Hk & He' & Hrest) & ->).
           exists n. split; [|done]. exists k, t, e', s. split; [|done].
           rewrite lookup_insert_ne in Hk; [done|]. intros ->. congruence.
Qed.

(** the console output of the loop over the entries of one table, up to
    the order of the lines *)
Lemma mergeColumns_log (table : Table.t) (log0 : list str)
    (extendSchema : gmap str ExtendColumnSchema.t) :
  snd (map_fold mergeColumn (table, log0) extendSchema)
  ≡ₚ log0 ++ missingIn table extendSchema.
Proof.
  cut (fst (map_fold mergeColumn (table, log0) extendSchema)
       = Table.Make (Table.name table)
           (mergedColumns extendSchema [] (Table.columns table))
       /\ snd (map_fold mergeColumn (table, log0) extendSchema)
          ≡ₚ log0 ++ missingIn table extendSchema); [by intros [_ ?]|].
  apply (map_fold_weak_ind
    (fun (r : Table.t * list str) (e : gmap str ExtendColumnSchema.t) =>
       fst r = Table.Make (Table.name table) (mergedColumns e [] (Table.columns table))
       /\ snd r ≡ₚ log0 ++ missingIn table e)).
  - split.
    + cbn [fst]. destruct table as [tn cols]. cbn [Table.name Table.columns].
      by rewrite mergedColumns_empty.
    + unfold missingIn. rewrite map_to_list_empty. cbn. by rewrite app_nil_r.
  - intros n s e [table' log'] He [Htable Hlog]. cbn [fst snd] in Htable, Hlog.
    subst table'.
    assert (Table.findColumnByName n
              (Table.Make (Table.name table)
                 (mergedColumns e [] (Table.columns table)))
            = Table.findColumnByName n table) as Hf.
    { unfold Table.findColumnByName. cbn [Table.columns].
      fold (findByName n (mergedColumns e [] (Table.columns table))).
      rewrite findByName_merged by (by intros H; inversion H). by rewrite He. }
    assert (missingIn table (<[n:=s]> e)
            ≡ₚ match Table.findColumnByName n table with
               | Some _ => []
               | None => [missingColumnMessage n]
               end ++ missingIn table e) as Hmiss.
    { unfold missingIn. rewrite (map_to_list_insert e n s He). by rewrite bind_cons. }
    unfold mergeColumn. rewrite Hf. cbn [Table.columns Table.name].
    change (TableColumn.overlay _ _ _) with (overlaySchema s).
    rewrite Hmiss.
    destruct (Table.findColumnByName n table) as [column|] eqn:Hfind; cbn [fst snd].
    + split; [|exact Hlog].
      by rewrite assignColumn_merged by (done || by intros H; inversion H).
    + split; [by rewrite mergedColumns_insert_absent|].
      rewrite Hlog. rewrite <- app_assoc. apply Permutation_app_head.
      apply Permutation_app_comm.
Qed.

(** the console output of the loop over the tables, up to the order of
    the lines *)
Lemma mergeTables_log extendSchemas (tables0 tables : gmap str Table.t) :
  snd (map_fold (mergeTable extendSchemas) (tables0, []) tables)
  ≡ₚ missingMessages tables extendSchemas.
Proof.
  apply (map_fold_weak_ind
    (fun (r : gmap str Table.t * list str) (m : gmap str Table.t) =>
       snd r ≡ₚ missingMessages m extendSchemas)).
  - unfold missingMessages. by rewrite map_to_list_empty.
  - intros i x m [tabs log] Hi Hlog. cbn [snd] in Hlog.
    assert (missingMessages (<[i:=x]> m) extendSchemas
            ≡ₚ missingOf extendSchemas i x ++ missingMessages m extendSchemas)
      as Hmiss.
    { unfold missingMessages. rewrite (map_to_list_insert m i x Hi).
      by rewrite bind_cons. }
    rewrite Hmiss. unfold mergeTable, missingOf.
    destruct (extendSchemas !! i) as [e|] eqn:He.
    + pose proof (mergeColumns_log x log e) as Hcols.
      destruct (map_fold mergeColumn (x, log) e) as [table' log'].
      cbn [snd] in *. rewrite Hcols, Hlog. apply Permutation_app_comm.
    + cbn [snd]. exact Hlog.
Qed.

Lemma overlaySchema_fields columnSchema (c : TableColumn.t) :
  (TableColumn.isGenerated (overlaySchema columnSchema c) = true
   <-> ExtendColumnSchema.generator columnSchema <> None)
  /\ TableColumn.default (overlaySchema columnSchema c)
     = ExtendColumnSchema.default columnSchema
  /\ TableColumn.generationStrategy (overlaySchema columnSchema c)
     = ExtendColumnSchema.generatorStorategy columnSchema
  /\ sameOtherwise c (overlaySchema columnSchema c).
Proof.
  split; [|by repeat split].
  cbn [overlaySchema TableColumn.isGenerated].
  destruct (ExtendColumnSchema.generator columnSchema); split; done.
Qed.

(** C8: updateTableWithExtendSchema returns, whatever the extended schema
    holds.  Each table with an extended schema is merged and the other
    tables are kept; for each entry of a table, the column of that name
    becomes generated exactly when the entry has a generator and takes
    the default and the generation strategy of the entry, its other
    attributes being kept, when the table has the column; otherwise the
    table has no such column afterwards either and the entry is written
    to the console.  One line is written for each entry without its
    column and nothing else is written. *)
Theorem updateTableWithExtendSchema_merge tables extendSchemas :
  exists tables' log,
    updateTableWithExtendSchema tables extendSchemas = (tables', log, extendSchemas)
    /\ (forall tableName,
          tables' !! tableName
          = mergedTable extendSchemas tableName <$> tables !! tableName)
    /\ (forall tableName table extendSchema columnName columnSchema,
          tables !! tableName = Some table ->
          extendSchemas !! tableName = Some extendSchema ->
          extendSchema !! columnName = Some columnSchema ->
          exists table',
            tables' !! tableName = Some table'
            /\ match Table.findColumnByName columnName table with
               | Some column =>
                   exists column',
                     Table.findColumnByName columnName table' = Some column'
                     /\ (TableColumn.isGenerated column' = true
                         <-> ExtendColumnSchema.generator columnSchema <> None)
                     /\ TableColumn.default column'
                        = ExtendColumnSchema.default columnSchema
                     /\ TableColumn.generationStrategy column'
                        = ExtendColumnSchema.generatorStorategy columnSchema
                     /\ sameOtherwise column column'
               | None =>
                   Table.findColumnByName columnName table' = None
                   /\ missingColumnMessage columnName ∈ log
               end)
    /\ (forall tableName table extendSchema columnName,
          tables !! tableName = Some table ->
          extendSchemas !! tableName = Some extendSchema ->
          extendSchema !! columnName = None ->
          exists table',
            tables' !! tableName = Some table'
            /\ Table.findColumnByName columnName table'
               = Table.findColumnByName columnName table)
    /\ (forall msg,
          msg ∈ log <->
          exists columnName,
            missingEntry tables extendSchemas columnName
            /\ msg = missingColumnMessage columnName)
    /\ log ≡ₚ missingMessages tables extendSchemas.
Proof.
  unfold updateTableWithExtendSchema.
  destruct (mergeTables_fold extendSchemas tables tables) as [Htabs Hlog].
  pose proof (mergeTables_log extendSchemas tables tables) as Hperm.
  destruct (map_fold (mergeTable extendSchemas) (tables, []) tables) as [tables' log].
  cbn [fst snd] in *. exists tables', log.
  assert (forall tableName,
            tables' !! tableName
            = mergedTable extendSchemas tableName <$> tables !! tableName) as Hall.
  { intros k. rewrite Htabs. unfold mergedTable.
    destruct (tables !! k); [|done]. by destruct (extendSchemas !! k). }
  split; [done|]. split; [exact Hall|].
  split; [|split; [|split; [exact Hlog|exact Hperm]]].
  - intros tableName table e n s Ht He Hn.
    eexists. split; [by rewrite Hall, Ht|].
    unfold mergedTable. rewrite He. unfold Table.findColumnByName at 2 3.
    cbn [Table.columns].
    fold (findByName n (mergedColumns e [] (Table.columns table))).
    rewrite findByName_merged by (by intros H; inversion H). rewrite Hn.
    fold (findByName n (Table.columns table)).
    change (Table.findColumnByName n table) with (findByName n (Table.columns table)).
    destruct (findByName n (Table.columns table)) as [column|] eqn:Hfind.
    + exists (overlaySchema s column). split; [done|].
      apply overlaySchema_fields.
    + split; [done|]. apply Hlog. exists n. split; [|done].
      by exists tableName, table, e, s.
  - intros tableName table e n Ht He Hn.
    eexists. split; [by rewrite Hall, Ht|].
    unfold mergedTable. rewrite He. unfold Table.findColumnByName at 1.
    cbn [Table.columns].
    fold (findByName n (mergedColumns e [] (Table.columns table))).
    rewrite findByName_merged by (by intros H; inversion H). by rewrite Hn.
Qed.

Lemma updateTableWithExtendSchema_merge_witness :
  exists tables' log table' column',
    updateTableWithExtendSchema {[ txt "users" := usersTable ]}
      {[ txt "users" := usersExtendSchema ]}
    = (tables', log, {[ txt "users" := usersExtendSchema ]})
    /\ tables' !! txt "users" = Some table'
    /\ Table.findColumnByName (txt "id") table' = Some column'
    /\ TableColumn.isGenerated column' = true
    /\ TableColumn.default column' = None
    /\ TableColumn.generationStrategy column' = Some (txt "uuid")
    /\ TableColumn.type column' = txt "string"
    /\ missingColumnMessage (txt "gone") ∈ log.
Proof.
  destruct (updateTableWithExtendSchema_merge {[ txt "users" := usersTable ]}
              {[ txt "users" := usersExtendSchema ]})
    as (tables' & log & Hrun & _ & Hentry & _ & _).
  destruct (Hentry (txt "users") usersTable usersExtendSchema (txt "id")
              (ExtendColumnSchema.Make (Some GeneratorFn) None (Some (txt "uuid"))))
    as (table' & Htable & Hid); [vm_compute; reflexivity..|].
  destruct (Hentry (txt "users") usersTable usersExtendSchema (txt "gone")
              (ExtendColumnSchema.Make None (Some (txt "0")) None))
    as (table'' & _ & _ & Hgone); [vm_compute; reflexivity..|].
  change (Table.findColumnByName (txt "id") usersTable)
    with (Some (TableColumn.Make (txt "id") (txt "string") (txt "36") NumUndefined
                  NumUndefined NumUndefined false false None None None None true false
                  false false None)) in Hid.
  destruct Hid as (column' & Hfind & Hgen & Hdef & Hstrat & Hsame).
  exists tables', log, table', column'.
  split; [exact Hrun|]. split; [exact Htable|]. split; [exact Hfind|].
  split; [by apply Hgen|]. split; [exact Hdef|]. split; [exact Hstrat|].
  split; [|exact Hgone].
  destruct Hsame as (_ & Htype & _). by rewrite <- Htype.
Defined.

End MergerTheorems.

(* ===================================================================== *)
(** ** The schema differ: the whole comparison, types and defaults *)

Section DifferMore.

Implicit Types (tableColumns : list TableColumn.t)
               (columnMetadatas : list ColumnMetadata.t)
               (d : ColumnMetadata.t).

Lemma differs_false_iff {A : Type} `{EqDecision A} (a b : A) :
  differs a b = false <-> a = b.
Proof. unfold differs. rewrite negb_false_iff. apply bool_decide_eq_true. Qed.

Lemma columnChanged_false c d :
  columnChanged c d = false
  <-> TableColumn.name c = ColumnMetadata.databaseName d /\ unchangedColumn c d.
Proof.
  unfold columnChanged, unchangedColumn.
  rewrite !orb_false_iff, andb_false_iff, negb_false_iff,
    compareDefaultValues_sameDefault, !differs_false_iff.
  tauto.
Qed.

(** X1: findChangedColumns reports exactly the desired columns for which
    the first live column of their database name differs on a compared
    attribute; a difference of the generated flag alone is not reported
    when the desired generation strategy is uuid. *)
Theorem findChangedColumns_exactly tableColumns columnMetadatas d :
  d ∈ findChangedColumns tableColumns columnMetadatas
  <-> d ∈ columnMetadatas
      /\ exists c, findTableColumn tableColumns d = Some c
                   /\ ~ unchangedColumn c d.
Proof.
  unfold findChangedColumns. rewrite list_elem_of_filter. unfold isChanged.
  destruct (findTableColumn tableColumns d) as [c|] eqn:Hfind.
  - destruct (findTableColumn_Some _ _ _ Hfind) as [_ Hname].
    pose proof (columnChanged_false c d) as Hiff.
    destruct (columnChanged c d); simpl; split.
    + intros [_ Hin]. split; [done|]. exists c. split; [done|].
      intros Hun. by pose proof (proj2 Hiff (conj Hname Hun)).
    + intros [Hin _]. done.
    + by intros [[] _].
    + intros [_ (c' & [= <-] & Hno)]. destruct Hno. by apply Hiff.
  - simpl. split; [by intros [[] _]|]. by intros [_ (c & ? & _)].
Qed.

(** X2: normalizeType never gives one of the names it resolves (integer,
    nvarchar, simple-array, simple-json), and a column whose type is
    already the name normalizeType gave is normalized to that same name. *)
Theorem normalizeType_native d :
  (normalizeType d ∉ typeAliases)
  /\ forall d', ColumnMetadata.type d' = TName (normalizeType d) ->
                normalizeType d' = normalizeType d.
Proof.
  assert (forall n : str, n ∉ typeAliases ->
            forall d', ColumnMetadata.type d' = TName n -> normalizeType d' = n)
    as Hfix.
  { intros n Hn d' Hd'. unfold normalizeType. rewrite Hd'.
    unfold typeAliases in Hn. rewrite !not_elem_of_cons in Hn.
    destruct Hn as (H1 & H2 & H3 & H4 & _).
    by rewrite !bool_decide_eq_false_2 by done. }
  assert (normalizeType d ∉ typeAliases) as Hno.
  { unfold normalizeType, typeAliases.
    destruct (ColumnMetadata.type d) as [| | | | |n];
      try (rewrite !not_elem_of_cons; repeat split;
           [discriminate..|apply not_elem_of_nil]).
    repeat case_bool_decide;
      simpl; rewrite !not_elem_of_cons; repeat split;
      try discriminate; try done; apply not_elem_of_nil. }
  split; [exact Hno|]. intros d' Hd'. by apply Hfix.
Qed.

Lemma normalizeType_native_witness :
  normalizeType (columnOfType (TName (normalizeType (columnOfType (TName (txt "nvarchar"))))))
  = normalizeType (columnOfType (TName (txt "nvarchar"))).
Proof.
  apply (proj2 (normalizeType_native (columnOfType (TName (txt "nvarchar"))))).
  reflexivity.
Defined.

Lemma strip_one_layer_quoted (s : str) : strip_one_layer (txt "'" ++ s ++ txt "'") = s.
Proof.
  unfold strip_one_layer. cbn [txt list_ascii_of_string app strip_leading_one].
  change (is_quote "'") with true. cbv iota.
  apply strip_trailing_one_snoc.
Qed.

Lemma strip_quotes_quoted (s : str) :
  strip_quotes (txt "'" ++ s ++ txt "'") = strip_quotes s.
Proof.
  rewrite <- (strip_quotes_one_layer (txt "'" ++ s ++ txt "'")).
  by rewrite strip_one_layer_quoted.
Qed.

(** X3: a desired default that is a string is taken for equal to a live
    default holding the same string, with quotes around it or without. *)
Theorem string_default_unchanged d (s : str) :
  ColumnMetadata.isUpdateDate d = false ->
  ColumnMetadata.default d = DString s ->
  compareDefaultValues (normalizeDefault d) (Some s) = true
  /\ compareDefaultValues (normalizeDefault d) (Some (txt "'" ++ s ++ txt "'")) = true.
Proof.
  intros Hupd Hdef. unfold normalizeDefault. rewrite Hupd, Hdef.
  split; apply compareDefaultValues_sameDefault; simpl; [|done].
  apply strip_quotes_quoted.
Qed.

Lemma string_default_unchanged_witness :
  compareDefaultValues
    (normalizeDefault (columnWithDefault (DString (txt "now")) false))
    (Some (txt "now")) = true.
Proof.
  apply (string_default_unchanged (columnWithDefault (DString (txt "now")) false)
           (txt "now")); reflexivity.
Defined.

(** X4: for an update-date column normalizeDefault is the commit
    timestamp whatever default is declared, so the default passes the
    comparison exactly when the live column has a default that is
    commit_timestamp once its quotes are cut; against a live column
    without default it never passes. *)
Theorem update_date_default d (live : option str) :
  ColumnMetadata.isUpdateDate d = true ->
  (compareDefaultValues (normalizeDefault d) live = true
   <-> exists v, live = Some v
                 /\ strip_quotes v = SpannerColumnUpdateWithCommitTimestamp)
  /\ compareDefaultValues (normalizeDefault d) None = false.
Proof.
  intros Hupd. unfold normalizeDefault. rewrite Hupd. split.
  - rewrite compareDefaultValues_sameDefault. unfold sameDefault.
    destruct live as [v|].
    + change (strip_quotes SpannerColumnUpdateWithCommitTimestamp)
        with SpannerColumnUpdateWithCommitTimestamp.
      split; [intros H; by exists v|by intros (v' & [= <-] & ->)].
    + split; [intros []|by intros (v' & ? & _)].
  - done.
Qed.

Lemma update_date_default_witness :
  compareDefaultValues
    (normalizeDefault (columnWithDefault (DNumber 7) true)) None = false.
Proof.
  apply (update_date_default (columnWithDefault (DNumber 7) true) None).
  reflexivity.
Defined.

Lemma strip_trailing_keeps (s : str) :
  match last s with Some c => is_quote c = false | None => True end ->
  strip_trailing s = s.
Proof.
  induction s as [|c s IH]; [done|]. intros Hlast.
  cbn [strip_trailing].
  destruct (forallb is_quote (c :: s)) eqn:Hall.
  - exfalso. destruct (last (c :: s)) as [x|] eqn:Hx; [|by apply last_None in Hx].
    apply last_Some in Hx as (l' & Heq). rewrite Heq in Hall.
    rewrite forallb_app in Hall. simpl in Hall.
    rewrite Hlast in Hall. by rewrite andb_false_r in Hall.
  - f_equal. apply IH. destruct s as [|y s]; [done|]. exact Hlast.
Qed.

Lemma strip_trailing_last (s : str) :
  match last (strip_trailing s) with
  | Some c => is_quote c = false
  | None => True
  end.
Proof.
  induction s as [|c s IH]; [done|]. cbn [strip_trailing].
  destruct (forallb is_quote (c :: s)) eqn:Hall; [done|].
  destruct (strip_trailing s) as [|y t] eqn:Hs.
  - simpl. simpl in Hall. destruct (is_quote c); [|done].
    simpl in Hall. destruct s as [|x s]; [done|].
    cbn [strip_trailing] in Hs. by rewrite Hall in Hs.
  - exact IH.
Qed.

Lemma drop_while_head (s : str) :
  match head (drop_while is_quote s) with
  | Some c => is_quote c = false
  | None => True
  end.
Proof.
  induction s as [|c s IH]; [done|]. simpl.
  destruct (is_quote c) eqn:Hc; [exact IH|]. simpl. exact Hc.
Qed.

Lemma strip_trailing_head_keeps (s : str) c :
  head s = Some c -> is_quote c = false -> head (strip_trailing s) = Some c.
Proof.
  destruct s as [|x s]; [done|]. intros [= ->] Hc. simpl. by rewrite Hc.
Qed.

Lemma drop_while_keeps (s : str) :
  match head s with Some c => is_quote c = false | None => True end ->
  drop_while is_quote s = s.
Proof. destruct s as [|c s]; [done|]. simpl. by intros ->. Qed.

(** X5: what cutQuotes returns neither starts nor ends with a quote, and
    cutting it again changes nothing. *)
Theorem cutQuotes_clean (s : str) :
  (forall c, head (cutQuotes s) = Some c -> is_quote c = false)
  /\ (forall c, last (cutQuotes s) = Some c -> is_quote c = false)
  /\ cutQuotes (cutQuotes s) = cutQuotes s.
Proof.
  rewrite !cutQuotes_strip.
  assert (forall c, head (strip_quotes s) = Some c -> is_quote c = false) as Hhead.
  { intros c Hc. unfold strip_quotes in Hc.
    pose proof (drop_while_head s) as Hd.
    destruct (drop_while is_quote s) as [|x u] eqn:Hu; [done|].
    simpl in Hd. rewrite (strip_trailing_head_keeps (x :: u) x) in Hc by done.
    by injection Hc as <-. }
  assert (forall c, last (strip_quotes s) = Some c -> is_quote c = false) as Hlast.
  { intros c Hc. unfold strip_quotes in Hc.
    pose proof (strip_trailing_last (drop_while is_quote s)) as Hl.
    by rewrite Hc in Hl. }
  split; [exact Hhead|]. split; [exact Hlast|].
  unfold strip_quotes at 1.
  rewrite drop_while_keeps.
  - apply strip_trailing_keeps.
    destruct (last (strip_quotes s)) as [c|] eqn:Hc; [by apply Hlast|done].
  - destruct (head (strip_quotes s)) as [c|] eqn:Hc; [by apply Hhead|done].
Qed.

(** X6: compareDefaultValues is an equivalence on defaults: every default
    equals itself, the order of the two does not matter, and two defaults
    equal to a third are equal. *)
Theorem compareDefaultValues_equivalence :
  (forall a, compareDefaultValues a a = true)
  /\ (forall a b, compareDefaultValues a b = compareDefaultValues b a)
  /\ (forall a b c,
        compareDefaultValues a b = true -> compareDefaultValues b c = true ->
        compareDefaultValues a c = true).
Proof.
  split; [|split].
  - intros a. apply compareDefaultValues_sameDefault. by destruct a.
  - intros a b.
    destruct (compareDefaultValues a b) eqn:Hab; symmetry.
    + apply compareDefaultValues_sameDefault.
      apply compareDefaultValues_sameDefault in Hab.
      destruct a, b; simpl in *; done.
    + destruct (compareDefaultValues b a) eqn:Hba; [|done].
      rewrite <- Hab. symmetry. apply compareDefaultValues_sameDefault.
      apply compareDefaultValues_sameDefault in Hba.
      destruct a, b; simpl in *; done.
  - intros a b c Hab Hbc. apply compareDefaultValues_sameDefault.
    apply compareDefaultValues_sameDefault in Hab.
    apply compareDefaultValues_sameDefault in Hbc.
    destruct a, b, c; simpl in *; try done. congruence.
Qed.

Lemma compareDefaultValues_equivalence_witness :
  compareDefaultValues (Some (txt "'a'")) (Some (txt "''a''")) = true.
Proof.
  apply (proj2 (proj2 compareDefaultValues_equivalence)
           (Some (txt "'a'")) (Some (txt "a")) (Some (txt "''a''")));
    vm_compute; reflexivity.
Defined.

End DifferMore.

(* ===================================================================== *)
(** ** Full types: written by createFullType, read by parseTypeName *)

Section FullTypeFacts.

Lemma bracketed_shape p1 p2 o c name inner rest :
  name <> [] -> Forall (fun x => p1 x = true) name -> p1 o = false ->
  inner <> [] -> Forall (fun x => p2 x = true) inner -> p2 c = false ->
  match_here (bracketed_re p1 p2 o c) [] (name ++ [o] ++ inner ++ [c] ++ rest)
  = Some (RMatched (name ++ [o] ++ inner ++ [c]) [(2, inner); (1, name)]).
Proof.
  intros Hname Hp1 Ho Hinner Hp2 Hc.
  destruct name as [|n0 name]; [done|]. destruct inner as [|d0 inner]; [done|].
  inversion Hp1 as [|? ? Hn0 Hp1']; subst.
  inversion Hp2 as [|? ? Hd0 Hp2']; subst.
  unfold match_here, bracketed_re.
  cbn [seqs fold_right rmatch app].
  rewrite rmatch_plus_chr by done.
  set (whole := n0 :: name ++ [o] ++ d0 :: inner ++ [c]).
  set (final := MState (rev whole) rest [(2, d0 :: inner); (1, n0 :: name)]).
  rewrite (star_chr_all _ _ name [n0] _ [] final).
  - f_equal. f_equal. apply consumed_extends. simpl. by rewrite app_nil_r.
  - done.
  - exact Ho.
  - rewrite (consumed_extends [] _ [] (n0 :: name)) by (simpl; by rewrite app_nil_r).
    unfold set_cap. cbn [before after caps].
    rewrite rmatch_lit. cbn [after strip_prefix app].
    rewrite Ascii.eqb_refl. cbn [before caps rev app].
    rewrite rmatch_plus_chr by done.
    rewrite (star_chr_all _ _ inner _ (c :: rest) _ final).
    + done.
    + done.
    + exact Hc.
    + rewrite (consumed_extends _ _ _ (d0 :: inner)) by (simpl; by rewrite <- !app_assoc).
      unfold set_cap. cbn [before after caps].
      rewrite rmatch_lit. cbn [after strip_prefix]. rewrite Ascii.eqb_refl.
      cbn [before caps]. unfold final, whole. f_equal. f_equal.
      change (n0 :: name ++ [o] ++ d0 :: inner ++ [c])
        with ((n0 :: name) ++ (o :: d0 :: inner) ++ [c]).
      rewrite !rev_app_distr. simpl. by rewrite <- !app_assoc.
Qed.

Lemma no_paren_class name :
  no_paren name -> Forall (fun x => not_char "(" x = true) name.
Proof.
  intros H. eapply Forall_impl; [exact H|]. intros x Hx. by apply not_char_true.
Qed.

Lemma digit_not_close x : is_digit x = true -> x <> ")"%char /\ x <> "("%char.
Proof. intros Hx. split; intros ->; discriminate. Qed.

Lemma word_not_bracket x :
  is_word x = true -> x <> "("%char /\ x <> "<"%char /\ x <> ">"%char.
Proof. intros Hx. repeat split; intros ->; discriminate. Qed.

(** the length pattern on a sized type followed by anything *)
Lemma sized_type_prefix name digits rest :
  name <> [] -> no_paren name -> digits <> [] -> digits_only digits ->
  parseTypeName (name ++ txt "(" ++ digits ++ txt ")" ++ rest)
  = ParsedType.Make (toLowerCase name) false (Number digits).
Proof.
  intros Hname Hnp Hdigits Hdig.
  unfold parseTypeName, re_match.
  pose proof (bracketed_shape (not_char "(") is_digit "(" ")" name digits rest
                Hname (no_paren_class _ Hnp) eq_refl Hdigits Hdig eq_refl) as Hm.
  destruct name as [|n0 name]; [done|].
  cbn [search app]. cbn [app] in Hm.
  change (match_here sized_type_re [] (n0 :: name ++ txt "(" ++ digits ++ txt ")" ++ rest))
    with (match_here (bracketed_re (not_char "(") is_digit "(" ")") []
            (n0 :: name ++ "("%char :: digits ++ ")"%char :: rest)).
  rewrite Hm. reflexivity.
Qed.

(** X7: a sized type token followed by anything, as an array of sized
    elements, is read by parseTypeName as a plain type: the name is the
    text before the first parenthesis in lower case, the array flag is
    not set, and the length is the number between the parentheses when
    that number is below 2^53. *)
Theorem parseTypeName_sized_prefix name digits rest :
  name <> [] -> no_paren name -> digits <> [] -> digits_only digits ->
  (decimal digits < safe_bound)%N ->
  parseTypeName (name ++ txt "(" ++ digits ++ txt ")" ++ rest)
  = ParsedType.Make (toLowerCase name) false (Whole (decimal digits)).
Proof.
  intros Hname Hnp Hdigits Hdig Hsafe.
  rewrite sized_type_prefix by done. by rewrite Number_safe.
Qed.

Lemma parseTypeName_sized_prefix_witness :
  parseTypeName (txt "ARRAY<STRING(255)>")
  = ParsedType.Make (txt "array<string") false (Whole 255).
Proof.
  apply (parseTypeName_sized_prefix (txt "ARRAY<STRING") (txt "255") (txt ">")).
  - discriminate.
  - unfold no_paren. repeat constructor; discriminate.
  - discriminate.
  - unfold digits_only. repeat constructor.
  - vm_compute. reflexivity.
Defined.

(** X8: for a column whose type is a non-empty text without opening
    parenthesis and whose length (its own, or the default of its type) is
    a run of digits for a number below 2^53, the full type createFullType
    writes is read back by parseTypeName with the lower-case type name
    and that length; when the column is an array the name read back
    begins with array< and the array flag is lost. *)
Theorem createFullType_parseTypeName column isArray :
  TableColumn.type column <> [] -> no_paren (TableColumn.type column) ->
  getColumnLength (TableColumn.length column) (TName (TableColumn.type column)) <> [] ->
  digits_only
    (getColumnLength (TableColumn.length column) (TName (TableColumn.type column))) ->
  (decimal (getColumnLength (TableColumn.length column)
              (TName (TableColumn.type column))) < safe_bound)%N ->
  parseTypeName (createFullType column isArray)
  = ParsedType.Make
      (toLowerCase ((if isArray then txt "Array<" else []) ++ TableColumn.type column))
      false
      (Whole (decimal (getColumnLength (TableColumn.length column)
                         (TName (TableColumn.type column))))).
Proof.
  intros Htype Hnp Hlen Hdig Hsafe. unfold createFullType.
  destruct (getColumnLength _ _) as [|l0 len]; [done|]. cbn [nonEmpty].
  rewrite <- (Number_safe (l0 :: len)) by done.
  destruct isArray.
  - replace (txt "Array<" ++
             (TableColumn.type column ++ txt "(" ++ (l0 :: len) ++ txt ")") ++ txt ">")
      with ((txt "Array<" ++ TableColumn.type column)
            ++ txt "(" ++ (l0 :: len) ++ txt ")" ++ txt ">")
      by (rewrite <- !app_assoc; reflexivity).
    apply sized_type_prefix; [|apply Forall_app; split|discriminate|done].
    + by destruct (TableColumn.type column).
    + unfold no_paren. repeat constructor; discriminate.
    + exact Hnp.
  - cbn [app]. apply (sized_type_prefix _ (l0 :: len) []); done.
Qed.

Lemma createFullType_parseTypeName_witness :
  parseTypeName (createFullType (typedColumn (txt "string") []) true)
  = ParsedType.Make (txt "array<string") false (Whole 255).
Proof.
  apply (createFullType_parseTypeName (typedColumn (txt "string") []) true).
  - discriminate.
  - unfold no_paren. repeat constructor; discriminate.
  - discriminate.
  - unfold digits_only. repeat constructor.
  - vm_compute. reflexivity.
Defined.

Lemma word_only_no_paren s : word_only s -> no_paren s.
Proof.
  intros H. eapply Forall_impl; [exact H|]. intros x Hx.
  by destruct (word_not_bracket x Hx).
Qed.

(** X9: an array column without length, width and precision, whose type
    is a word other than string and bytes, is written as Array<type>, and
    parseTypeName reads that back as an array of length 1 whose type name
    is the whole text in lower case. *)
Theorem createFullType_array column :
  TableColumn.type column <> [] -> word_only (TableColumn.type column) ->
  TableColumn.type column <> txt "string" ->
  TableColumn.type column <> txt "bytes" ->
  TableColumn.length column = [] ->
  numTruthy (TableColumn.width column) = false ->
  numPresent (TableColumn.precision column) = false ->
  createFullType column true = txt "Array<" ++ TableColumn.type column ++ txt ">"
  /\ parseTypeName (createFullType column true)
     = ParsedType.Make
         (toLowerCase (txt "Array<" ++ TableColumn.type column ++ txt ">")) true (Whole 1).
Proof.
  intros Htype Hword Hs Hb Hlen Hwidth Hprec.
  assert (createFullType column true
          = txt "Array<" ++ TableColumn.type column ++ txt ">") as Hfull.
  { unfold createFullType, getColumnLength. rewrite Hlen. cbn [nonEmpty].
    rewrite !bool_decide_eq_false_2 by done. cbn [nonEmpty].
    rewrite Hwidth, Hprec. reflexivity. }
  split; [exact Hfull|]. rewrite Hfull.
  unfold parseTypeName.
  rewrite sized_type_no_paren.
  2:{ apply Forall_app. split; [repeat constructor; discriminate|].
      apply Forall_app. split; [by apply word_only_no_paren|].
      repeat constructor; discriminate. }
  unfold re_match. cbn [search txt list_ascii_of_string app].
  pose proof (bracketed_shape (not_char "<") is_word "<" ">" (txt "Array")
                (TableColumn.type column) []) as Hm.
  change (match_here array_type_re []
            ("A"%char :: "r"%char :: "r"%char :: "a"%char :: "y"%char :: "<"%char
             :: TableColumn.type column ++ [">"%char]))
    with (match_here (bracketed_re (not_char "<") is_word "<" ">") []
            (txt "Array" ++ ["<"%char] ++ TableColumn.type column ++ [">"%char] ++ [])).
  rewrite Hm; [reflexivity|discriminate| |reflexivity|done|done|reflexivity].
  repeat constructor.
Qed.

Lemma createFullType_array_witness :
  parseTypeName (createFullType (typedColumn (txt "int64") []) true)
  = ParsedType.Make (txt "array<int64>") true (Whole 1).
Proof.
  apply (createFullType_array (typedColumn (txt "int64") []));
    try discriminate; try reflexivity.
  unfold word_only. repeat constructor.
Defined.

End FullTypeFacts.

(* ===================================================================== *)
(** ** Values on their way to and from the database *)

Section ValueFacts.

Variable mixedDateToDate : value -> value.

Lemma plain_not_date type : isPlainType type = true -> isDateType type = false.
Proof.
  destruct type as [| | | | |n]; simpl; try done.
  rewrite !orb_true_iff, !bool_decide_eq_true.
  intros Hn. apply orb_false_iff.
  rewrite !bool_decide_eq_false. split; intros ->;
    decompose [or] Hn; discriminate.
Qed.

Lemma date_normalized d :
  isDateType (TName (normalizeType d)) = isDateType (ColumnMetadata.type d).
Proof.
  unfold normalizeType.
  destruct (ColumnMetadata.type d) as [| | | | |n]; try reflexivity.
  repeat case_bool_decide; subst; try reflexivity.
  all: simpl; rewrite ?orb_false_r; cbn [orb]; reflexivity.
Qed.

Lemma plain_normalized d :
  isPlainType (ColumnMetadata.type d) = true ->
  isPlainType (TName (normalizeType d)) = true.
Proof.
  unfold normalizeType.
  destruct (ColumnMetadata.type d) as [| | | | |n]; try done.
  intros Hn. repeat case_bool_decide; subst; try done.
Qed.

(** X10: a value of a column declared Boolean, Buffer, integer, nvarchar,
    simple-array or simple-json is refused with DataTypeNotSupportedError
    by preparePersistentValue when the value, after the to of the
    transformer if the column has one, is not null or undefined, and by
    prepareHydratedValue when the value is not null or undefined;
    although normalizeType resolves each of these types to a name for
    which both functions accept the value. *)
Theorem prepare_unnormalized_refused d (v : value)
    (transformer : option ValueTransformer) :
  ColumnMetadata.type d ∈ unnormalizedTypes ->
  (nullish (afterTo transformer v) = false ->
   preparePersistentValue mixedDateToDate v transformer (ColumnMetadata.type d)
   = DataTypeNotSupported (ColumnMetadata.type d)
   /\ preparePersistentValue mixedDateToDate v transformer (TName (normalizeType d))
      = Prepared (afterTo transformer v))
  /\ (nullish v = false ->
      prepareHydratedValue mixedDateToDate v transformer (ColumnMetadata.type d)
      = DataTypeNotSupported (ColumnMetadata.type d)
      /\ prepareHydratedValue mixedDateToDate v transformer (TName (normalizeType d))
         = Prepared (afterFrom transformer v)).
Proof.
  intros Hin. unfold preparePersistentValue, prepareHydratedValue, normalizeType.
  fold (afterTo transformer v).
  unfold unnormalizedTypes in Hin. rewrite !elem_of_cons in Hin.
  split; intros Hv; rewrite Hv;
    destruct Hin as [->|[->|[->|[->|[->|[->|Hin]]]]]];
    try (by apply elem_of_nil in Hin);
    (split; [reflexivity|]); by destruct transformer.
Qed.

(** X11: a value that preparePersistentValue accepts for the declared
    type of a column is accepted, with the same result, for the name
    normalizeType gives that type: the name is a date type exactly when
    the declared type is, and a plain type whenever the declared type
    is. *)
Theorem prepare_normalized d (v w : value) (transformer : option ValueTransformer) :
  preparePersistentValue mixedDateToDate v transformer (ColumnMetadata.type d)
  = Prepared w ->
  preparePersistentValue mixedDateToDate v transformer (TName (normalizeType d))
  = Prepared w.
Proof.
  unfold preparePersistentValue.
  destruct (nullish _); [done|].
  rewrite date_normalized.
  destruct (isDateType (ColumnMetadata.type d)); [done|].
  destruct (isPlainType (ColumnMetadata.type d)) eqn:Hp; [|done].
  by rewrite plain_normalized.
Qed.

(** X12: with a transformer whose from undoes its to on a value, and
    whose to does not give null or undefined for it, a value persisted
    for a column of a plain type and hydrated again is the value itself. *)
Theorem prepare_round_trip (t : ValueTransformer) (v : value) type :
  isPlainType type = true ->
  nullish (to t v) = false ->
  from t (to t v) = v ->
  exists w,
    preparePersistentValue mixedDateToDate v (Some t) type = Prepared w
    /\ prepareHydratedValue mixedDateToDate w (Some t) type = Prepared v.
Proof.
  intros Hp Hn Hft. exists (to t v).
  unfold preparePersistentValue, prepareHydratedValue.
  rewrite Hn, (plain_not_date _ Hp), Hp, Hft. done.
Qed.

(** X13: when the transformer's to gives null or undefined, the value is
    persisted as that for every column type, supported or not, and
    hydrating it gives it back without the transformer's from ever being
    applied. *)
Theorem prepare_nullish (t : ValueTransformer) (v : value) type :
  nullish (to t v) = true ->
  preparePersistentValue mixedDateToDate v (Some t) type = Prepared (to t v)
  /\ prepareHydratedValue mixedDateToDate (to t v) (Some t) type
     = Prepared (to t v).
Proof.
  intros Hn. unfold preparePersistentValue, prepareHydratedValue.
  by rewrite Hn.
Qed.

End ValueFacts.

Lemma prepare_unnormalized_refused_witness :
  preparePersistentValue (fun v => v) (VBool true) (Some boxing) TBoolean
  = DataTypeNotSupported TBoolean
  /\ preparePersistentValue (fun v => v) (VBool true) (Some boxing)
       (TName (normalizeType (columnOfType TBoolean)))
     = Prepared (VArray [VBool true]).
Proof.
  apply (prepare_unnormalized_refused (fun v => v) (columnOfType TBoolean) (VBool true)
           (Some boxing)).
  - unfold unnormalizedTypes. apply elem_of_cons. by left.
  - reflexivity.
Defined.

Lemma prepare_normalized_witness :
  preparePersistentValue (fun v => v) (VNum 3) None
    (TName (normalizeType (columnOfType TNumber)))
  = Prepared (VNum 3).
Proof.
  apply (prepare_normalized (fun v => v) (columnOfType TNumber) (VNum 3) (VNum 3) None).
  reflexivity.
Defined.

Lemma prepare_round_trip_witness :
  exists w,
    preparePersistentValue (fun v => v) (VNum 3) (Some boxing) TString = Prepared w
    /\ prepareHydratedValue (fun v => v) w (Some boxing) TString = Prepared (VNum 3).
Proof.
  apply (prepare_round_trip (fun v => v) boxing (VNum 3) TString); reflexivity.
Defined.

Lemma prepare_nullish_witness :
  preparePersistentValue (fun v => v) (VNum 3) (Some nulling) TBoolean = Prepared VNull
  /\ prepareHydratedValue (fun v => v) VNull (Some nulling) TBoolean = Prepared VNull.
Proof.
  apply (prepare_nullish (fun v => v) nulling (VNum 3) TBoolean). reflexivity.
Defined.

(* ===================================================================== *)
(** ** escapeQueryWithParameters: what is left alone and what is spliced *)

Section TranslatorMore.

Implicit Types (parameters nativeParameters : ObjectLiteral) (sql : str).

Lemma scan_unchanged {E : Type} (g : str -> option str) (f : str -> str * list E) :
  forall a, (forall t, t `suffix_of` a -> g t = None) -> scan_replace g f 0 a = (a, []).
Proof.
  induction a as [|c a IH]; intros Hno.
  - apply scan_nil. by apply Hno.
  - rewrite scan_no_match by (by apply Hno).
    rewrite IH; [done|]. intros t Ht. apply Hno. by apply suffix_cons_r.
Qed.

Lemma replaceKey_function parameters name dots returns :
  Forall identifier (keys parameters) ->
  get parameters name = VFunction returns -> is_dots dots ->
  replaceKey parameters (txt ":" ++ dots ++ name) = (returns, []).
Proof.
  intros Hids Hget Hd. unfold replaceKey.
  rewrite keyName_token; [by rewrite Hget| |done].
  apply (identifier_key parameters Hids), get_keys. by rewrite Hget.
Qed.

(** X14: a text without colon is returned as it is, and nothing is
    pushed for it, whatever the parameters are. *)
Theorem escapeQuery_no_colon sql parameters nativeParameters :
  Forall identifier (keys parameters) ->
  no_colon sql ->
  escapeQueryWithParameters sql parameters nativeParameters
  = (sql, initialParameters nativeParameters).
Proof.
  intros Hids Hsql. rewrite escape_scan by done.
  rewrite scan_unchanged; [cbn [fst snd]; by rewrite app_nil_r|].
  intros [|c u] [k Hk]; [apply keys_here_nil|].
  apply keys_here_not_colon. unfold no_colon in Hsql.
  rewrite Forall_forall in Hsql. apply Hsql. rewrite Hk.
  apply elem_of_app. right. by left.
Qed.

Lemma escapeQuery_no_colon_witness :
  escapeQueryWithParameters (txt "SELECT 1") sampleParameters []
  = (txt "SELECT 1", initialParameters []).
Proof.
  apply (escapeQuery_no_colon (txt "SELECT 1") sampleParameters []).
  - repeat constructor; vm_compute; discriminate.
  - unfold no_colon. repeat constructor.
Defined.

(** X15: with parameter names made of word characters, a token, plain or
    spread and followed by no word character, of a parameter whose value
    is a function is replaced by what the function returns, as it is,
    and no native parameter is pushed for it. *)
Theorem escapeQuery_function parameters nativeParameters name returns dots pre post :
  Forall identifier (keys parameters) ->
  get parameters name = VFunction returns ->
  is_dots dots -> head_word post = false ->
  escapeQueryWithParameters (pre ++ txt ":" ++ dots ++ name ++ post)
    parameters nativeParameters
  = (fst (escapeQueryWithParameters pre parameters nativeParameters)
     ++ returns
     ++ fst (escapeQueryWithParameters post parameters nativeParameters),
     snd (escapeQueryWithParameters pre parameters nativeParameters)
     ++ snd (escapeQueryWithParameters post parameters [])).
Proof.
  intros Hids Hget Hd Hpost.
  rewrite escape_token; [|done| |done|done].
  - by rewrite (replaceKey_function parameters name dots returns).
  - apply get_keys. by rewrite Hget.
Qed.

Lemma escapeQuery_function_witness :
  escapeQueryWithParameters
    (txt "SET t = " ++ txt ":" ++ [] ++ txt "now" ++ txt " WHERE 1 = 1")
    sampleParameters []
  = (txt "SET t = CURRENT_TIMESTAMP() WHERE 1 = 1", []).
Proof.
  rewrite (escapeQuery_function sampleParameters [] (txt "now")
             (txt "CURRENT_TIMESTAMP()") [] (txt "SET t = ") (txt " WHERE 1 = 1")).
  - vm_compute. reflexivity.
  - repeat constructor; vm_compute; discriminate.
  - vm_compute. reflexivity.
  - by left.
  - reflexivity.
Defined.

(** X16: with parameter names made of word characters, a token, plain or
    spread and followed by no word character, of a declared parameter
    whose value is neither a list nor a function is replaced by the
    placeholder createParameter gives its name, and one native parameter
    of that name and value is pushed for it, between what the text
    before and the text after give. *)
Theorem escapeQuery_scalar_token parameters nativeParameters name dots pre post index :
  Forall identifier (keys parameters) ->
  name ∈ keys parameters ->
  scalar (get parameters name) ->
  is_dots dots -> head_word post = false ->
  escapeQueryWithParameters (pre ++ txt ":" ++ dots ++ name ++ post)
    parameters nativeParameters
  = (fst (escapeQueryWithParameters pre parameters nativeParameters)
     ++ createParameter name index
     ++ fst (escapeQueryWithParameters post parameters nativeParameters),
     snd (escapeQueryWithParameters pre parameters nativeParameters)
     ++ [[(name, get parameters name)]]
     ++ snd (escapeQueryWithParameters post parameters [])).
Proof.
  intros Hids Hin Hscalar Hd Hpost.
  rewrite escape_token by done.
  assert (keyName (txt ":" ++ dots ++ name) = name) as Hkey.
  { apply keyName_token; [|done]. by apply (identifier_key parameters Hids). }
  rewrite replaceKey_scalar by (by rewrite Hkey).
  rewrite Hkey. reflexivity.
Qed.

Lemma escapeQuery_scalar_token_witness :
  escapeQueryWithParameters
    (txt "WHERE id = " ++ txt ":" ++ [] ++ txt "id" ++ txt " LIMIT 1")
    sampleParameters []
  = (txt "WHERE id = @id LIMIT 1", [[(txt "id", VNum 7)]]).
Proof.
  rewrite (escapeQuery_scalar_token sampleParameters [] (txt "id") []
             (txt "WHERE id = ") (txt " LIMIT 1") 0).
  - vm_compute. reflexivity.
  - repeat constructor; vm_compute; discriminate.
  - vm_compute. by left.
  - exact I.
  - by left.
  - reflexivity.
Defined.

(** X17: with parameter names made of word characters and values that
    are neither lists nor functions, the text escapeQueryWithParameters
    returns is left as it is by a second translation with the same
    parameters, which pushes nothing. *)
Theorem escapeQuery_again sql parameters nativeParameters nativeParameters' :
  Forall identifier (keys parameters) ->
  (forall k, scalar (get parameters k)) ->
  escapeQueryWithParameters
    (fst (escapeQueryWithParameters sql parameters nativeParameters))
    parameters nativeParameters'
  = (fst (escapeQueryWithParameters sql parameters nativeParameters),
     initialParameters nativeParameters').
Proof.
  intros Hids Hscalar. rewrite !escape_scan by done. cbn [fst snd].
  destruct (scan_no_key parameters Hids Hscalar (length sql) sql) as [Hs _]; [done|].
  rewrite scan_unchanged by exact Hs. cbn [fst snd]. by rewrite app_nil_r.
Qed.

Lemma escapeQuery_again_witness :
  escapeQueryWithParameters
    (fst (escapeQueryWithParameters (txt "id = :id AND name = :name")
            scalarParameters []))
    scalarParameters []
  = (fst (escapeQueryWithParameters (txt "id = :id AND name = :name")
            scalarParameters []),
     initialParameters []).
Proof.
  apply (escapeQuery_again (txt "id = :id AND name = :name") scalarParameters [] []).
  - repeat constructor; vm_compute; discriminate.
  - intros k. unfold get, scalarParameters. cbn [find].
    repeat (case_bool_decide; [exact I|]). exact I.
Defined.

(** X18: the native parameters have no part in the translation: the
    text is the one translated without them, and they are one entry
    ahead of what the translation pushes when they have a key, and
    absent when they have none. *)
Theorem escapeQuery_native sql parameters nativeParameters :
  escapeQueryWithParameters sql parameters nativeParameters
  = (fst (escapeQueryWithParameters sql parameters []),
     match nativeParameters with
     | [] => []
     | _ :: _ => [nativeParameters]
     end ++ snd (escapeQueryWithParameters sql parameters [])).
Proof.
  unfold escapeQueryWithParameters.
  assert (initialParameters nativeParameters
          = match nativeParameters with [] => [] | _ :: _ => [nativeParameters] end)
    as ->.
  { by destruct nativeParameters. }
  destruct (length (keys parameters) =? 0)%nat.
  - cbn [fst snd initialParameters keys map length Nat.ltb Nat.leb].
    by rewrite app_nil_r.
  - destruct (re_replace_all _ _ sql) as [sqlReplaced pushed].
    reflexivity.
Qed.

End TranslatorMore.

(* ===================================================================== *)
(** ** updateTableWithExtendSchema: what it leaves as it is *)

Section MergerMore.

Implicit Types (tables : gmap str Table.t)
               (extendSchemas : gmap str (gmap str ExtendColumnSchema.t))
               (e : gmap str ExtendColumnSchema.t)
               (seen : list str) (cols : list TableColumn.t).

(** the tables and the console output after the loop *)
Lemma update_spec tables extendSchemas :
  (forall tableName,
     mergedTables tables extendSchemas !! tableName
     = mergedTable extendSchemas tableName <$> tables !! tableName)
  /\ (forall msg,
        msg ∈ mergeLog tables extendSchemas <->
        exists columnName,
          missingEntry tables extendSchemas columnName
          /\ msg = missingColumnMessage columnName)
  /\ mergeLog tables extendSchemas ≡ₚ missingMessages tables extendSchemas
  /\ snd (updateTableWithExtendSchema tables extendSchemas) = extendSchemas.
Proof.
  unfold mergedTables, mergeLog, updateTableWithExtendSchema.
  destruct (mergeTables_fold extendSchemas tables tables) as [Htabs Hlog].
  pose proof (mergeTables_log extendSchemas tables tables) as Hperm.
  destruct (map_fold (mergeTable extendSchemas) (tables, []) tables) as [tables' log].
  cbn [fst snd] in *. split; [|split; [exact Hlog|split; [exact Hperm|done]]].
  intros k. rewrite Htabs. unfold mergedTable.
  destruct (tables !! k); [|done]. by destruct (extendSchemas !! k).
Qed.

Lemma sameOtherwise_refl (c : TableColumn.t) : sameOtherwise c c.
Proof. by repeat split. Qed.

Lemma mergedColumns_sameOtherwise e : forall cols seen,
  Forall2 sameOtherwise cols (mergedColumns e seen cols).
Proof.
  induction cols as [|c cs IH]; intros seen; [constructor|].
  cbn [mergedColumns]. constructor; [|apply IH].
  case_bool_decide; [apply sameOtherwise_refl|].
  destruct (e !! TableColumn.name c); [|apply sameOtherwise_refl].
  apply overlaySchema_fields.
Qed.

Lemma Forall2_sameOtherwise_refl cols : Forall2 sameOtherwise cols cols.
Proof. induction cols; constructor; [apply sameOtherwise_refl|done]. Qed.

Lemma overlaySchema_twice s (c : TableColumn.t) :
  overlaySchema s (overlaySchema s c) = overlaySchema s c.
Proof. by destruct c. Qed.

Lemma mergedColumns_twice e : forall cols seen,
  mergedColumns e seen (mergedColumns e seen cols) = mergedColumns e seen cols.
Proof.
  induction cols as [|c cs IH]; intros seen; [done|].
  cbn [mergedColumns]. rewrite merged_head_name, IH. f_equal.
  case_bool_decide; [done|].
  destruct (e !! TableColumn.name c); [|done]. apply overlaySchema_twice.
Qed.

Lemma mergedTable_twice extendSchemas tableName (table : Table.t) :
  mergedTable extendSchemas tableName (mergedTable extendSchemas tableName table)
  = mergedTable extendSchemas tableName table.
Proof.
  unfold mergedTable. destruct (extendSchemas !! tableName) as [e|]; [|done].
  cbn [Table.name Table.columns]. by rewrite mergedColumns_twice.
Qed.

Lemma findColumnByName_merged_None extendSchemas tableName e (table : Table.t) n :
  extendSchemas !! tableName = Some e ->
  Table.findColumnByName n (mergedTable extendSchemas tableName table) = None
  <-> Table.findColumnByName n table = None.
Proof.
  intros He. unfold mergedTable. rewrite He.
  unfold Table.findColumnByName. cbn [Table.columns].
  fold (findByName n (mergedColumns e [] (Table.columns table))).
  fold (findByName n (Table.columns table)).
  rewrite findByName_merged by (by intros H; inversion H).
  destruct (e !! n); [|done].
  by destruct (findByName n (Table.columns table)).
Qed.

(** X19: updateTableWithExtendSchema assigns nothing but isGenerated,
    default and generationStrategy: the tables after it are the tables
    before under the same names, each with its name and with as many
    columns, in the same order, each column with the name, type, length,
    width, precision, scale, zerofill, unsigned, asExpression,
    generatedType, onUpdate, isPrimary, isNullable and isUnique it had. *)
Theorem updateTableWithExtendSchema_frame tables extendSchemas tableName :
  match tables !! tableName with
  | Some table =>
      exists table',
        mergedTables tables extendSchemas !! tableName = Some table'
        /\ Table.name table' = Table.name table
        /\ Forall2 sameOtherwise (Table.columns table) (Table.columns table')
  | None => mergedTables tables extendSchemas !! tableName = None
  end.
Proof.
  destruct (update_spec tables extendSchemas) as (Hall & _ & _).
  rewrite Hall. destruct (tables !! tableName) as [table|]; [|done].
  eexists. split; [reflexivity|]. unfold mergedTable.
  destruct (extendSchemas !! tableName) as [e|].
  - cbn [Table.name Table.columns]. split; [done|].
    apply mergedColumns_sameOtherwise.
  - split; [done|]. apply Forall2_sameOtherwise_refl.
Qed.

(** X20: without extended schemas updateTableWithExtendSchema leaves the
    tables as they are and writes nothing to the console. *)
Theorem updateTableWithExtendSchema_empty tables :
  updateTableWithExtendSchema tables ∅ = (tables, [], ∅).
Proof.
  destruct (update_spec tables ∅) as (Hall & Hlog & _ & Hret).
  unfold mergedTables, mergeLog in *.
  destruct (updateTableWithExtendSchema tables ∅) as [[tables' log] ret].
  cbn [fst snd] in *. subst ret. f_equal. f_equal.
  - apply map_eq. intros k. rewrite Hall. unfold mergedTable.
    rewrite lookup_empty. by destruct (tables !! k).
  - destruct log as [|msg log]; [done|]. exfalso.
    destruct (proj1 (Hlog msg)) as (n & (k & t & e & s & _ & He & _) & _).
    + by left.
    + by rewrite lookup_empty in He.
Qed.

Lemma missingOf_merged extendSchemas tableName (table : Table.t) :
  missingOf extendSchemas tableName (mergedTable extendSchemas tableName table)
  = missingOf extendSchemas tableName table.
Proof.
  unfold missingOf. destruct (extendSchemas !! tableName) as [e|] eqn:He; [|done].
  unfold missingIn. apply list_bind_ext; [|done]. intros [n s].
  cbn [fst].
  pose proof (findColumnByName_merged_None extendSchemas tableName e table n He)
    as Hiff.
  destruct (Table.findColumnByName n (mergedTable extendSchemas tableName table));
    destruct (Table.findColumnByName n table); try done.
  - by pose proof (proj2 Hiff eq_refl).
  - by pose proof (proj1 Hiff eq_refl).
Qed.

(** the messages of tables that were changed one by one, each into a
    table with the same messages *)
Lemma missingMessages_pointwise extendSchemas (g : str -> Table.t -> Table.t) :
  (forall k t, missingOf extendSchemas k (g k t) = missingOf extendSchemas k t) ->
  forall tables tables',
    (forall k, tables' !! k = g k <$> tables !! k) ->
    missingMessages tables' extendSchemas ≡ₚ missingMessages tables extendSchemas.
Proof.
  intros Hg tables.
  induction tables as [|i x m Hi IH] using map_ind; intros tables' Hrel.
  - assert (tables' = ∅) as ->; [|done].
    apply map_eq. intros k. by rewrite Hrel, !lookup_empty.
  - assert (tables' !! i = Some (g i x)) as Hi'.
    { by rewrite Hrel, lookup_insert_eq. }
    assert (tables' = <[i := g i x]> (delete i tables')) as Heq.
    { by rewrite insert_delete_id. }
    assert (forall k, delete i tables' !! k = g k <$> m !! k) as Hrel'.
    { intros k. destruct (decide (i = k)) as [<-|Hne].
      - by rewrite lookup_delete_eq, Hi.
      - by rewrite lookup_delete_ne, Hrel, lookup_insert_ne. }
    unfold missingMessages in *.
    rewrite Heq, !map_to_list_insert by (done || apply lookup_delete_eq).
    rewrite !bind_cons. cbn [fst snd]. rewrite Hg.
    apply Permutation_app_head. by apply IH.
Qed.

(** X21: a second run of updateTableWithExtendSchema over the tables of a
    first run, with the same extended schemas, changes no table and
    writes the same lines to the console, each as many times as the
    first run did (the order of the lines is not stated). *)
Theorem updateTableWithExtendSchema_twice tables extendSchemas :
  mergedTables (mergedTables tables extendSchemas) extendSchemas
  = mergedTables tables extendSchemas
  /\ mergeLog (mergedTables tables extendSchemas) extendSchemas
     ≡ₚ mergeLog tables extendSchemas.
Proof.
  destruct (update_spec tables extendSchemas) as (Hall & _ & Hperm & _).
  destruct (update_spec (mergedTables tables extendSchemas) extendSchemas)
    as (Hall2 & _ & Hperm2 & _).
  split.
  - apply map_eq. intros k. rewrite Hall2, Hall.
    destruct (tables !! k) as [table|]; [|done]. simpl.
    by rewrite mergedTable_twice.
  - rewrite Hperm2, Hperm.
    apply (missingMessages_pointwise extendSchemas (mergedTable extendSchemas)).
    + apply missingOf_merged.
    + exact Hall.
Qed.

End MergerMore.

(* ===================================================================== *)
(** ** parseSchema: the tables, statement by statement *)

Section ParserMore.

Implicit Types (tableOptionsMap tables : gmap str TableOptions.t)
               (ddlStatements : list str) (stmt tableName : str).

Lemma parseStatement_contribute stmt tableOptionsMap :
  parseStatement stmt tableOptionsMap
  = (r ← statementTable stmt; Ok (contribute r tableOptionsMap)).
Proof.
  unfold parseStatement, statementTable.
  destruct (re_match create_table_re stmt) as [m|]; [|done]. cbv zeta.
  destruct (for_of (split_on "," (grp 2 m)) parseColumn []) as [cols|e]; [|done].
  simpl. destruct (m_group 3 m) as [indexStmts|]; [|done].
  by destruct (for_of _ parseIndexStmt _) as [p|e].
Qed.




Lemma parseSchema_snoc ddlStatements stmt :
  parseSchema (ddlStatements ++ [stmt])
  = (tables ← parseSchema ddlStatements; r ← statementTable stmt;
     Ok (contribute r tables)).
Proof.
  unfold parseSchema. rewrite for_of_app.
  destruct (for_of ddlStatements parseStatement ∅) as [tables|e]; [|done].
  simpl. rewrite parseStatement_contribute.
  by destruct (statementTable stmt).
Qed.

(** the table of a name is the one of the last statement that declares
    the name *)
Lemma schema_lookup ddlStatements : forall tables tableName options,
  parseSchema ddlStatements = Ok tables ->
  tables !! tableName = Some options
  <-> exists before stmt after,
        ddlStatements = before ++ stmt :: after
        /\ statementTable stmt = Ok (Some (tableName, options))
        /\ Forall (fun s => ~ declares tableName s) after.
Proof.
  induction ddlStatements as [|last l IH] using rev_ind;
    intros tables tableName options Hparse.
  - injection Hparse as <-. rewrite lookup_empty. split; [done|].
    intros (pre & s & post & Heq & _). by destruct pre.
  - rewrite parseSchema_snoc in Hparse.
    destruct (parseSchema l) as [tables0|e] eqn:Hl; [|done]. simpl in Hparse.
    destruct (statementTable last) as [r|e] eqn:Hr; [|done]. simpl in Hparse.
    injection Hparse as <-. specialize (IH tables0 tableName options eq_refl).
    assert (forall pre s post,
              l ++ [last] = pre ++ s :: post ->
              (post = [] /\ pre = l /\ s = last)
              \/ exists post', post = post' ++ [last] /\ l = pre ++ s :: post')
      as Hsplit.
    { intros pre s post Heq. destruct post as [|x post _] using rev_ind.
      - left. apply app_inj_tail in Heq as [-> ->]. done.
      - right. exists post.
        rewrite app_comm_cons, app_assoc in Heq.
        apply app_inj_tail in Heq as [-> ->]. done. }
    destruct r as [[n t]|]; cbn [contribute].
    + destruct (decide (n = tableName)) as [->|Hne].
      * rewrite lookup_insert_eq. split.
        -- intros [= <-]. exists l, last, []. by repeat split.
        -- intros (pre & s & post & Heq & Hs & Hpost).
           destruct (Hsplit _ _ _ Heq) as [(-> & -> & ->)|(post' & -> & ->)].
           ++ rewrite Hr in Hs. by injection Hs as <-.
           ++ apply Forall_app in Hpost as [_ Hlast].
              inversion Hlast as [|? ? Hno _]; subst.
              destruct Hno. by exists t.
      * rewrite lookup_insert_ne by done. rewrite IH. split.
        -- intros (pre & s & post & -> & Hs & Hpost).
           exists pre, s, (post ++ [last]). split; [by rewrite <- app_assoc|].
           split; [done|]. apply Forall_app. split; [done|].
           constructor; [|done]. intros [o Ho]. rewrite Hr in Ho. congruence.
        -- intros (pre & s & post & Heq & Hs & Hpost).
           destruct (Hsplit _ _ _ Heq) as [(-> & -> & ->)|(post' & -> & ->)].
           ++ rewrite Hr in Hs. congruence.
           ++ apply Forall_app in Hpost as [Hpost _].
              by exists pre, s, post'.
    + rewrite IH. split.
      * intros (pre & s & post & -> & Hs & Hpost).
        exists pre, s, (post ++ [last]). split; [by rewrite <- app_assoc|].
        split; [done|]. apply Forall_app. split; [done|].
        constructor; [|done]. intros [o Ho]. rewrite Hr in Ho. congruence.
      * intros (pre & s & post & Heq & Hs & Hpost).
        destruct (Hsplit _ _ _ Heq) as [(-> & -> & ->)|(post' & -> & ->)].
        -- rewrite Hr in Hs. congruence.
        -- apply Forall_app in Hpost as [Hpost _].
           by exists pre, s, post'.
Qed.

(** X23: for a schema that declares no table named __proto__, the table
    parseSchema returns under a name is the table of the last statement
    that declares this name, with the columns, indices and uniques of
    that statement alone; a name no statement declares is not in the
    result. *)
Theorem parseSchema_last_wins ddlStatements tables tableName options :
  protoFree ddlStatements ->
  parseSchema ddlStatements = Ok tables ->
  tables !! tableName = Some options
  <-> exists before stmt after,
        ddlStatements = before ++ stmt :: after
        /\ statementTable stmt = Ok (Some (tableName, options))
        /\ Forall (fun s => ~ declares tableName s) after.
Proof. intros _. apply schema_lookup. Qed.

Lemma parseSchema_last_wins_witness :
  ({[ txt "t" := secondTable ]} : gmap str TableOptions.t) !! txt "t" = Some secondTable
  <-> exists before stmt after,
        [firstDdl; secondDdl] = before ++ stmt :: after
        /\ statementTable stmt = Ok (Some (txt "t", secondTable))
        /\ Forall (fun s => ~ declares (txt "t") s) after.
Proof.
  apply (parseSchema_last_wins [firstDdl; secondDdl] {[ txt "t" := secondTable ]}
           (txt "t") secondTable).
  - unfold protoFree.
    repeat constructor; intros [o Ho]; vm_compute in Ho; discriminate.
  - vm_compute. reflexivity.
Defined.

End ParserMore.

(* ===================================================================== *)
(** ** parseSchema: what every table it returns is like *)

Section ParserInvariants.

Implicit Types (cols : list TableColumnOptions.t) (p : tableParts)
               (frags : list str).

Lemma for_of_invariant {A S : Type} (I : S -> Prop) (body : A -> S -> result S) l :
  (forall x s s', I s -> body x s = Ok s' -> I s') ->
  forall s s', I s -> for_of l body s = Ok s' -> I s'.
Proof.
  intros Hbody. induction l as [|x l IH]; intros s s' Hs; simpl.
  - by intros [= <-].
  - destruct (body x s) as [s1|e] eqn:Hb; [|done]. simpl.
    apply IH. by eapply Hbody.
Qed.

Lemma lower_char_twice c : lower_char (lower_char c) = lower_char c.
Proof. destruct c as [[] [] [] [] [] [] [] []]; reflexivity. Qed.

Lemma toLowerCase_twice (s : str) : toLowerCase (toLowerCase s) = toLowerCase s.
Proof.
  unfold toLowerCase. rewrite map_map. apply map_ext. intros c.
  apply lower_char_twice.
Qed.

Lemma parseTypeName_lower typeName :
  toLowerCase (ParsedType.typeName (parseTypeName typeName))
  = ParsedType.typeName (parseTypeName typeName).
Proof.
  unfold parseTypeName.
  destruct (re_match sized_type_re typeName);
    [|destruct (re_match array_type_re typeName)];
    apply toLowerCase_twice.
Qed.

Lemma update_found_Forall (P : TableColumnOptions.t -> Prop) n f cols :
  (forall c, P c -> P (f c)) -> Forall P cols -> Forall P (update_found n f cols).
Proof.
  intros Hf. induction 1 as [|c cs Hc Hcs IH]; cbn [update_found]; [done|].
  case_bool_decide; constructor; auto.
Qed.

Lemma marks_Forall (P : TableColumnOptions.t -> Prop) f (names : list str) :
  (forall c, P c -> P (f c)) ->
  forall cols, Forall P cols ->
    Forall P (fold_left (fun cols n => update_found n f cols) names cols).
Proof.
  intros Hf. induction names as [|n names IH]; intros cols Hcols; [done|].
  simpl. apply IH. by apply update_found_Forall.
Qed.

Lemma update_found_map {B : Type} (g : TableColumnOptions.t -> B) n f cols :
  (forall c, g (f c) = g c) -> map g (update_found n f cols) = map g cols.
Proof.
  intros Hf. induction cols as [|c cs IH]; cbn [update_found map]; [done|].
  case_bool_decide; cbn [map]; [by rewrite Hf|by rewrite IH].
Qed.

Lemma marks_map {B : Type} (g : TableColumnOptions.t -> B) f (names : list str) :
  (forall c, g (f c) = g c) ->
  forall cols,
    map g (fold_left (fun cols n => update_found n f cols) names cols) = map g cols.
Proof.
  intros Hf. induction names as [|n names IH]; intros cols; [done|].
  simpl. rewrite IH. by apply update_found_map.
Qed.

(** what a clause of the trailer does to the parts of the table: one of
    four things *)
Lemma parseIndexStmt_cases idxStmt p p' :
  parseIndexStmt idxStmt p = Ok p' ->
  p' = p
  \/ (exists names,
        p' = TableParts
               (fold_left (fun cols n =>
                             update_found n (TableColumnOptions.set_isPrimary true) cols)
                          names (columns p))
               (indices p) (uniques p))
  \/ (exists i,
        TableIndexOptions.isUnique i = true
        /\ p' = TableParts
                  (fold_left (fun cols n =>
                                update_found n (TableColumnOptions.set_isUnique true) cols)
                             (TableIndexOptions.columnNames i) (columns p))
                  (indices p ++ [i]) (uniques p ++ [uniqueOf i]))
  \/ (exists i,
        TableIndexOptions.isUnique i = false
        /\ p' = TableParts (columns p) (indices p ++ [i]) (uniques p)).
Proof.
  unfold parseIndexStmt.
  destruct (indexOf idxStmt (txt "INTERLEAVE") =? 0)%Z.
  { destruct (re_match interleave_re idxStmt); [done|].
    intros [= <-]. left. by destruct p. }
  destruct (indexOf idxStmt (txt "PRIMARY") =? 0)%Z.
  { destruct (re_match primary_key_re idxStmt) as [pm|].
    - intros [= <-]. right. left. by eexists.
    - intros [= <-]. by left. }
  destruct (re_match index_re idxStmt) as [im|]; [|intros [= <-]; by left].
  cbv zeta.
  destruct (TableIndexOptions.isUnique _) eqn:Hu.
  - intros [= <-]. right. right. left. eexists. split; [exact Hu|done].
  - intros [= <-]. right. right. right. eexists. split; [exact Hu|done].
Qed.

Lemma parsedColumn_primary v c :
  parsedColumn c -> parsedColumn (TableColumnOptions.set_isPrimary v c).
Proof. by destruct c. Qed.

Lemma parsedColumn_unique v c :
  parsedColumn c -> parsedColumn (TableColumnOptions.set_isUnique v c).
Proof. by destruct c. Qed.

Lemma unflagged_primary v c :
  unflagged (TableColumnOptions.set_isPrimary v c) = unflagged c.
Proof. by destruct c. Qed.

Lemma unflagged_unique v c :
  unflagged (TableColumnOptions.set_isUnique v c) = unflagged c.
Proof. by destruct c. Qed.

Lemma filter_unique_snoc (l : list TableIndexOptions.t) i :
  filter (fun i => TableIndexOptions.isUnique i = true) (l ++ [i])
  = filter (fun i => TableIndexOptions.isUnique i = true) l
    ++ (if TableIndexOptions.isUnique i then [i] else []).
Proof.
  rewrite filter_app. f_equal. rewrite filter_cons, filter_nil.
  destruct (TableIndexOptions.isUnique i); [by rewrite decide_True|by rewrite decide_False].
Qed.

Lemma parseIndexStmt_good idxStmt p p' :
  goodParts p -> parseIndexStmt idxStmt p = Ok p' -> goodParts p'.
Proof.
  intros [Hcols Huniq] Hp.
  apply parseIndexStmt_cases in Hp
    as [->|[(names & ->)|[(i & Hi & ->)|(i & Hi & ->)]]]; [done|..];
    split; cbn [columns indices uniques]; try done.
  - apply marks_Forall; [|done]. intros c. apply parsedColumn_primary.
  - apply marks_Forall; [|done]. intros c. apply parsedColumn_unique.
  - rewrite filter_unique_snoc, Hi, map_app, Huniq. done.
  - rewrite filter_unique_snoc, Hi, app_nil_r. done.
Qed.

Lemma parseIndexStmt_unflagged idxStmt p p' :
  parseIndexStmt idxStmt p = Ok p' ->
  map unflagged (columns p') = map unflagged (columns p).
Proof.
  intros Hp.
  apply parseIndexStmt_cases in Hp
    as [->|[(names & ->)|[(i & Hi & ->)|(i & Hi & ->)]]]; [done|..];
    cbn [columns]; try done.
  - apply marks_map. intros c. apply unflagged_primary.
  - apply marks_map. intros c. apply unflagged_unique.
Qed.

(** the columns pushed for the fragments, one for each, in order *)
Lemma parseColumns_each : forall frags cols cols',
  for_of frags parseColumn cols = Ok cols' ->
  exists new,
    cols' = cols ++ new
    /\ Forall2 (fun frag c => parseColumn frag [] = Ok [c]) frags new.
Proof.
  induction frags as [|frag frags IH]; intros cols cols'; cbn [for_of].
  - intros [= <-]. exists []. by rewrite app_nil_r.
  - destruct (parseColumn frag cols) as [cols1|e] eqn:Hpc; simpl; [|done].
    unfold parseColumn in Hpc.
    destruct (re_match column_re frag) as [cm|] eqn:Hcm; [|done].
    injection Hpc as <-.
    intros Hrest. apply IH in Hrest as (new & -> & Hnew).
    eexists (_ :: new). split; [by rewrite <- app_assoc|].
    constructor; [|done]. unfold parseColumn. by rewrite Hcm.
Qed.

Lemma parseColumn_fresh frag c :
  parseColumn frag [] = Ok [c] -> parsedColumn c /\ unflagged c = c.
Proof.
  unfold parseColumn. destruct (re_match column_re frag) as [cm|]; [|done].
  intros [= <-]. split; [|done]. repeat split; try done.
  apply parseTypeName_lower.
Qed.

(** a statement that gives a table: the table carries the name of the
    statement, no foreign key, columns as parseColumn leaves them apart
    from the marks, and the uniques of its unique indices *)
Lemma statementTable_shape stmt tableName options :
  statementTable stmt = Ok (Some (tableName, options)) ->
  exists m,
    re_match create_table_re stmt = Some m
    /\ tableName = grp 1 m
    /\ TableOptions.name options = tableName
    /\ TableOptions.foreignKeys options = []
    /\ Forall parsedColumn (TableOptions.columns options)
    /\ TableOptions.uniques options
       = map uniqueOf
           (filter (fun i => TableIndexOptions.isUnique i = true)
              (TableOptions.indices options))
    /\ Forall2 (fun frag c => parseColumn frag [] = Ok [unflagged c])
         (split_on "," (grp 2 m)) (TableOptions.columns options).
Proof.
  unfold statementTable.
  destruct (re_match create_table_re stmt) as [m|]; [|done].
  destruct (for_of (split_on "," (grp 2 m)) parseColumn []) as [cols|e] eqn:Hcols;
    [|done].
  simpl. destruct (m_group 3 m) as [indexStmts|]; [|done].
  destruct (for_of _ parseIndexStmt _) as [p|e] eqn:Hp; [|done]. simpl.
  intros [= <- <-]. exists m. cbn [TableOptions.name TableOptions.foreignKeys
    TableOptions.columns TableOptions.uniques TableOptions.indices].
  apply parseColumns_each in Hcols as (new & -> & Hnew). cbn [app] in Hp.
  assert (Forall (fun c => parsedColumn c /\ unflagged c = c) new) as Hfresh.
  { clear Hp. induction Hnew as [|frag c frags new Hc _ IH]; constructor; [|done].
    by eapply parseColumn_fresh. }
  pose proof (for_of_invariant goodParts parseIndexStmt
                (re_match_all index_clause_re indexStmts)
                (fun x s s' Hs Hx => parseIndexStmt_good x s s' Hs Hx)
                (TableParts new [] []) p) as Hgood.
  destruct Hgood as [Hparsed Huniq]; [|done|].
  { split; [|done]. cbn [columns].
    eapply Forall_impl; [exact Hfresh|]. by intros c [? _]. }
  pose proof (for_of_invariant
                (fun q => map unflagged (columns q) = map unflagged new)
                parseIndexStmt (re_match_all index_clause_re indexStmts)) as Hflag.
  specialize (Hflag
    (fun x s s' Hs Hx => eq_trans (parseIndexStmt_unflagged x s s' Hx) Hs)
    (TableParts new [] []) p eq_refl Hp).
  repeat split; try done.
  assert (map unflagged new = new) as Hsame.
  { clear -Hfresh. induction Hfresh as [|c new [_ Hc] _ IH]; [done|].
    simpl. by rewrite Hc, IH. }
  rewrite Hsame in Hflag. rewrite <- Hflag in Hnew.
  by apply Forall2_fmap_r in Hnew.
Qed.

(** X24: for a schema that declares no table named __proto__, every
    table parseSchema returns carries the name it is stored under and no
    foreign key; its columns are not generated, have neither default nor
    generation strategy and a type name in lower case; and its uniques
    are those of its unique indices, in their order. *)
Theorem parseSchema_table_shape ddlStatements tables tableName options :
  protoFree ddlStatements ->
  parseSchema ddlStatements = Ok tables ->
  tables !! tableName = Some options ->
  TableOptions.name options = tableName
  /\ TableOptions.foreignKeys options = []
  /\ Forall parsedColumn (TableOptions.columns options)
  /\ TableOptions.uniques options
     = map uniqueOf
         (filter (fun i => TableIndexOptions.isUnique i = true)
            (TableOptions.indices options)).
Proof.
  intros _ Hparse Hlook.
  apply (schema_lookup ddlStatements tables tableName options Hparse) in Hlook
    as (pre & stmt & post & _ & Hs & _).
  apply statementTable_shape in Hs as (m & _ & _ & Hname & Hfk & Hcols & Huniq & _).
  done.
Qed.

Lemma parseSchema_table_shape_witness :
  TableOptions.name secondTable = txt "t"
  /\ TableOptions.foreignKeys secondTable = []
  /\ Forall parsedColumn (TableOptions.columns secondTable)
  /\ TableOptions.uniques secondTable
     = map uniqueOf
         (filter (fun i => TableIndexOptions.isUnique i = true)
            (TableOptions.indices secondTable)).
Proof.
  apply (parseSchema_table_shape [firstDdl; secondDdl] {[ txt "t" := secondTable ]}
           (txt "t") secondTable).
  - unfold protoFree.
    repeat constructor; intros [o Ho]; vm_compute in Ho; discriminate.
  - vm_compute. reflexivity.
  - vm_compute. reflexivity.
Defined.

(** X25: a statement that gives a table gives one column for each
    fragment between the commas of its column list, in the order of the
    fragments; each column is, apart from its primary and unique marks,
    what parseColumn reads from its fragment alone. *)
Theorem statementTable_columns stmt tableName options :
  statementTable stmt = Ok (Some (tableName, options)) ->
  exists m,
    re_match create_table_re stmt = Some m
    /\ tableName = grp 1 m
    /\ Forall2 (fun frag c => parseColumn frag [] = Ok [unflagged c])
         (split_on "," (grp 2 m)) (TableOptions.columns options).
Proof.
  intros Hs.
  apply statementTable_shape in Hs as (m & Hm & Hn & _ & _ & _ & _ & Hcols).
  by exists m.
Qed.

Lemma statementTable_columns_witness :
  exists m,
    re_match create_table_re secondDdl = Some m
    /\ txt "t" = grp 1 m
    /\ Forall2 (fun frag c => parseColumn frag [] = Ok [unflagged c])
         (split_on "," (grp 2 m)) (TableOptions.columns secondTable).
Proof.
  apply (statementTable_columns secondDdl (txt "t") secondTable).
  vm_compute. reflexivity.
Defined.

End ParserInvariants.

(* ===================================================================== *)
(** ** parseSchema: statements passed over, fragments refused, marks *)

Section ParserShapes.

Implicit Types (cols : list TableColumnOptions.t) (p : tableParts).

Lemma rmatch_seq_inv r1 r2 st k res :
  rmatch (Seq r1 r2) st k = Some res ->
  exists st1, extends st st1 /\ rmatch r2 st1 k = Some res.
Proof. cbn [rmatch]. apply rmatch_inv. Qed.

Lemma rmatch_lit_seq s r2 st k res :
  rmatch (Seq (lit s) r2) st k = Some res ->
  exists rest, strip_prefix s (after st) = Some rest.
Proof.
  change (rmatch (Seq (lit s) r2) st k)
    with (rmatch (lit s) st (fun st' => rmatch r2 st' k)).
  rewrite rmatch_lit. destruct (strip_prefix s (after st)) as [rest|]; [|done].
  intros _. by exists rest.
Qed.

Lemma rmatch_plus_seq (cls : ascii -> bool) r2 st k res :
  rmatch (Seq (Plus (Chr cls)) r2) st k = Some res ->
  exists c rest, after st = c :: rest /\ cls c = true.
Proof.
  unfold Plus. cbn [rmatch].
  destruct (after st) as [|c rest]; [done|].
  destruct (cls c) eqn:Hc; [|done]. intros _. by exists c, rest.
Qed.

(** the CREATE TABLE pattern needs a comma *)
Lemma create_table_comma stmt :
  no_comma stmt -> re_match create_table_re stmt = None.
Proof.
  unfold re_match. apply (search_None_suffix no_comma).
  - intros c a H. by inversion H.
  - intros b a Hnc. unfold match_here.
    destruct (rmatch create_table_re (MState b a []) Some) as [res|] eqn:Hm; [|done].
    exfalso. unfold create_table_re in Hm. cbn [seqs fold_right] in Hm.
    pose proof (extends_refl (MState b a [])) as Hacc.
    do 10 (let st := fresh "st" in
           let He := fresh "He" in
           apply rmatch_seq_inv in Hm as (st & He & Hm);
           apply (extends_trans _ _ _ Hacc) in He; clear Hacc; rename He into Hacc).
    apply rmatch_lit_seq in Hm as (rest & Hrest).
    destruct Hacc as (x & Hx & _). cbn [after] in Hx.
    destruct (after _) as [|c u]; [done|].
    cbn [list_ascii_of_string strip_prefix] in Hrest.
    destruct (Ascii.eqb_spec "," c) as [<-|]; [|done].
    subst a. unfold no_comma in Hnc.
    apply Forall_app in Hnc as [_ Hnc]. by inversion Hnc.
Qed.

(** the column pattern needs white space *)
Lemma column_space columnStmt :
  no_space columnStmt -> re_match column_re columnStmt = None.
Proof.
  unfold re_match. apply (search_None_suffix no_space).
  - intros c a H. by inversion H.
  - intros b a Hns. unfold match_here.
    destruct (rmatch column_re (MState b a []) Some) as [res|] eqn:Hm; [|done].
    exfalso. unfold column_re in Hm. cbn [seqs fold_right] in Hm.
    apply rmatch_seq_inv in Hm as (st & (x & Hx & _) & Hm).
    apply rmatch_plus_seq in Hm as (c & rest & Hc & Hsp).
    cbn [after] in Hx. rewrite Hc in Hx. subst a.
    unfold no_space in Hns. apply Forall_app in Hns as [_ Hns].
    inversion Hns; subst. congruence.
Qed.

(** X26: a statement without any comma is passed over, whatever it
    says: so a CREATE TABLE statement of one column with no comma
    anywhere gives no table and no error. *)
Theorem parseStatement_no_comma (stmt : str) (tableOptionsMap : gmap str TableOptions.t) :
  no_comma stmt ->
  parseStatement stmt tableOptionsMap = Ok tableOptionsMap.
Proof. intros Hnc. apply parseStatement_skip. by apply create_table_comma. Qed.

Lemma parseStatement_no_comma_witness :
  parseStatement commalessDdl ∅ = Ok ∅.
Proof.
  apply (parseStatement_no_comma commalessDdl ∅).
  unfold no_comma, commalessDdl. cbn [txt list_ascii_of_string].
  repeat (constructor; [discriminate|]). constructor.
Defined.

(** X27: a column fragment without white space, as the empty fragment
    between two commas, is refused: parseColumn throws the invalid column
    format error with the fragment. *)
Theorem parseColumn_no_space columnStmt cols :
  no_space columnStmt ->
  parseColumn columnStmt cols = Throw (InvalidDdlColumnFormat columnStmt).
Proof.
  intros Hns. unfold parseColumn. by rewrite column_space.
Qed.

Lemma parseColumn_no_space_witness :
  parseColumn [] [] = Throw (InvalidDdlColumnFormat []).
Proof. apply (parseColumn_no_space [] []). constructor. Defined.

Lemma raised_refl c : raised c c.
Proof. by repeat split. Qed.

Lemma raised_trans c1 c2 c3 : raised c1 c2 -> raised c2 c3 -> raised c1 c3.
Proof.
  intros (H1 & H2 & H3) (H1' & H2' & H3').
  split; [congruence|]. split; auto.
Qed.

Lemma Forall2_raised_refl cols : Forall2 raised cols cols.
Proof. induction cols; constructor; [apply raised_refl|done]. Qed.

Lemma Forall2_raised_trans cols1 cols2 cols3 :
  Forall2 raised cols1 cols2 -> Forall2 raised cols2 cols3 ->
  Forall2 raised cols1 cols3.
Proof.
  intros H. revert cols3.
  induction H as [|c1 c2 l1 l2 Hc _ IH]; intros cols3 H'; inversion H'; subst;
    constructor; [by eapply raised_trans|by apply IH].
Qed.

Lemma update_found_raised n f cols :
  (forall c, raised c (f c)) -> Forall2 raised cols (update_found n f cols).
Proof.
  intros Hf. induction cols as [|c cs IH]; cbn [update_found]; [constructor|].
  case_bool_decide; constructor;
    [apply Hf|apply Forall2_raised_refl|apply raised_refl|exact IH].
Qed.

Lemma marks_raised f (names : list str) :
  (forall c, raised c (f c)) ->
  forall cols,
    Forall2 raised cols (fold_left (fun cols n => update_found n f cols) names cols).
Proof.
  intros Hf. induction names as [|n names IH]; intros cols; simpl.
  - apply Forall2_raised_refl.
  - eapply Forall2_raised_trans; [apply (update_found_raised n f cols Hf)|apply IH].
Qed.

Lemma raised_primary c : raised c (TableColumnOptions.set_isPrimary true c).
Proof. by destruct c. Qed.

Lemma raised_unique c : raised c (TableColumnOptions.set_isUnique true c).
Proof. by destruct c. Qed.

(** X28: a clause of the trailer that is read without error changes the
    columns in their primary and unique marks only, and only by setting
    marks; it removes no index and no unique constraint, and adds at most
    one of each, at the end. *)
Theorem parseIndexStmt_raises idxStmt p p' :
  parseIndexStmt idxStmt p = Ok p' ->
  Forall2 raised (columns p) (columns p')
  /\ (exists added, indices p' = indices p ++ added /\ length added <= 1)
  /\ (exists added, uniques p' = uniques p ++ added /\ length added <= 1).
Proof.
  intros Hp.
  apply parseIndexStmt_cases in Hp
    as [->|[(names & ->)|[(i & Hi & ->)|(i & Hi & ->)]]];
    cbn [columns indices uniques].
  - split; [apply Forall2_raised_refl|].
    split; exists []; (split; [by rewrite app_nil_r|simpl; lia]).
  - split; [apply marks_raised, raised_primary|].
    split; exists []; (split; [by rewrite app_nil_r|simpl; lia]).
  - split; [apply marks_raised, raised_unique|].
    split; eexists [_]; (split; [done|simpl; lia]).
  - split; [apply Forall2_raised_refl|]. split.
    + eexists [_]. split; [done|simpl; lia].
    + exists []. split; [by rewrite app_nil_r|simpl; lia].
Qed.

Lemma parseIndexStmt_raises_witness :
  Forall2 raised (columns sampleParts)
    (columns (TableParts
                [ TableColumnOptions.Make (txt "id") (txt "int64") false false true
                    false false (txt "1") None None ] [] [])).
Proof.
  apply (parseIndexStmt_raises (txt "PRIMARY KEY(id)") sampleParts
           (TableParts
              [ TableColumnOptions.Make (txt "id") (txt "int64") false false true
                  false false (txt "1") None None ] [] [])).
  vm_compute. reflexivity.
Defined.

End ParserShapes.
